(** * Unlocking helpers ([lib/helpers/unlock.ts]): model and verified properties

    The development follows the source file top to bottom:
    - the JavaScript values the helpers compute with (numbers, strings),
    - the pure helpers ([validateUnlockCapabilities], [encodePassword],
      [stringKeyToArr], [getPatternKeyPosition], [getPatternActions]),
    - the executors that talk to the device ([fastUnlock], [pinUnlock],
      [pinUnlockWithKeyEvent], ...) as programs of a state-and-exception
      monad over an arbitrary device, with a trace of the calls made,
    - the theorems.

    Numbers are IEEE 754 doubles: every arithmetic operation rounds its exact
    result to the nearest double, with the infinities, the negative zero and
    [NaN]. *)

From Stdlib Require Import ZArith QArith Qround Qabs Qpower Lia Lqa List String Ascii.
From Stdlib Require Import DecimalString.
From Stdlib Require PrimFloat FloatOps SpecFloat Uint63.
From stdpp Require Import base gmap list.

Local Open Scope Z_scope.

(** ** JavaScript numbers

    A number is an IEEE 754 binary64 value: [NaN], an infinity, the negative
    zero, or a finite value, carried as the rational it denotes (zero being
    the positive zero).  The arithmetic operations compute the exact result
    and round it to the nearest double, ties to even, as IEEE 754 prescribes;
    [%], [Math.round], [Math.ceil] and [Math.abs] are exact on doubles.  The
    operations take doubles to doubles; a [Num q] whose [q] is no double
    stands for no JavaScript number, and a theorem stated for every [q]
    holds of the doubles among them. *)

Inductive number : Type :=
| NaN
| Inf (negative : bool)
| NegZero
| Num (q : Q).

Declare Scope num_scope.
Delimit Scope num_scope with num.
Bind Scope num_scope with number.

(** An integer literal (every literal of the source is exact). *)
Definition num_of_Z (z : Z) : number := Num (inject_Z z).

Definition zero (negative : bool) : number := if negative then NegZero else Num 0.

(** *** Rounding to the nearest double *)

(** [floor (log2 a)] for a positive rational. *)
Definition Qlog2 (a : Q) : Z :=
  let e := Z.log2 (Qnum a) - Z.log2 (Zpos (Qden a)) in
  if Qle_bool (2 ^ e) a then e else e - 1.

(** Rounding to the nearest integer, ties to the even one. *)
Definition Qround_even (a : Q) : Z :=
  let f := Qfloor a in
  match (a - inject_Z f ?= 1 # 2)%Q with
  | Lt => f
  | Gt => f + 1
  | Eq => if Z.even f then f else f + 1
  end.

(** The double nearest to [q].  The significand has 53 bits, so the spacing
    of the doubles around [q] is [2 ^ (floor (log2 |q|) - 52)], and no less
    than [2 ^ -1074] (the subnormal range).  A magnitude that rounds to
    [2 ^ 1024] or more overflows to an infinity, one that rounds to nothing
    underflows to a zero, both of the sign of [q]. *)
Definition round64 (q : Q) : number :=
  let q := Qred q in
  if Qnum q =? 0 then Num 0
  else
    let negative := Qnum q <? 0 in
    let a := Qabs q in
    let e := Z.max (Qlog2 a - 52) (-1074) in
    let m := Qround_even (a / 2 ^ e) in
    let r := (inject_Z m * 2 ^ e)%Q in
    if m =? 0 then zero negative
    else if Qle_bool (2 ^ 1024) r then Inf negative
    else Num (Qred (if negative then - r else r)).

(** *** Arithmetic *)

Definition is_negative (a : number) : bool :=
  match a with
  | NaN => false
  | Inf s => s
  | NegZero => true
  | Num q => Qnum q <? 0
  end.
Definition is_zero (a : number) : bool :=
  match a with
  | NegZero => true
  | Num q => Qnum q =? 0
  | _ => false
  end.

Definition num_neg (a : number) : number :=
  match a with
  | NaN => NaN
  | Inf s => Inf (negb s)
  | NegZero => Num 0
  | Num q => if Qnum q =? 0 then NegZero else Num (- q)
  end.

Definition num_add (a b : number) : number :=
  match a, b with
  | NaN, _ | _, NaN => NaN
  | Inf s, Inf s' => if Bool.eqb s s' then Inf s else NaN
  | Inf s, _ | _, Inf s => Inf s
  | NegZero, NegZero => NegZero
  | NegZero, Num y => Num y
  | Num x, NegZero => Num x
  | Num x, Num y => round64 (x + y)
  end.
(** [a - b] is [a + (-b)], also for the zeros and the infinities. *)
Definition num_sub (a b : number) : number := num_add a (num_neg b).
Definition num_mul (a b : number) : number :=
  let s := xorb (is_negative a) (is_negative b) in
  match a, b with
  | NaN, _ | _, NaN => NaN
  | Inf _, c | c, Inf _ => if is_zero c then NaN else Inf s
  | Num x, Num y => if is_zero a || is_zero b then zero s else round64 (x * y)
  | _, _ => zero s
  end.
Definition num_div (a b : number) : number :=
  let s := xorb (is_negative a) (is_negative b) in
  match a, b with
  | NaN, _ | _, NaN => NaN
  | Inf _, Inf _ => NaN
  | Inf _, _ => Inf s
  | _, Inf _ => zero s
  | _, _ =>
      if is_zero b then (if is_zero a then NaN else Inf s)
      else if is_zero a then zero s
      else match a, b with
           | Num x, Num y => round64 (x / y)
           | _, _ => NaN
           end
  end.

(** Truncation toward zero of a rational. *)
Definition Qtrunc (q : Q) : Z := Z.quot (Qnum q) (Zpos (Qden q)).

(** [a % b]: the remainder of the truncated division takes the sign of the
    dividend and is exact. *)
Definition num_rem (a b : number) : number :=
  match a, b with
  | NaN, _ | _, NaN => NaN
  | Inf _, _ => NaN
  | _, Inf _ => a
  | _, _ =>
      if is_zero b then NaN
      else match a, b with
           | Num x, Num y =>
               let r := Qred (x - y * inject_Z (Qtrunc (x / y))) in
               if Qnum r =? 0 then zero (is_negative a) else Num r
           | _, _ => a
           end
  end.

(** [a || b] on numbers: the zeros and [NaN] are the falsy ones. *)
Definition num_or (a b : number) : number :=
  match a with
  | NaN => b
  | _ => if is_zero a then b else a
  end.

(** The order of two numbers, [None] when one of them is [NaN]; the two
    zeros are equal. *)
Definition finite_value (a : number) : Q :=
  match a with Num q => q | _ => 0 end.
Definition num_compare (a b : number) : option comparison :=
  match a, b with
  | NaN, _ | _, NaN => None
  | Inf s, Inf s' => Some (if s then (if s' then Eq else Lt) else (if s' then Gt else Eq))
  | Inf s, _ => Some (if s then Lt else Gt)
  | _, Inf s => Some (if s then Gt else Lt)
  | _, _ => Some (finite_value a ?= finite_value b)%Q
  end.
(** [a > b], [a < b], [a === b]: every comparison with [NaN] is false. *)
Definition num_gt (a b : number) : bool :=
  match num_compare a b with Some Gt => true | _ => false end.
Definition num_lt (a b : number) : bool :=
  match num_compare a b with Some Lt => true | _ => false end.
Definition num_seq (a b : number) : bool :=
  match num_compare a b with Some Eq => true | _ => false end.

(** [Math.round] rounds to the nearest integer, ties toward +infinity;
    [Math.ceil] rounds upward.  A negative argument that rounds to zero
    gives the negative zero. *)
Definition Math_round (a : number) : number :=
  match a with
  | Num x =>
      let r := Qfloor (x + (1 # 2)) in
      if (r =? 0) && (Qnum x <? 0) then NegZero else Num (inject_Z r)
  | _ => a
  end.
Definition Math_ceil (a : number) : number :=
  match a with
  | Num x =>
      let r := Qceiling x in
      if (r =? 0) && (Qnum x <? 0) then NegZero else Num (inject_Z r)
  | _ => a
  end.
Definition Math_abs (a : number) : number :=
  match a with
  | NaN => NaN
  | Inf _ => Inf false
  | NegZero => Num 0
  | Num x => Num (Qabs x)
  end.

Infix "+" := num_add : num_scope.
Infix "-" := num_sub : num_scope.
Infix "*" := num_mul : num_scope.
Infix "/" := num_div : num_scope.
Infix "%%" := num_rem (at level 40, left associativity) : num_scope.
Infix "||" := num_or : num_scope.
Infix ">?" := num_gt : num_scope.
Infix "<?" := num_lt : num_scope.
Infix "===" := num_seq (at level 70, no associativity) : num_scope.

(** Two numbers denote the same value: rationals are compared by [Qeq] and
    the two zeros are the same value. *)
Definition num_equiv (a b : number) : Prop :=
  match a, b with
  | NaN, NaN => True
  | Inf s, Inf s' => s = s'
  | NegZero, NegZero => True
  | NegZero, Num q | Num q, NegZero => q == 0
  | Num x, Num y => x == y
  | _, _ => False
  end.

(** *** Reading numbers

    [denotes a q]: the number [a] is finite and its value is [q] (both zeros
    have the value 0); [near a q eps]: it is finite and within [eps] of [q]. *)
Definition finite (a : number) : Prop :=
  match a with
  | Num _ | NegZero => True
  | _ => False
  end.
Definition near (a : number) (q eps : Q) : Prop :=
  finite a /\ (Qabs (finite_value a - q) <= eps)%Q.
Definition denotes (a : number) (q : Q) : Prop :=
  finite a /\ finite_value a == q.

(** The rationals with at most 21 binary places.  Below [2 ^ 32] in
    magnitude they are doubles, so arithmetic that stays among them is
    exact; anything below [2 ^ 32] is rounded by [2 ^ -22] at most. *)
Definition on_grid (q : Q) : Prop := exists m : Z, (q == inject_Z m / 2 ^ 21)%Q.
Definition grid_bound : Q := (2 ^ 32)%Q.

(** *** The doubles of the kernel

    The value of a primitive float, for comparing the arithmetic above with
    the binary64 arithmetic of the kernel on examples. *)
Definition of_spec_float (f : SpecFloat.spec_float) : number :=
  match f with
  | SpecFloat.S754_zero s => zero s
  | SpecFloat.S754_infinity s => Inf s
  | SpecFloat.S754_nan => NaN
  | SpecFloat.S754_finite s m e =>
      Num (Qred ((if s then - inject_Z (Zpos m) else inject_Z (Zpos m)) * 2 ^ e))
  end.
Definition of_float (f : PrimFloat.float) : number :=
  of_spec_float (FloatOps.Prim2SF f).

(** Pseudo-random doubles, for the comparison: significands of up to 53
    bits (one in four of up to 10 bits), exponents over the whole range,
    subnormal numbers included, both signs. *)
Fixpoint sample_seeds (n : nat) (seed : Z) : list Z :=
  match n with
  | O => []
  | S n' =>
      let seed' := (seed * 6364136223846793005 + 1442695040888963407) mod 2 ^ 64 in
      seed' :: sample_seeds n' seed'
  end.
Definition sample_float (a b : Z) : PrimFloat.float :=
  let m := if (a / 2 ^ 53) mod 4 =? 0 then a mod 2 ^ 10 else a mod 2 ^ 53 in
  let e := if (b / 2 ^ 50) mod 2 =? 0 then b mod 40 - 70 else b mod 2200 - 1130 in
  let f := FloatOps.Z.ldexp (PrimFloat.of_uint63 (Uint63.of_Z m)) e in
  if Z.odd (b / 2 ^ 40) then PrimFloat.opp f else f.
Fixpoint sample_pairs (seeds : list Z) : list (PrimFloat.float * PrimFloat.float) :=
  match seeds with
  | a :: b :: c :: d :: r => (sample_float a b, sample_float c d) :: sample_pairs r
  | _ => []
  end.
Definition same_number (a b : number) : bool :=
  match a, b with
  | NaN, NaN | NegZero, NegZero => true
  | Inf s, Inf s' => Bool.eqb s s'
  | Num p, Num q => (Qnum p =? Qnum q) && Pos.eqb (Qden p) (Qden q)
  | _, _ => false
  end.
(** The four operations on two doubles give what the kernel computes. *)
Definition operations_agree (p : PrimFloat.float * PrimFloat.float) : bool :=
  let '(f, g) := p in
  same_number (of_float (PrimFloat.add f g)) (of_float f + of_float g)%num
  && same_number (of_float (PrimFloat.sub f g)) (of_float f - of_float g)%num
  && same_number (of_float (PrimFloat.mul f g)) (of_float f * of_float g)%num
  && same_number (of_float (PrimFloat.div f g)) (of_float f / of_float g)%num.

(** ** JavaScript strings: sequences of UTF-16 code units *)

Definition code_unit : Type := N.
Definition jsstring : Type := list code_unit.

(** An ASCII literal as a JavaScript string. *)
Fixpoint str (s : string) : jsstring :=
  match s with
  | EmptyString => []
  | String a r => N_of_ascii a :: str r
  end.

(** The class [\s] of regular expressions, which is also what [trim] strips. *)
Definition is_whitespace (c : code_unit) : bool :=
  ((9 <=? c) && (c <=? 13) || (c =? 32) || (c =? 160) || (c =? 5760)
   || (8192 <=? c) && (c <=? 8202) || (c =? 8232) || (c =? 8233)
   || (c =? 8239) || (c =? 8287) || (c =? 12288) || (c =? 65279))%N.

(** The characters [.] does not match. *)
Definition is_line_terminator (c : code_unit) : bool :=
  ((c =? 10) || (c =? 13) || (c =? 8232) || (c =? 8233))%N.

Definition is_digit_0_9 (c : code_unit) : bool := ((48 <=? c) && (c <=? 57))%N.
Definition is_digit_1_9 (c : code_unit) : bool := ((49 <=? c) && (c <=? 57))%N.

Fixpoint trimStart (s : jsstring) : jsstring :=
  match s with
  | c :: r => if is_whitespace c then trimStart r else s
  | [] => []
  end.
Definition trimEnd (s : jsstring) : jsstring := rev (trimStart (rev s)).
(** [String.prototype.trim], and lodash's [_.trim] on a string. *)
Definition trim (s : jsstring) : jsstring := trimEnd (trimStart s).

(** [s.replace(/c/g, rep)] for a one-character class [c] and a replacement
    without [$]: every single match is replaced. *)
Fixpoint replace_each (cls : code_unit -> bool) (rep s : jsstring) : jsstring :=
  match s with
  | [] => []
  | c :: r => (if cls c then rep else [c]) ++ replace_each cls rep r
  end.

(** [s.replace(/c+/g, rep)]: every maximal run of the class is replaced once.
    [in_run] tells that the previous character was part of the current run. *)
Fixpoint replace_runs (cls : code_unit -> bool) (rep s : jsstring) (in_run : bool)
  : jsstring :=
  match s with
  | [] => []
  | c :: r =>
      if cls c then
        (if in_run then [] else rep) ++ replace_runs cls rep r true
      else c :: replace_runs cls rep r false
  end.

(** [s.split(/\s*/)]: the separator matches a maximal run of whitespace, or the
    empty string between two characters.  [cur] is the piece being built and
    [skipping] tells that a separator run is being consumed. *)
Fixpoint split_loop (cur rest : jsstring) (skipping : bool) : list jsstring :=
  match rest with
  | [] => [cur]
  | c :: r =>
      if is_whitespace c then
        if skipping then split_loop [] r true else cur :: split_loop [] r true
      else
        match cur with
        | [] => split_loop [c] r false
        | _ => cur :: split_loop [c] r false
        end
  end.
Definition split_ws_star (s : jsstring) : list jsstring :=
  match s with
  | [] => []
  | _ => split_loop [] s false
  end.

(** *** [parseInt] *)

Definition digit_value (c : code_unit) : option Z :=
  if ((48 <=? c) && (c <=? 57))%N then Some (Z.of_N c - 48)
  else if ((97 <=? c) && (c <=? 122))%N then Some (Z.of_N c - 87)
  else if ((65 <=? c) && (c <=? 90))%N then Some (Z.of_N c - 55)
  else None.

(** The value of the longest prefix of digits of the radix; [None] when that
    prefix is empty. *)
Fixpoint parse_digits (radix : Z) (acc : option Z) (s : jsstring) : option Z :=
  match s with
  | [] => acc
  | c :: r =>
      match digit_value c with
      | Some d =>
          if d <? radix
          then parse_digits radix (Some (default 0 acc * radix + d)) r
          else acc
      | None => acc
      end
  end.

(** [parseInt(s, radix)]: an integer, or [None] for [NaN].  Radix 0 stands for
    an absent radix (lodash's [_.parseInt(s)]). *)
Definition parseInt (s : jsstring) (radix : Z) : option Z :=
  let s := trimStart s in
  let '(sign, s) :=
    match s with
    | 45%N :: r => (-1, r)
    | 43%N :: r => (1, r)
    | _ => (1, s)
    end in
  if negb (radix =? 0) && ((radix <? 2) || (36 <? radix)) then None
  else
    let stripPrefix := (radix =? 0) || (radix =? 16) in
    let radix := if radix =? 0 then 10 else radix in
    let '(radix, s) :=
      match s with
      | 48%N :: x :: r =>
          if stripPrefix && ((x =? 120) || (x =? 88))%N then (16, r) else (radix, s)
      | _ => (radix, s)
      end in
    match parse_digits radix None s with
    | Some n => Some (sign * n)
    | None => None
    end.

(** The number [parseInt] returns: the double nearest to the integer (for a
    decimal string of more than 20 digits the standard also allows the
    double nearest to a close-by integer; V8 converts exactly), the negative
    zero for a zero written with a minus sign, [NaN] without digits. *)
Definition parseInt_number (s : jsstring) (radix : Z) : number :=
  match parseInt s radix with
  | None => NaN
  | Some 0 => zero (match trimStart s with 45%N :: _ => true | _ => false end)
  | Some z => round64 (inject_Z z)
  end.

(** Decimal rendering of an integer, and [String(n)] for an integer or NaN. *)
Definition Z_toString (z : Z) : jsstring :=
  str (DecimalString.NilZero.string_of_int (Z.to_int z)).
Definition int_toString (n : option Z) : jsstring :=
  match n with Some z => Z_toString z | None => str "NaN" end.

(** [`${v}`] and [String(v)] for a value that is a string or [undefined]. *)
Definition String_of (v : option jsstring) : jsstring :=
  match v with Some s => s | None => str "undefined" end.
(** [_.trim(v)]: lodash turns [undefined] into the empty string. *)
Definition lodash_trim (v : option jsstring) : jsstring :=
  match v with Some s => trim s | None => [] end.

Fixpoint str_eqb (a b : jsstring) : bool :=
  match a, b with
  | [], [] => true
  | c :: a', d :: b' => (c =? d)%N && str_eqb a' b'
  | _, _ => false
  end.

(** [sep]-joined strings: what an array turns into inside a template literal,
    with [sep] a comma. *)
Fixpoint join (sep : jsstring) (l : list jsstring) : jsstring :=
  match l with
  | [] => []
  | [s] => s
  | s :: r => s ++ sep ++ join sep r
  end.

(** ** Errors *)

Inductive JsError : Type :=
| Error (message : jsstring)   (* [new Error(message)] *)
| TypeError.                   (* a property read on [undefined] *)

Definition result (A : Type) : Type := JsError + A.

(** ** Constants of the module *)

Definition PIN_UNLOCK : jsstring := str "pin".
Definition PIN_UNLOCK_KEY_EVENT : jsstring := str "pinWithKeyEvent".
Definition PASSWORD_UNLOCK : jsstring := str "password".
Definition PATTERN_UNLOCK : jsstring := str "pattern".
Definition FINGERPRINT_UNLOCK : jsstring := str "fingerprint".
Definition UNLOCK_TYPES : list jsstring :=
  [PIN_UNLOCK; PIN_UNLOCK_KEY_EVENT; PASSWORD_UNLOCK; PATTERN_UNLOCK; FINGERPRINT_UNLOCK].
Definition KEYCODE_NUMPAD_ENTER : Z := 66.
Definition UNLOCK_WAIT_TIME : Z := 100.
Definition INPUT_KEYS_WAIT_TIME : Z := 100.
Definition NUMBER_ZERO_KEYCODE : Z := 7.

(** ** Capabilities and their validation *)

(** The two capabilities the helpers read; [None] is [undefined]. *)
Record Capabilities : Type := {
  unlockKey : option jsstring;
  unlockType : option jsstring;
}.

Definition isNonEmptyString (value : option jsstring) : bool :=
  match value with
  | Some (_ :: _) => true
  | _ => false
  end.

(** [/^[0-9]+$/.test(s)] *)
Definition re_digits (s : jsstring) : bool :=
  match s with [] => false | _ => forallb is_digit_0_9 s end.

(** [/^[1-9]{2,9}$/.test(s)] *)
Definition re_pattern (s : jsstring) : bool :=
  forallb is_digit_1_9 s && (2 <=? length s)%nat && (length s <=? 9)%nat.

(** Whether [c] occurs in [s] before any line terminator: the tail of
    [/([1-9]).*?\1/] once the group has matched [c]. *)
Fixpoint occurs_on_line (c : code_unit) (s : jsstring) : bool :=
  match s with
  | [] => false
  | d :: r =>
      if (d =? c)%N then true
      else if is_line_terminator d then false
      else occurs_on_line c r
  end.

(** [/([1-9]).*?\1/.test(s)] *)
Fixpoint re_repeat (s : jsstring) : bool :=
  match s with
  | [] => false
  | c :: r => is_digit_1_9 c && occurs_on_line c r || re_repeat r
  end.

(** [/.{4,}/g.test(s)] on a fresh regular expression, with [n] for 4: some [n]
    consecutive characters are not line terminators.  [run] counts the
    characters matched since the last line terminator. *)
Fixpoint re_dots (n run : nat) (s : jsstring) : bool :=
  (n <=? run)%nat ||
  match s with
  | [] => false
  | c :: r => if is_line_terminator c then re_dots n 0 r else re_dots n (S run) r
  end.

Definition quoted (v : option jsstring) : jsstring :=
  str "'" ++ String_of v ++ str "'".

(** [caps] is [None] for [null] or [undefined] capabilities. *)
Definition validateUnlockCapabilities (caps : option Capabilities)
  : result (option Capabilities) :=
  let '(unlockKey, unlockType) :=
    match caps with
    | Some c => (c.(unlockKey), c.(unlockType))
    | None => (None, None)
    end in
  if negb (isNonEmptyString unlockType) then
    inl (Error (str "A non-empty unlock key value must be provided"))
  else
    let unlockType := String_of unlockType in
    if existsb (str_eqb unlockType) [PIN_UNLOCK; PIN_UNLOCK_KEY_EVENT; FINGERPRINT_UNLOCK]
    then
      if negb (re_digits (lodash_trim unlockKey)) then
        inl (Error (str "Unlock key value " ++ quoted unlockKey
                    ++ str " must only consist of digits"))
      else inr caps
    else if str_eqb unlockType PATTERN_UNLOCK then
      if negb (re_pattern (lodash_trim unlockKey)) then
        inl (Error (str "Unlock key value " ++ quoted unlockKey
                    ++ str " must only include from two to nine digits in range 1..9"))
      else if re_repeat (lodash_trim unlockKey) then
        inl (Error (str "Unlock key value " ++ quoted unlockKey
                    ++ str " must define a valid pattern where repeats are not allowed"))
      else inr caps
    else if str_eqb unlockType PASSWORD_UNLOCK then
      if negb (re_dots 4 0 (String_of unlockKey)) then
        inl (Error (str "The minimum allowed length of unlock key value "
                    ++ quoted unlockKey ++ str " is 4 characters"))
      else inr caps
    else
      inl (Error (str "Invalid unlock type " ++ quoted (Some unlockType) ++ str ". "
                  ++ str "Only the following unlock types are supported: "
                  ++ join (str ",") UNLOCK_TYPES)).

(** ** Password encoding and key splitting *)

Definition encodePassword (key : option jsstring) : jsstring :=
  replace_each is_whitespace (str "%s") (String_of key).

Definition stringKeyToArr (key : option jsstring) : list jsstring :=
  split_ws_star (replace_runs is_whitespace [] (trim (String_of key)) false).

(** ** Pattern geometry *)

Record Position : Type := mkPosition { x : number; y : number }.

(** The touch actions the helpers build: [press] and [moveTo] carry the [x]
    and [y] of their options (whose [element] is always [undefined]). *)
Inductive TouchAction : Type :=
| press (options : Position)
| moveTo (options : Position)
| release.

(** [key % cols || cols] and [Math.ceil((key % pins || pins) / cols)] *)
Definition patternColumn (key : number) : number :=
  let cols := num_of_Z 3 in
  (key %% cols || cols)%num.
Definition patternRow (key : number) : number :=
  let cols := num_of_Z 3 in
  let pins := num_of_Z 9 in
  Math_ceil ((key %% pins || pins) / cols)%num.

Definition getPatternKeyPosition (key : number) (initPos : Position) (piece : number)
  : Position :=
  let xPos (key x piece : number) :=
    Math_round (x + patternColumn key * piece - piece / num_of_Z 2)%num in
  let yPos (key y piece : number) :=
    Math_round (y + (patternRow key * piece - piece / num_of_Z 2))%num in
  {| x := xPos key initPos.(x) piece;
     y := yPos key initPos.(y) piece |}.

(** One axis of the offset of a move (the source spells the same statements
    out once for [x] and once for [y]). *)
Definition moveAxis (piece diff : number) : number :=
  let moveTo := num_of_Z 0 in
  if (diff >? num_of_Z 0)%num then
    let moveTo := piece in
    if (Math_abs diff >? piece)%num then (moveTo + piece)%num else moveTo
  else if (diff <? num_of_Z 0)%num then
    let moveTo := (num_of_Z (-1) * piece)%num in
    if (Math_abs diff >? piece)%num then (moveTo - piece)%num else moveTo
  else moveTo.

(** An element of the [keys] argument: a string or a number. *)
Inductive key : Type :=
| KStr (s : jsstring)
| KNum (n : number).

(** [_.isString(key) ? _.parseInt(key) : key] *)
Definition coerceKey (k : key) : number :=
  match k with
  | KStr s => parseInt_number s 0
  | KNum n => n
  end.

(** The body of the [for] loop, over the keys still to visit; [key0] is
    [keys[0]] and [lastPos] is [None] while the variable is unassigned. *)
Fixpoint patternLoop (key0 : number) (initPos : Position) (piece : number)
    (keys : list number) (actions : list TouchAction) (lastPos : option Position)
  : result (list TouchAction) :=
  match keys with
  | [] => inr actions
  | key :: keys' =>
      let keyPos := getPatternKeyPosition key initPos piece in
      if (key === key0)%num then
        patternLoop key0 initPos piece keys'
          (actions ++ [press {| x := keyPos.(x); y := keyPos.(y) |}]) (Some keyPos)
      else
        match lastPos with
        | None => inl TypeError
        | Some lastPos =>
            let diffX := (keyPos.(x) - lastPos.(x))%num in
            let moveTo_x := moveAxis piece diffX in
            let diffY := (keyPos.(y) - lastPos.(y))%num in
            let moveTo_y := moveAxis piece diffY in
            patternLoop key0 initPos piece keys'
              (actions ++ [moveTo {| x := (moveTo_x + lastPos.(x))%num;
                                     y := (moveTo_y + lastPos.(y))%num |}])
              (Some keyPos)
        end
  end.

Definition getPatternActions (keys : list key) (initPos : Position) (piece : number)
  : result (list TouchAction) :=
  let keys := map coerceKey keys in
  match keys with
  | [] => inr [release]
  | key0 :: _ =>
      match patternLoop key0 initPos piece keys [] None with
      | inl e => inl e
      | inr actions => inr (actions ++ [release])
      end
  end.

(** ** The device and the UI layer

    The executors drive two collaborators, [adb] and [driver].  Every call
    they make is a [Call]; the collaborators answer it with a value of the
    type [RespT] assigns to it, or raise.  Elements and the references
    [util.unwrapElement] extracts from them belong to the collaborators and
    are left abstract. *)

Record FastUnlockOptions : Type := {
  credential : jsstring;
  credentialType : jsstring;
}.

Section Calls.
Context {Element ElementId : Type}.

Inductive Call : Type :=
(* adb *)
| IsLockEnabled
| ClearLockCredential (credential : jsstring)
| CycleWakeUp
| DismissKeyguard
| SetLockCredential (credentialType credential : jsstring)
| GetApiLevel
| IsScreenLocked
| Keyevent (keycode : Z)
| Shell (argv : list jsstring)
(* driver *)
| FindElOrEls (strategy selector : jsstring) (mult : bool)
| GetAttribute (name : jsstring) (el : ElementId)
| Click (el : ElementId).

(** What a call answers.  A lookup of several elements answers a list, a
    lookup of one element answers the element or [null] ([None]). *)
Definition RespT (c : Call) : Type :=
  match c with
  | IsLockEnabled | IsScreenLocked => bool
  | GetApiLevel => Z
  | FindElOrEls _ _ true => list Element
  | FindElOrEls _ _ false => option Element
  | GetAttribute _ _ => jsstring
  | _ => unit
  end.

(** Answers as they are recorded in a trace. *)
Inductive Value : Type :=
| VUnit
| VBool (b : bool)
| VInt (n : Z)
| VElements (els : list Element)
| VElement (el : option Element)
| VString (s : jsstring).

Definition reify (c : Call) : RespT c -> Value :=
  match c return RespT c -> Value with
  | IsLockEnabled | IsScreenLocked => VBool
  | GetApiLevel => VInt
  | FindElOrEls _ _ true => VElements
  | FindElOrEls _ _ false => VElement
  | GetAttribute _ _ => VString
  | _ => fun _ => VUnit
  end.

(** The helpers of the module that call one another. *)
Inductive Method : Type :=
| M_fastUnlock
| M_pinUnlock
| M_pinUnlockWithKeyEvent
| M_waitForUnlock.

(** What a run leaves behind: the calls with their outcome, the log lines,
    the sleeps, and the entries into the helpers. *)
Inductive Event : Type :=
| Called (c : Call) (r : result Value)
| Logged (message : jsstring)
| Slept (ms : Z)
| Invoked (m : Method).
End Calls.

Arguments Call : clear implicits.
Arguments Value : clear implicits.
Arguments Event : clear implicits.
Arguments RespT Element {ElementId} c.

(** A device: its state, how it answers each call in a state, and the
    function [util.unwrapElement] on an element or on [undefined] ([None]). *)
Class Device : Type := {
  Element : Type;
  ElementId : Type;
  World : Type;
  unwrapElement : option Element -> ElementId;
  respond : forall c : Call ElementId, World -> result (RespT Element c) * World;
}.

Section Programs.
Context `{Device}.

Definition Trace : Type := list (Event Element ElementId).

(** A program: from a state of the device to an outcome, the state reached
    and the events emitted on the way. *)
Definition M (A : Type) : Type := World -> result A * World * Trace.

Definition ret {A} (a : A) : M A := fun w => (inr a, w, []).
Definition bind {A B} (m : M A) (k : A -> M B) : M B :=
  fun w =>
    match m w with
    | (inl e, w1, t1) => (inl e, w1, t1)
    | (inr a, w1, t1) =>
        match k a w1 with
        | (r, w2, t2) => (r, w2, t1 ++ t2)
        end
    end.
(** [try { m } finally { f }]: [f] always runs; its own exception wins,
    otherwise the outcome of [m] stands. *)
Definition try_finally {A} (m : M A) (f : M unit) : M A :=
  fun w =>
    match m w with
    | (r, w1, t1) =>
        match f w1 with
        | (inl e, w2, t2) => (inl e, w2, t1 ++ t2)
        | (inr _, w2, t2) => (r, w2, t1 ++ t2)
        end
    end.
(** [await] of a call to a collaborator. *)
Definition call (c : Call ElementId) : M (RespT Element c) :=
  fun w =>
    match respond c w with
    | (inl e, w1) => (inl e, w1, [Called c (inl e)])
    | (inr v, w1) => (inr v, w1, [Called c (inr (reify c v))])
    end.
Definition logger_info (message : jsstring) : M unit :=
  fun w => (inr tt, w, [Logged message]).
Definition sleep (ms : Z) : M unit :=
  fun w => (inr tt, w, [Slept ms]).
Definition enter (m : Method) : M unit :=
  fun w => (inr tt, w, [Invoked m]).
End Programs.

Notation "x <- m ;; k" := (bind m (fun x => k))
  (at level 100, m at next level, right associativity).
Notation "m ;; k" := (bind m (fun _ => k))
  (at level 100, right associativity).

Section Executors.
Context `{Device}.

Definition waitForUnlock : M unit :=
  enter M_waitForUnlock ;;
  sleep UNLOCK_WAIT_TIME ;;
  locked <- call IsScreenLocked ;;
  if negb locked then ret tt
  else
    call (Keyevent KEYCODE_NUMPAD_ENTER) ;;
    sleep UNLOCK_WAIT_TIME.

Definition fastUnlock (opts : FastUnlockOptions) : M unit :=
  enter M_fastUnlock ;;
  let credential := opts.(credential) in
  let credentialType := opts.(credentialType) in
  logger_info (str "Unlocking the device via ADB using " ++ credentialType
               ++ str " credential '" ++ credential ++ str "'") ;;
  wasLockEnabled <- call IsLockEnabled ;;
  (if wasLockEnabled : bool then
     call (ClearLockCredential credential) ;;
     call CycleWakeUp
   else
     logger_info
       (str "No active lock has been detected. Proceeding to the keyguard dismissal")) ;;
  try_finally
    (call DismissKeyguard)
    (if wasLockEnabled then call (SetLockCredential credentialType credential)
     else ret tt).

(** The loop of [pinUnlockWithKeyEvent]. *)
Fixpoint sendKeyEvents (keys : list jsstring) : M unit :=
  match keys with
  | [] => ret tt
  | pin :: keys' =>
      call (Shell [str "input"; str "keyevent";
                   int_toString (option_map (fun n => n + NUMBER_ZERO_KEYCODE)
                                            (parseInt pin 10))]) ;;
      sendKeyEvents keys'
  end.

Definition pinUnlockWithKeyEvent (capabilities : Capabilities) : M unit :=
  enter M_pinUnlockWithKeyEvent ;;
  logger_info (str "Trying to unlock device using pin with keycode "
               ++ String_of capabilities.(unlockKey)) ;;
  call DismissKeyguard ;;
  let keys := stringKeyToArr capabilities.(unlockKey) in
  sendKeyEvents keys ;;
  waitForUnlock.

(** First loop on API level 21 and above: [pins[text] = el] for each
    element found.  The keys looked up afterwards are one code unit long,
    so no property inherited by the object literal is ever read. *)
Fixpoint collectPins (els : list Element) (pins : gmap jsstring Element)
  : M (gmap jsstring Element) :=
  match els with
  | [] => ret pins
  | el :: els' =>
      text <- call (GetAttribute (str "text") (unwrapElement (Some el))) ;;
      collectPins els' (<[text := el]> pins)
  end.

(** Second loop on API level 21 and above: click [pins[pin]] for each key. *)
Fixpoint clickPins (pins : gmap jsstring Element) (keys : list jsstring) : M unit :=
  match keys with
  | [] => ret tt
  | pin :: keys' =>
      let el := pins !! pin in
      call (Click (unwrapElement el)) ;;
      clickPins pins keys'
  end.

(** The loop below API level 21.  [Some tt] tells that the function has
    returned from inside the loop (through the fallback), [None] that the
    loop has run to its end. *)
Fixpoint clickKeys (capabilities : Capabilities) (keys : list jsstring)
  : M (option unit) :=
  match keys with
  | [] => ret None
  | pin :: keys' =>
      el <- call (FindElOrEls (str "id") (str "com.android.keyguard:id/key" ++ pin) false) ;;
      match el with
      | None =>
          (* fallback to pin with key event *)
          v <- pinUnlockWithKeyEvent capabilities ;;
          ret (Some v)
      | Some e =>
          call (Click (unwrapElement (Some e))) ;;
          clickKeys capabilities keys'
      end
  end.

Definition pinUnlock (capabilities : Capabilities) : M unit :=
  enter M_pinUnlock ;;
  logger_info (str "Trying to unlock device using pin "
               ++ String_of capabilities.(unlockKey)) ;;
  call DismissKeyguard ;;
  let keys := stringKeyToArr capabilities.(unlockKey) in
  apiLevel <- call GetApiLevel ;;
  if 21 <=? apiLevel then
    els <- call (FindElOrEls (str "id") (str "com.android.systemui:id/digit_text") true) ;;
    match els with
    | [] =>
        (* fallback to pin with key event *)
        pinUnlockWithKeyEvent capabilities
    | _ :: _ =>
        pins <- collectPins els ∅ ;;
        clickPins pins keys ;;
        waitForUnlock
    end
  else
    returned <- clickKeys capabilities keys ;;
    match returned with
    | Some v => ret v
    | None => waitForUnlock
    end.
End Executors.

(** ** The specification's formulas, for comparison with the code *)

(** Rounding to the nearest integer, ties upward. *)
Definition spec_round (q : Q) : Z := Qfloor (q + (1 # 2)).

(** Column and row of a digit of the 3 x 3 grid. *)
Definition spec_column (d : Z) : Z := (d - 1) mod 3 + 1.
Definition spec_row (d : Z) : Z := Qceiling (inject_Z d / 3).


(** Every maximal run of whitespace replaced by one [%s]. *)
Definition spec_encodeRuns (s : jsstring) : jsstring :=
  replace_runs is_whitespace (str "%s") s false.

Definition pos_equiv (p q : Position) : Prop :=
  num_equiv p.(x) q.(x) /\ num_equiv p.(y) q.(y).

Definition is_press (a : TouchAction) : bool :=
  match a with press _ => true | _ => false end.
Definition is_moveTo (a : TouchAction) : bool :=
  match a with moveTo _ => true | _ => false end.

Definition origin (ox oy : Z) : Position := {| x := num_of_Z ox; y := num_of_Z oy |}.

(** The action the loop adds for [key] when the previous key was at
    [lastPos], and the actions it adds for the keys after the first. *)
Definition keyAction (key0 : number) (initPos : Position) (piece : number)
    (lastPos : Position) (key : number) : TouchAction :=
  let keyPos := getPatternKeyPosition key initPos piece in
  if (key === key0)%num then press {| x := keyPos.(x); y := keyPos.(y) |}
  else moveTo {| x := (moveAxis piece (keyPos.(x) - lastPos.(x)) + lastPos.(x))%num;
                 y := (moveAxis piece (keyPos.(y) - lastPos.(y)) + lastPos.(y))%num |}.

Fixpoint gestureTail (key0 : number) (initPos : Position) (piece : number)
    (lastPos : Position) (keys : list number) : list TouchAction :=
  match keys with
  | [] => []
  | key :: keys' =>
      keyAction key0 initPos piece lastPos key
      :: gestureTail key0 initPos piece (getPatternKeyPosition key initPos piece) keys'
  end.

Fixpoint pressCount (actions : list TouchAction) : nat :=
  match actions with
  | [] => 0
  | a :: r => (if is_press a then 1 else 0) + pressCount r
  end.

Definition is_digit (d : Z) : Prop := 1 <= d <= 9.

(** The capabilities of a password unlock with the given key. *)
Definition passwordCaps (key : jsstring) : Capabilities :=
  {| unlockKey := Some key; unlockType := Some PASSWORD_UNLOCK |}.

(** ** A scripted device, for concrete runs

    Elements are numbered; [util.unwrapElement] is taken to hand back the
    number, or nothing for [undefined].  The device has no state of its own:
    it answers from a fixed script. *)

Record Script : Type := {
  lockEnabled : bool;
  apiLevel : Z;
  screenLocked : bool;
  digitElements : list nat;             (* the keypad elements found at once *)
  keyElement : jsstring -> option nat;  (* the element found for a selector *)
  textOf : option nat -> jsstring;      (* the text attribute of an element *)
  failing : Call (option nat) -> bool;  (* the calls that raise *)
}.

Definition deviceError : JsError := Error (str "device error").

Definition scripted_answer (s : Script) (c : Call (option nat)) : RespT nat c :=
  match c return RespT nat c with
  | IsLockEnabled => s.(lockEnabled)
  | IsScreenLocked => s.(screenLocked)
  | GetApiLevel => s.(apiLevel)
  | FindElOrEls _ selector mult =>
      match mult return RespT nat (FindElOrEls _ selector mult) with
      | true => s.(digitElements)
      | false => s.(keyElement) selector
      end
  | GetAttribute _ el => s.(textOf) el
  | ClearLockCredential _ | CycleWakeUp | DismissKeyguard | SetLockCredential _ _
  | Keyevent _ | Shell _ | Click _ => tt
  end.

Definition scripted (s : Script) : Device := {|
  Element := nat;
  ElementId := option nat;
  World := unit;
  unwrapElement := fun el => el;
  respond := fun c w =>
    if s.(failing) c then (inl deviceError, w) else (inr (scripted_answer s c), w);
|}.

(** A phone with a keypad of the digits 1 and 2 as elements 1 and 2. *)
Definition keypad12 : Script := {|
  lockEnabled := true;
  apiLevel := 30;
  screenLocked := false;
  digitElements := [1%nat; 2%nat];
  keyElement := fun _ => None;
  textOf := fun el =>
    match el with
    | Some 1%nat => str "1"
    | Some 2%nat => str "2"
    | _ => str ""
    end;
  failing := fun _ => false;
|}.

Definition failing_dismissKeyguard (c : Call (option nat)) : bool :=
  match c with DismissKeyguard => true | _ => false end.
Definition failing_cycleWakeUp (c : Call (option nat)) : bool :=
  match c with CycleWakeUp => true | _ => false end.
Definition failing_click (c : Call (option nat)) : bool :=
  match c with Click _ => true | _ => false end.

Definition with_failing (s : Script) (f : Call (option nat) -> bool) : Script :=
  {| lockEnabled := s.(lockEnabled); apiLevel := s.(apiLevel);
     screenLocked := s.(screenLocked); digitElements := s.(digitElements);
     keyElement := s.(keyElement); textOf := s.(textOf); failing := f |}.

Definition pinOpts : FastUnlockOptions :=
  {| credential := str "1234"; credentialType := str "pin" |}.
Definition pinCaps (key : string) : Capabilities :=
  {| unlockKey := Some (str key); unlockType := Some PIN_UNLOCK |}.

(** The same phone without lock, without keypad elements, and as an old phone
    (API level 19) without key elements. *)
Definition unlocked12 : Script :=
  {| lockEnabled := false; apiLevel := 30; screenLocked := false;
     digitElements := [1%nat; 2%nat]; keyElement := fun _ => None;
     textOf := keypad12.(textOf); failing := fun _ => false |}.
Definition noKeypad : Script :=
  {| lockEnabled := true; apiLevel := 30; screenLocked := true;
     digitElements := []; keyElement := fun _ => None;
     textOf := fun _ => str ""; failing := fun _ => false |}.
Definition oldPhone : Script :=
  {| lockEnabled := true; apiLevel := 19; screenLocked := true;
     digitElements := []; keyElement := fun _ => None;
     textOf := fun _ => str ""; failing := fun _ => false |}.

(** ** Reading traces *)

Definition outcomeOf `{Device} {A} (run : result A * World * Trace) : result A :=
  fst (fst run).
Definition traceOf `{Device} {A} (run : result A * World * Trace) : Trace :=
  snd run.

Section TraceReading.
Context {Element ElementId : Type}.
Implicit Type ev : Event Element ElementId.
Implicit Type tr : list (Event Element ElementId).

(** The keycode path has been taken. *)
Definition fellBack tr : Prop := In (Invoked M_pinUnlockWithKeyEvent) tr.

(** How many times [pinUnlockWithKeyEvent] has been entered. *)
Fixpoint keyEventEntries tr : nat :=
  match tr with
  | [] => 0
  | Invoked M_pinUnlockWithKeyEvent :: tr' => S (keyEventEntries tr')
  | _ :: tr' => keyEventEntries tr'
  end.

(** The lookups of [pinUnlock]. *)
Definition digitTextLookup : Call ElementId :=
  FindElOrEls (str "id") (str "com.android.systemui:id/digit_text") true.
Definition keyLookup (pin : jsstring) : Call ElementId :=
  FindElOrEls (str "id") (str "com.android.keyguard:id/key" ++ pin) false.

(** What [pinUnlockWithKeyEvent] does after it has been entered: it logs,
    dismisses the keyguard, sends key events through the shell and waits
    for the unlock.  No lookup, no click, no entry into another executor. *)
Definition keyEventStep ev : Prop :=
  match ev with
  | Invoked M_waitForUnlock | Logged _ | Slept _ => True
  | Called DismissKeyguard _ | Called (Shell _) _
  | Called IsScreenLocked _ | Called (Keyevent _) _ => True
  | _ => False
  end.

(** What the element path does once the keypad has been found: it reads
    attributes, clicks and waits for the unlock. *)
Definition clickStep ev : Prop :=
  match ev with
  | Invoked M_waitForUnlock | Slept _ => True
  | Called (GetAttribute _ _) _ | Called (Click _) _
  | Called IsScreenLocked _ | Called (Keyevent _) _ => True
  | _ => False
  end.

(** What the first loop of the element path does: it reads attributes. *)
Definition attributeStep ev : Prop :=
  match ev with
  | Called (GetAttribute _ _) _ => True
  | _ => False
  end.

(** Neither the level query nor the lookup of the whole keypad. *)
Definition afterLookup ev : Prop :=
  match ev with
  | Called GetApiLevel _ | Called (FindElOrEls _ _ true) _ | Invoked M_pinUnlock => False
  | _ => True
  end.
End TraceReading.

Section Paths.
Context `{Device}.

(** The element path on API level 21 and above, after the lookup. *)
Definition elementPath (els : list Element) (keys : list jsstring) : M unit :=
  pins <- collectPins els ∅ ;;
  clickPins pins keys ;;
  waitForUnlock.

(** The path below API level 21, after the level query. *)
Definition legacyPath (capabilities : Capabilities) (keys : list jsstring) : M unit :=
  returned <- clickKeys capabilities keys ;;
  match returned with
  | Some v => ret v
  | None => waitForUnlock
  end.

(** Every event a program can emit satisfies [P]. *)
Definition emits {A} (P : Event Element ElementId -> Prop) (m : M A) : Prop :=
  forall w r w' tr, m w = (r, w', tr) -> Forall P tr.

(** A program that raises only what one of its calls has raised. *)
Definition raises_from_calls {A} (m : M A) : Prop :=
  forall w e w' tr, m w = (inl e, w', tr) -> exists c, In (Called c (inl e)) tr.
End Paths.

(** ** Further readings of the code, for the properties below *)

(** A code unit as a string of length one. *)
Definition unit_string (c : code_unit) : jsstring := [c].

Definition non_whitespace (c : code_unit) : bool := negb (is_whitespace c).

(** The value of a decimal digit character. *)
Definition digit_of (c : code_unit) : Z := Z.of_N c - 48.

(** How many whitespace characters a string has. *)
Fixpoint whitespaceCount (s : jsstring) : nat :=
  match s with
  | [] => 0
  | c :: r => (if is_whitespace c then 1 else 0) + whitespaceCount r
  end.

(** Capabilities with a key and a type. *)
Definition capsOf (key : option jsstring) (type : option jsstring) : Capabilities :=
  {| unlockKey := key; unlockType := type |}.


(** The digit whose position an integer key gets: keys are read modulo the
    grid, and zero as nine. *)
Definition wrapped_digit (k : Z) : Z := (k - 1) mod 9 + 1.

(** ** More readings of traces *)

Section MoreTraceReading.
Context {Element ElementId : Type}.
Implicit Type tr : list (Event Element ElementId).

(** The calls of a trace, in their order, without their outcomes. *)
Fixpoint callsOf tr : list (Call ElementId) :=
  match tr with
  | [] => []
  | Called c _ :: tr' => c :: callsOf tr'
  | _ :: tr' => callsOf tr'
  end.

(** The command lines given to [adb.shell], in their order. *)
Fixpoint shellCalls tr : list (list jsstring) :=
  match tr with
  | [] => []
  | Called (Shell argv) _ :: tr' => argv :: shellCalls tr'
  | _ :: tr' => shellCalls tr'
  end.

(** The references given to [driver.click], in their order. *)
Fixpoint clickCalls tr : list ElementId :=
  match tr with
  | [] => []
  | Called (Click el) _ :: tr' => el :: clickCalls tr'
  | _ :: tr' => clickCalls tr'
  end.

(** The outcome of a call without answer, as a trace records it. *)
Definition unitOutcome (r : result unit) : result (Value Element) :=
  match r with
  | inl e => inl e
  | inr _ => inr VUnit
  end.
End MoreTraceReading.

(** The command line [pinUnlockWithKeyEvent] sends for one character of the
    key, and the one for a key code. *)
Definition keyeventCommand (pin : jsstring) : list jsstring :=
  [str "input"; str "keyevent";
   int_toString (option_map (fun n => n + NUMBER_ZERO_KEYCODE) (parseInt pin 10))].
Definition keycodeCommand (code : Z) : list jsstring :=
  [str "input"; str "keyevent"; Z_toString code].

(** A device on which the dismissal and the restoration of the credential
    raise two different errors. *)
Definition dismissError : JsError := Error (str "dismissal failed").
Definition restoreError : JsError := Error (str "restoration failed").
Definition twoErrors : Device := {|
  Element := nat;
  ElementId := option nat;
  World := unit;
  unwrapElement := fun el => el;
  respond := fun c w =>
    match c return result (RespT nat c) * unit with
    | DismissKeyguard => (inl dismissError, w)
    | SetLockCredential _ _ => (inl restoreError, w)
    | c' => (inr (scripted_answer keypad12 c'), w)
    end;
|}.

(** An old phone with an element for the key 1 only. *)
Definition oldPhoneKey1 : Script :=
  {| lockEnabled := true; apiLevel := 19; screenLocked := false;
     digitElements := [];
     keyElement := fun selector =>
       if str_eqb selector (str "com.android.keyguard:id/key1") then Some 1%nat else None;
     textOf := fun _ => str ""; failing := fun _ => false |}.

(** ** The other executors

    [passwordUnlock] talks to [adb] only.  [fingerprintUnlock] and
    [patternUnlock] make four more calls ([adb.fingerprint],
    [driver.getLocation], [driver.getSize], [driver.performTouch]); they are
    programs over a device that answers these too, with a trace that holds
    the events of both kinds. *)

Section PasswordUnlock.
Context `{Device}.

Definition passwordUnlock (capabilities : Capabilities) : M unit :=
  let unlockKey := capabilities.(unlockKey) in
  logger_info (str "Trying to unlock device using password " ++ String_of unlockKey) ;;
  call DismissKeyguard ;;
  (* Replace blank spaces with %s *)
  let key := encodePassword unlockKey in
  call (Shell [str "input"; str "text"; key]) ;;
  sleep INPUT_KEYS_WAIT_TIME ;;
  call (Shell [str "input"; str "keyevent"; Z_toString KEYCODE_NUMPAD_ENTER]) ;;
  waitForUnlock.
End PasswordUnlock.

(** What [driver.getSize] answers. *)
Record Size : Type := { width : number; height : number }.

Section ExtCalls.
Context {Element ElementId : Type}.

Inductive ExtCall : Type :=
| Fingerprint (fingerprintId : jsstring)   (* adb.fingerprint *)
| GetLocation (el : ElementId)             (* driver.getLocation *)
| GetSize (el : ElementId)                 (* driver.getSize *)
| PerformTouch (gestures : list TouchAction).   (* driver.performTouch *)

Definition ExtRespT (c : ExtCall) : Type :=
  match c with
  | GetLocation _ => Position
  | GetSize _ => Size
  | _ => unit
  end.

Inductive ExtValue : Type :=
| XUnit
| XPosition (p : Position)
| XSize (s : Size).

Definition reifyExt (c : ExtCall) : ExtRespT c -> ExtValue :=
  match c return ExtRespT c -> ExtValue with
  | GetLocation _ => XPosition
  | GetSize _ => XSize
  | _ => fun _ => XUnit
  end.

(** An event of one of the calls above, or an event as before. *)
Inductive ExtEvent : Type :=
| Base (ev : Event Element ElementId)
| CalledExt (c : ExtCall) (r : result ExtValue).
End ExtCalls.

Arguments ExtCall : clear implicits.
Arguments ExtEvent : clear implicits.

(** A device that answers the four calls as well; [unwrapNull] is
    [util.unwrapElement(null)]. *)
Class FullDevice : Type := {
  base_device :: Device;
  unwrapNull : ElementId;
  respondExt : forall c : ExtCall ElementId, World -> result (ExtRespT c) * World;
}.

Section ExtPrograms.
Context `{FullDevice}.

Definition XTrace : Type := list (ExtEvent Element ElementId).
Definition MX (A : Type) : Type := World -> result A * World * XTrace.

Definition xret {A} (a : A) : MX A := fun w => (inr a, w, []).
Definition xthrow {A} (e : JsError) : MX A := fun w => (inl e, w, []).
Definition xbind {A B} (m : MX A) (k : A -> MX B) : MX B :=
  fun w =>
    match m w with
    | (inl e, w1, t1) => (inl e, w1, t1)
    | (inr a, w1, t1) =>
        match k a w1 with
        | (r, w2, t2) => (r, w2, t1 ++ t2)
        end
    end.
(** A program of the first kind, run as it is. *)
Definition lift {A} (m : M A) : MX A :=
  fun w => match m w with (r, w1, t) => (r, w1, map Base t) end.
Definition xcall (c : ExtCall ElementId) : MX (ExtRespT c) :=
  fun w =>
    match respondExt c w with
    | (inl e, w1) => (inl e, w1, [CalledExt c (inl e)])
    | (inr v, w1) => (inr v, w1, [CalledExt c (inr (reifyExt c v))])
    end.
End ExtPrograms.

Notation "x <~ m ;;; k" := (xbind m (fun x => k))
  (at level 100, m at next level, right associativity).
Notation "m ;;; k" := (xbind m (fun _ => k))
  (at level 100, right associativity).

Section ExtExecutors.
Context `{FullDevice}.

Definition fingerprintUnlock (capabilities : Capabilities) : MX unit :=
  apiLevel <~ lift (call GetApiLevel) ;;;
  if apiLevel <? 23 then
    xthrow (Error (str "Fingerprint unlock only works for Android 6+ emulators"))
  else
    xcall (Fingerprint (String_of capabilities.(unlockKey))) ;;;
    lift (sleep UNLOCK_WAIT_TIME).

(** The identifier of the pattern view for an API level. *)
Definition lockPatternViewId (apiLevel : Z) : jsstring :=
  str "com.android." ++ (if 21 <=? apiLevel then str "systemui" else str "keyguard")
  ++ str ":id/lockPatternView".

(** [util.unwrapElement(el)] for what a lookup of one element answers. *)
Definition unwrapFound (el : option Element) : ElementId :=
  match el with
  | Some e => unwrapElement (Some e)
  | None => unwrapNull
  end.

Definition patternUnlock (capabilities : Capabilities) : MX unit :=
  let unlockKey := capabilities.(unlockKey) in
  lift (logger_info (str "Trying to unlock device using pattern " ++ String_of unlockKey)) ;;;
  lift (call DismissKeyguard) ;;;
  let keys := stringKeyToArr unlockKey in
  apiLevel <~ lift (call GetApiLevel) ;;;
  el <~ lift (call (FindElOrEls (str "id") (lockPatternViewId apiLevel) false)) ;;;
  initPos <~ xcall (GetLocation (unwrapFound el)) ;;;
  size <~ xcall (GetSize (unwrapFound el)) ;;;
  (* Get actions to perform *)
  match getPatternActions (map KStr keys) initPos (size.(width) / num_of_Z 3)%num with
  | inl e => xthrow e
  | inr actions =>
      (* Perform gesture *)
      xcall (PerformTouch actions) ;;;
      lift (sleep UNLOCK_WAIT_TIME)
  end.
End ExtExecutors.

(** A scripted device that answers the four calls: the pattern view is at
    [location] with [size]; [failingExt] tells which of them raise. *)
Definition scriptedFull (s : Script) (location : Position) (size : Size)
    (failingExt : ExtCall (option nat) -> bool) : FullDevice := {|
  base_device := scripted s;
  unwrapNull := None;
  respondExt := fun c w =>
    if failingExt c then (inl deviceError, w)
    else
      (inr (match c return ExtRespT c with
            | GetLocation _ => location
            | GetSize _ => size
            | Fingerprint _ | PerformTouch _ => tt
            end), w);
|}.

Definition viewLocation : Position := origin 33 323.
Definition viewSize : Size := {| width := num_of_Z 411; height := num_of_Z 411 |}.

(** A phone whose pattern view is element 7. *)
Definition patternPhone : Script :=
  {| lockEnabled := true; apiLevel := 30; screenLocked := true;
     digitElements := []; keyElement := fun _ => Some 7%nat;
     textOf := fun _ => str ""; failing := fun _ => false |}.

(** The runs of [patternUnlock], by how far they get: each call either
    raises, which ends the run with its error, or answers, which leads to
    the next one. *)
Section PatternRuns.
Context `{FullDevice}.

Definition patternKeys (capabilities : Capabilities) : list key :=
  map KStr (stringKeyToArr capabilities.(unlockKey)).

Definition patternLog (capabilities : Capabilities) : ExtEvent Element ElementId :=
  Base (Logged (str "Trying to unlock device using pattern "
                ++ String_of capabilities.(unlockKey))).

Definition foundView (n : Z) (el : option Element) : XTrace :=
  [Base (Called DismissKeyguard (inr VUnit));
   Base (Called GetApiLevel (inr (VInt n)));
   Base (Called (FindElOrEls (str "id") (lockPatternViewId n) false) (inr (VElement el)))].

Definition measuredView (n : Z) (el : option Element) (loc : Position) (size : Size)
  : XTrace :=
  foundView n el
  ++ [CalledExt (GetLocation (unwrapFound el)) (inr (XPosition loc));
      CalledExt (GetSize (unwrapFound el)) (inr (XSize size))].

Inductive patternUnlockRun (capabilities : Capabilities) : result unit -> XTrace -> Prop :=
| run_dismiss_raises e :
    patternUnlockRun capabilities (inl e)
      [patternLog capabilities; Base (Called DismissKeyguard (inl e))]
| run_level_raises e :
    patternUnlockRun capabilities (inl e)
      [patternLog capabilities; Base (Called DismissKeyguard (inr VUnit));
       Base (Called GetApiLevel (inl e))]
| run_lookup_raises n e :
    patternUnlockRun capabilities (inl e)
      [patternLog capabilities; Base (Called DismissKeyguard (inr VUnit));
       Base (Called GetApiLevel (inr (VInt n)));
       Base (Called (FindElOrEls (str "id") (lockPatternViewId n) false) (inl e))]
| run_location_raises n el e :
    patternUnlockRun capabilities (inl e)
      (patternLog capabilities :: foundView n el
       ++ [CalledExt (GetLocation (unwrapFound el)) (inl e)])
| run_size_raises n el loc e :
    patternUnlockRun capabilities (inl e)
      (patternLog capabilities :: foundView n el
       ++ [CalledExt (GetLocation (unwrapFound el)) (inr (XPosition loc));
           CalledExt (GetSize (unwrapFound el)) (inl e)])
| run_gesture_fails n el loc size e :
    getPatternActions (patternKeys capabilities) loc (size.(width) / num_of_Z 3)%num = inl e ->
    patternUnlockRun capabilities (inl e)
      (patternLog capabilities :: measuredView n el loc size)
| run_touch_raises n el loc size actions e :
    getPatternActions (patternKeys capabilities) loc (size.(width) / num_of_Z 3)%num
    = inr actions ->
    patternUnlockRun capabilities (inl e)
      (patternLog capabilities :: measuredView n el loc size
       ++ [CalledExt (PerformTouch actions) (inl e)])
| run_touch_done n el loc size actions :
    getPatternActions (patternKeys capabilities) loc (size.(width) / num_of_Z 3)%num
    = inr actions ->
    patternUnlockRun capabilities (inr tt)
      (patternLog capabilities :: measuredView n el loc size
       ++ [CalledExt (PerformTouch actions) (inr XUnit); Base (Slept UNLOCK_WAIT_TIME)]).
End PatternRuns.

(** Scripted devices for the runs of these executors. *)
Definition patternDevice : FullDevice :=
  scriptedFull patternPhone viewLocation viewSize (fun _ => false).
Definition noViewDevice : FullDevice :=
  scriptedFull noKeypad viewLocation viewSize (fun _ => false).
Definition oldDevice : FullDevice :=
  scriptedFull oldPhone viewLocation viewSize (fun _ => false).

Definition patternCaps (key : string) : Capabilities :=
  capsOf (Some (str key)) (Some PATTERN_UNLOCK).


(** * Properties *)

(** ** The string helpers on examples *)
Example parseInt_ex1 : parseInt (str " 42px") 0 = Some 42. Proof. reflexivity. Qed.
Example parseInt_ex2 : parseInt (str "-0x1F") 0 = Some (-31). Proof. reflexivity. Qed.
Example parseInt_ex3 : parseInt (str "x") 10 = None. Proof. reflexivity. Qed.
Example parseInt_ex4 : parseInt (str "0x1F") 10 = Some 0. Proof. reflexivity. Qed.
Example toString_ex : int_toString (Some 16) = str "16". Proof. reflexivity. Qed.
Example toString_ex2 : int_toString (Some (-7)) = str "-7". Proof. reflexivity. Qed.
Example split_ex1 : split_ws_star (str "1 2  3") = [str "1"; str "2"; str "3"]. Proof. reflexivity. Qed.
Example split_ex2 : split_ws_star (str " a ") = [str ""; str "a"; str ""]. Proof. reflexivity. Qed.
Example split_ex3 : split_ws_star (str "abc") = [str "a"; str "b"; str "c"]. Proof. reflexivity. Qed.
Example stringKeyToArr_ex : stringKeyToArr (Some (str " 12 34 ")) = [str "1"; str "2"; str "3"; str "4"].
Proof. reflexivity. Qed.
Example stringKeyToArr_empty : stringKeyToArr (Some (str "  ")) = [].
Proof. reflexivity. Qed.
Example validate_pattern_ok :
  validateUnlockCapabilities (Some {| unlockKey := Some (str "123"); unlockType := Some PATTERN_UNLOCK |})
  = inr (Some {| unlockKey := Some (str "123"); unlockType := Some PATTERN_UNLOCK |}).
Proof. reflexivity. Qed.
Example validate_pattern_repeat :
  validateUnlockCapabilities (Some {| unlockKey := Some (str "112"); unlockType := Some PATTERN_UNLOCK |})
  = inl (Error (str "Unlock key value '112' must define a valid pattern where repeats are not allowed")).
Proof. reflexivity. Qed.
Example validate_pin_letters :
  validateUnlockCapabilities (Some {| unlockKey := Some (str "12a3"); unlockType := Some PIN_UNLOCK |})
  = inl (Error (str "Unlock key value '12a3' must only consist of digits")).
Proof. reflexivity. Qed.

(** ** Numbers *)

(** ** Rounding to the nearest double *)

Lemma round64_comp (p q : Q) : (p == q)%Q -> round64 p = round64 q.
Proof. intros E. unfold round64. now rewrite (Qred_complete _ _ E). Qed.

Lemma Qpow2_pos (e : Z) : (0 < 2 ^ e)%Q.
Proof. apply Qpower_0_lt. reflexivity. Qed.

Lemma Qpow2_plus (a b : Z) : (2 ^ (a + b) == 2 ^ a * 2 ^ b)%Q.
Proof. apply Qpower_plus. discriminate. Qed.

Lemma Qpow2_le (a b : Z) : a <= b -> (2 ^ a <= 2 ^ b)%Q.
Proof. intros L. apply Qpower_le_compat_l; [exact L | discriminate]. Qed.

Lemma Qpow2_lt_inv (a b : Z) : (2 ^ a < 2 ^ b)%Q -> a < b.
Proof.
  intros L. destruct (Z_lt_le_dec a b) as [H | H]; [exact H | exfalso].
  apply Qpow2_le in H. lra.
Qed.

Lemma Qpow2_Z (n : Z) : 0 <= n -> (2 ^ n == inject_Z (2 ^ n))%Q.
Proof. intros Hn. symmetry. apply (Zpower_Qpower 2 n Hn). Qed.

(** [Qlog2] does not overshoot. *)
Lemma Qlog2_le (a : Q) : (0 < a)%Q -> (2 ^ Qlog2 a <= a)%Q.
Proof.
  intros Ha. unfold Qlog2.
  set (e := Z.log2 (Qnum a) - Z.log2 (Zpos (Qden a))).
  destruct (Qle_bool (2 ^ e) a) eqn:E; [now apply Qle_bool_iff|].
  destruct a as [n d]. cbn [Qnum Qden] in *.
  assert (Hn : 0 < n) by (unfold Qlt in Ha; simpl in Ha; lia).
  destruct (Z.log2_spec n Hn) as [Hn1 _].
  destruct (Z.log2_spec (Zpos d) (Pos2Z.is_pos d)) as [_ Hd2].
  set (ln := Z.log2 n) in *. set (ld := Z.log2 (Zpos d)) in *.
  assert (Hln : 0 <= ln) by apply Z.log2_nonneg.
  assert (Hld : 0 <= ld) by apply Z.log2_nonneg.
  assert (E1 : (2 ^ ln == 2 ^ (e - 1) * 2 ^ (Z.succ ld))%Q).
  { rewrite <- Qpow2_plus. replace (e - 1 + Z.succ ld) with ln by (unfold e; lia).
    reflexivity. }
  rewrite (Qmake_Qdiv n d). apply Qle_shift_div_l; [reflexivity|].
  apply Qle_trans with (2 ^ ln)%Q.
  - rewrite E1. apply Qmult_le_l; [apply Qpow2_pos|].
    rewrite (Qpow2_Z (Z.succ ld)) by lia. rewrite <- Zle_Qle. lia.
  - rewrite (Qpow2_Z ln Hln). rewrite <- Zle_Qle. exact Hn1.
Qed.

Lemma Qround_even_Z (a : Q) (z : Z) : (a == inject_Z z)%Q -> Qround_even a = z.
Proof.
  intros E. unfold Qround_even. rewrite (Qfloor_comp _ _ E), Qfloor_Z.
  assert (L : (a - inject_Z z ?= 1 # 2)%Q = Lt) by (apply (proj1 (Qlt_alt _ _)); rewrite E; lra).
  now rewrite L.
Qed.

Lemma Qred_zero (q : Q) : Qnum (Qred q) = 0 -> Qred q = 0%Q.
Proof.
  intros E. rewrite <- (Qred_complete _ _ (Qred_correct q)).
  apply (Qred_complete (Qred q) 0). unfold Qeq. rewrite E. reflexivity.
Qed.

(** A value with a significand below [2 ^ 53] on a grid of the normal or
    subnormal range is a double: rounding leaves it as it is. *)
Lemma round64_exact (m j : Z) :
  0 <= j <= 1074 -> Z.abs m < 2 ^ 53 ->
  round64 (inject_Z m / 2 ^ j) = Num (Qred (inject_Z m / 2 ^ j)).
Proof.
  intros Hj Hm. unfold round64.
  set (q := Qred (inject_Z m / 2 ^ j)).
  assert (Eq : (q == inject_Z m / 2 ^ j)%Q) by apply Qred_correct.
  assert (Hp : (0 < 2 ^ j)%Q) by apply Qpow2_pos.
  destruct (Qnum q =? 0) eqn:E0.
  { apply Z.eqb_eq in E0. unfold q. now rewrite Qred_zero. }
  apply Z.eqb_neq in E0.
  assert (Hq0 : ~ (q == 0)%Q) by (unfold Qeq; simpl; lia).
  assert (Hm0 : m <> 0).
  { intros ->. apply Hq0. rewrite Eq. unfold Qdiv. ring. }
  assert (Ea : (Qabs q == inject_Z (Z.abs m) / 2 ^ j)%Q).
  { rewrite Eq. unfold Qdiv. rewrite Qabs_Qmult, Qabs_Qinv.
    rewrite (Qabs_pos (2 ^ j)) by lra.
    apply Qmult_comp; [| reflexivity].
    unfold Qabs, inject_Z. reflexivity. }
  assert (Ha : (0 < Qabs q)%Q).
  { rewrite Ea. apply Qlt_shift_div_l; [exact Hp|]. rewrite Qmult_0_l.
    rewrite <- (Zlt_Qlt 0). lia. }
  assert (Hlog : Qlog2 (Qabs q) - 52 <= - j).
  { pose proof (Qlog2_le _ Ha) as Hl.
    assert (L : (2 ^ Qlog2 (Qabs q) < 2 ^ (53 - j))%Q).
    { apply Qle_lt_trans with (1 := Hl). rewrite Ea.
      apply Qlt_shift_div_r; [exact Hp|]. rewrite <- Qpow2_plus.
      replace (53 - j + j) with 53 by lia. rewrite (Qpow2_Z 53) by lia.
      rewrite <- Zlt_Qlt. exact Hm. }
    apply Qpow2_lt_inv in L. lia. }
  set (e := Z.max (Qlog2 (Qabs q) - 52) (-1074)).
  assert (He : e <= - j) by (unfold e; lia).
  assert (Ei : (Qabs q / 2 ^ e == inject_Z (Z.abs m * 2 ^ (- j - e)))%Q).
  { rewrite Ea, inject_Z_mult. rewrite <- (Qpow2_Z (- j - e)) by lia.
    replace (- j - e) with (- j + - e) by lia. rewrite Qpow2_plus.
    rewrite !Qpower_opp. unfold Qdiv. ring. }
  rewrite (Qround_even_Z _ _ Ei).
  assert (Hpos : 0 < Z.abs m * 2 ^ (- j - e)).
  { apply Z.mul_pos_pos; [lia|]. apply Z.pow_pos_nonneg; lia. }
  destruct (Z.abs m * 2 ^ (- j - e) =? 0) eqn:E1; [apply Z.eqb_eq in E1; lia|].
  assert (Er : (inject_Z (Z.abs m * 2 ^ (- j - e)) * 2 ^ e == Qabs q)%Q).
  { rewrite <- Ei. field. apply Qnot_eq_sym, Qlt_not_eq, Qpow2_pos. }
  assert (Hlt : (Qabs q < 2 ^ 1024)%Q).
  { rewrite Ea. apply Qlt_shift_div_r; [exact Hp|].
    apply Qlt_le_trans with (2 ^ 53)%Q.
    - rewrite (Qpow2_Z 53) by lia. rewrite <- Zlt_Qlt. exact Hm.
    - rewrite <- Qpow2_plus. apply Qpow2_le. lia. }
  destruct (Qle_bool (2 ^ 1024) _) eqn:E2.
  { apply Qle_bool_iff in E2. rewrite Er in E2. lra. }
  f_equal.
  transitivity (Qred q); [apply Qred_complete | unfold q; apply Qred_complete, Qred_correct].
  destruct (Qnum q <? 0) eqn:E3.
  - apply Z.ltb_lt in E3. rewrite Er. rewrite Qabs_neg; [ring|].
    unfold Qle. simpl. lia.
  - apply Z.ltb_ge in E3. rewrite Er. apply Qabs_pos. unfold Qle. simpl. lia.
Qed.

(** The arithmetic agrees with the binary64 arithmetic of the kernel: on
    quotients and sums that are rounded, on the steps that put digit 5 at
    [y = 683] on a screen 719 pixels wide, beyond [2 ^ 53], at the overflow
    and the underflow thresholds, on the zeros and the infinities. *)
Section KernelDoubles.
Import PrimFloat.
Local Open Scope float_scope.

Example div_719_3 : of_float (719 / 3) = (num_of_Z 719 / num_of_Z 3)%num.
Proof. vm_compute. reflexivity. Qed.

Example div_1_3 : of_float (1 / 3) = (num_of_Z 1 / num_of_Z 3)%num.
Proof. vm_compute. reflexivity. Qed.

Example centre_y_719 :
  of_float (323 + (2 * (719 / 3) - 719 / 3 / 2))
  = (let c := num_of_Z 719 / num_of_Z 3 in
     num_of_Z 323 + (num_of_Z 2 * c - c / num_of_Z 2))%num
  /\ of_float (323 + (2 * (719 / 3) - 719 / 3 / 2)) = Num (1365 # 2).
Proof. split; vm_compute; reflexivity. Qed.

Example centre_x_719 :
  of_float (33 + 2 * (719 / 3) - 719 / 3 / 2)
  = (let c := num_of_Z 719 / num_of_Z 3 in
     num_of_Z 33 + num_of_Z 2 * c - c / num_of_Z 2)%num.
Proof. vm_compute. reflexivity. Qed.

Example sum_tenths :
  of_float (1 / 10 + 2 / 10)
  = (num_of_Z 1 / num_of_Z 10 + num_of_Z 2 / num_of_Z 10)%num.
Proof. vm_compute. reflexivity. Qed.

Example beyond_2_53 :
  of_float (9007199254740992 + 1) = (num_of_Z 9007199254740992 + num_of_Z 1)%num
  /\ of_float (9007199254740992 + 1) = num_of_Z 9007199254740992
  /\ of_float (0x1p54 + 3) = (num_of_Z (2 ^ 54) + num_of_Z 3)%num
  /\ of_float (0x1p54 + 3) = num_of_Z (2 ^ 54 + 4).
Proof. repeat split; vm_compute; reflexivity. Qed.

Example overflow_threshold :
  of_float (0x1.fffffffffffffp1023 + 0x1p969)
  = (of_float 0x1.fffffffffffffp1023 + of_float 0x1p969)%num
  /\ of_float (0x1.fffffffffffffp1023 + 0x1p970)
     = (of_float 0x1.fffffffffffffp1023 + of_float 0x1p970)%num
  /\ (of_float 0x1.fffffffffffffp1023 + of_float 0x1p970)%num = Inf false
  /\ of_float (0x1p1023 * -2) = (of_float 0x1p1023 * num_of_Z (-2))%num.
Proof. repeat split; vm_compute; reflexivity. Qed.

Example underflow_threshold :
  of_float (0x1p-1074 / 2) = (of_float 0x1p-1074 / num_of_Z 2)%num
  /\ of_float (0x3p-1074 / 2) = (of_float 0x3p-1074 / num_of_Z 2)%num
  /\ of_float (0x1p-1074 / -2) = (of_float 0x1p-1074 / num_of_Z (-2))%num
  /\ (of_float 0x1p-1074 / num_of_Z (-2))%num = NegZero
  /\ of_float (0x1.0000000000001p-1022 / 2)
     = (of_float 0x1.0000000000001p-1022 / num_of_Z 2)%num.
Proof. repeat split; vm_compute; reflexivity. Qed.

Example zeros_and_infinities :
  of_float (-1 * 0) = (num_of_Z (-1) * num_of_Z 0)%num
  /\ of_float (1 / (-1 * 0)) = (num_of_Z 1 / (num_of_Z (-1) * num_of_Z 0))%num
  /\ of_float (0 / 0) = (num_of_Z 0 / num_of_Z 0)%num
  /\ of_float (1 / 0 - 1 / 0) = (num_of_Z 1 / num_of_Z 0 - num_of_Z 1 / num_of_Z 0)%num
  /\ of_float (-1 * 0 + 0) = (num_of_Z (-1) * num_of_Z 0 + num_of_Z 0)%num
  /\ of_float (5 - 5) = (num_of_Z 5 - num_of_Z 5)%num.
Proof. repeat split; vm_compute; reflexivity. Qed.
(** And on 300 pairs of pseudo-random doubles. *)
Example operations_agree_on_samples :
  let pairs := sample_pairs (sample_seeds 1200 2024) in
  length pairs = 300%nat /\ forallb operations_agree pairs = true.
Proof. split; vm_compute; reflexivity. Qed.
End KernelDoubles.



(** On the grid, below [2 ^ 32], nothing is rounded. *)
Lemma round64_grid (q : Q) :
  on_grid q -> (Qabs q < grid_bound)%Q -> round64 q = Num (Qred q).
Proof.
  unfold grid_bound. intros [m Em] Hq.
  rewrite (round64_comp _ _ Em), (Qred_complete _ _ Em).
  apply round64_exact; [lia|].
  assert (Hp : (0 < 2 ^ 21)%Q) by apply Qpow2_pos.
  assert (E : (Qabs q == inject_Z (Z.abs m) / 2 ^ 21)%Q).
  { rewrite Em. unfold Qdiv. rewrite Qabs_Qmult, Qabs_Qinv, (Qabs_pos (2 ^ 21)) by lra.
    reflexivity. }
  rewrite E in Hq.
  destruct (Z_lt_le_dec (Z.abs m) (2 ^ 53)) as [L | L]; [exact L | exfalso].
  apply (Qlt_not_le _ _ Hq). apply Qle_shift_div_l; [exact Hp|].
  rewrite <- Qpow2_plus. change (32 + 21) with 53.
  rewrite (Qpow2_Z 53) by lia. now rewrite <- Zle_Qle.
Qed.

(** ** Finite numbers and their values *)

Lemma is_zero_Num (p : Q) : is_zero (Num p) = true <-> (p == 0)%Q.
Proof. cbn [is_zero]. rewrite Z.eqb_eq. unfold Qeq. simpl. lia. Qed.

Lemma is_zero_Num_false (p : Q) : is_zero (Num p) = false <-> ~ (p == 0)%Q.
Proof. cbn [is_zero]. rewrite Z.eqb_neq. unfold Qeq. simpl. lia. Qed.

Lemma Qnum_neg (p : Q) : (Qnum p <? 0) = true <-> (p < 0)%Q.
Proof. rewrite Z.ltb_lt. unfold Qlt. simpl. lia. Qed.

Lemma Qnum_neg_false (p : Q) : (Qnum p <? 0) = false <-> (0 <= p)%Q.
Proof. rewrite Z.ltb_ge. unfold Qle. simpl. lia. Qed.

Lemma finite_cases (a : number) : finite a -> a = NegZero \/ exists p, a = Num p.
Proof. destruct a; simpl; try contradiction; eauto. Qed.

Lemma denotes_Num (p : Q) : denotes (Num p) p.
Proof. split; [exact I | reflexivity]. Qed.

Lemma denotes_of_Z (z : Z) : denotes (num_of_Z z) (inject_Z z).
Proof. apply denotes_Num. Qed.

Lemma denotes_zero (s : bool) : denotes (zero s) 0.
Proof. destruct s; split; try exact I; reflexivity. Qed.

Lemma denotes_comp (a : number) (p q : Q) : denotes a p -> (p == q)%Q -> denotes a q.
Proof. intros [F E] Hpq. split; [exact F | now rewrite E]. Qed.


Lemma near_denotes (a : number) (q : Q) : near a q 0 -> denotes a q.
Proof.
  intros [F E]. split; [exact F|]. apply Qabs_Qle_condition in E. lra.
Qed.



Lemma denotes_equiv (a b : number) (q : Q) : denotes a q -> denotes b q -> num_equiv a b.
Proof.
  intros [Fa Ea] [Fb Eb].
  destruct a, b; simpl in *; try contradiction; try exact I; lra.
Qed.

Lemma round64_denotes (q : Q) :
  on_grid q -> (Qabs q < grid_bound)%Q -> denotes (round64 q) q.
Proof.
  intros G B. rewrite (round64_grid q G B). split; [exact I | apply Qred_correct].
Qed.

(** *** The operations on finite numbers *)


Lemma num_neg_denotes (a : number) (x : Q) : denotes a x -> denotes (num_neg a) (- x).
Proof.
  intros [F E]. destruct a as [| |  | p]; simpl in *; try contradiction.
  - split; [exact I|]. simpl. lra.
  - destruct (Qnum p =? 0) eqn:E0; split; try exact I; simpl.
    + apply Z.eqb_eq in E0. assert (p == 0)%Q by (unfold Qeq; simpl; lia). lra.
    + lra.
Qed.




Lemma num_add_exact (a b : number) (x y : Q) :
  denotes a x -> denotes b y -> on_grid (x + y) -> (Qabs (x + y) < grid_bound)%Q ->
  denotes (a + b) (x + y).
Proof.
  intros [Fa Ea] [Fb Eb] G B.
  destruct a as [| | | p], b as [| | | q]; simpl in Fa, Fb; try contradiction;
    cbn [num_add finite_value] in *.
  - split; [exact I|]. simpl. lra.
  - split; [exact I|]. simpl. lra.
  - split; [exact I|]. simpl. lra.
  - assert (E : (p + q == x + y)%Q) by (now rewrite Ea, Eb).
    rewrite (round64_comp _ _ E). now apply round64_denotes.
Qed.

Lemma num_sub_exact (a b : number) (x y : Q) :
  denotes a x -> denotes b y -> on_grid (x - y) -> (Qabs (x - y) < grid_bound)%Q ->
  denotes (a - b) (x - y).
Proof.
  intros Ha Hb G B. apply (num_add_exact a (num_neg b) x (- y)); try assumption.
  now apply num_neg_denotes.
Qed.


Lemma num_mul_exact (a b : number) (x y : Q) :
  denotes a x -> denotes b y -> on_grid (x * y) -> (Qabs (x * y) < grid_bound)%Q ->
  denotes (a * b) (x * y).
Proof.
  intros [Fa Ea] [Fb Eb] G B.
  assert (Hz : forall s, (x == 0)%Q \/ (y == 0)%Q -> denotes (zero s) (x * y)).
  { intros s Hxy. apply denotes_comp with 0%Q; [apply denotes_zero|].
    destruct Hxy as [-> | ->]; ring. }
  destruct a as [| | | p], b as [| | | q]; simpl in Fa, Fb; try contradiction;
    cbn [finite_value] in *; unfold num_mul.
  - apply Hz. left. lra.
  - apply Hz. left. lra.
  - apply Hz. right. lra.
  - destruct (is_zero (Num p) || is_zero (Num q)) eqn:E0.
    + apply orb_true_iff in E0. rewrite !is_zero_Num in E0.
      apply Hz. destruct E0; [left | right]; lra.
    + assert (E : (p * q == x * y)%Q) by (now rewrite Ea, Eb).
      rewrite (round64_comp _ _ E). now apply round64_denotes.
Qed.

(** Division by a number that is not zero. *)
Lemma num_div_cases (a b : number) (x y : Q) :
  denotes a x -> denotes b y -> ~ (y == 0)%Q ->
  ((x == 0)%Q /\ exists s, (a / b)%num = zero s)
  \/ (a / b)%num = round64 (x / y).
Proof.
  intros [Fa Ea] [Fb Eb] Hy.
  destruct b as [| | | q]; simpl in Fb; try contradiction; cbn [finite_value] in *;
    [exfalso; apply Hy; lra|].
  assert (Hq : is_zero (Num q) = false) by (apply is_zero_Num_false; now rewrite Eb).
  destruct a as [| | | p]; simpl in Fa; try contradiction; cbn [finite_value] in *;
    unfold num_div; rewrite Hq.
  - left. split; [lra|]. cbn [is_zero]. eauto.
  - destruct (is_zero (Num p)) eqn:Hp.
    + left. apply is_zero_Num in Hp. split; [lra | eauto].
    + right. apply round64_comp. now rewrite Ea, Eb.
Qed.


Lemma num_div_exact (a b : number) (x y : Q) :
  denotes a x -> denotes b y -> ~ (y == 0)%Q ->
  on_grid (x / y) -> (Qabs (x / y) < grid_bound)%Q ->
  denotes (a / b) (x / y).
Proof.
  intros Ha Hb Hy G B.
  destruct (num_div_cases a b x y Ha Hb Hy) as [[Hx [s ->]] | ->].
  - apply denotes_comp with 0%Q; [apply denotes_zero|]. rewrite Hx. unfold Qdiv. ring.
  - now apply round64_denotes.
Qed.

(** *** Comparisons of finite numbers *)

Lemma num_compare_finite (a b : number) :
  finite a -> finite b -> num_compare a b = Some (finite_value a ?= finite_value b)%Q.
Proof. destruct a, b; simpl; try contradiction; reflexivity. Qed.

Lemma num_gt_denotes (a b : number) (x y : Q) :
  denotes a x -> denotes b y -> num_gt a b = true <-> (y < x)%Q.
Proof.
  intros [Fa Ea] [Fb Eb]. unfold num_gt. rewrite (num_compare_finite a b Fa Fb).
  rewrite <- Ea, <- Eb.
  destruct (Qcompare_spec (finite_value a) (finite_value b)); split; intros;
    try discriminate; try reflexivity; lra.
Qed.

Lemma num_lt_denotes (a b : number) (x y : Q) :
  denotes a x -> denotes b y -> num_lt a b = true <-> (x < y)%Q.
Proof.
  intros [Fa Ea] [Fb Eb]. unfold num_lt. rewrite (num_compare_finite a b Fa Fb).
  rewrite <- Ea, <- Eb.
  destruct (Qcompare_spec (finite_value a) (finite_value b)); split; intros;
    try discriminate; try reflexivity; lra.
Qed.

Lemma num_seq_denotes (a b : number) (x y : Q) :
  denotes a x -> denotes b y -> num_seq a b = true <-> (x == y)%Q.
Proof.
  intros [Fa Ea] [Fb Eb]. unfold num_seq. rewrite (num_compare_finite a b Fa Fb).
  rewrite <- Ea, <- Eb.
  destruct (Qcompare_spec (finite_value a) (finite_value b)); split; intros;
    try discriminate; try reflexivity; lra.
Qed.

Lemma Math_abs_denotes (a : number) (x : Q) : denotes a x -> denotes (Math_abs a) (Qabs x).
Proof.
  intros [F E]. destruct a; simpl in *; try contradiction; split; try exact I; simpl.
  - now rewrite <- E.
  - now rewrite E.
Qed.

Lemma num_seq_refl (q : Q) : num_seq (Num q) (Num q) = true.
Proof.
  apply (num_seq_denotes _ _ q q); [apply denotes_Num | apply denotes_Num | reflexivity].
Qed.

Lemma num_seq_of_Z (a b : Z) : num_seq (num_of_Z a) (num_of_Z b) = true <-> a = b.
Proof.
  rewrite (num_seq_denotes _ _ (inject_Z a) (inject_Z b)) by apply denotes_of_Z.
  apply inject_Z_injective.
Qed.

Lemma num_seq_NaN_l a : num_seq NaN a = false.
Proof. reflexivity. Qed.

(** What is equal to something is equal to itself: it is not [NaN]. *)
Lemma num_seq_self (a b : number) : num_seq a b = true -> num_seq b b = true.
Proof.
  destruct b as [| s | | q]; intros H.
  - destruct a; discriminate H.
  - destruct s; reflexivity.
  - reflexivity.
  - apply num_seq_refl.
Qed.

(** *** The grid *)

Lemma on_grid_comp (p q : Q) : on_grid p -> (p == q)%Q -> on_grid q.
Proof. intros [m E] Hpq. exists m. now rewrite <- Hpq. Qed.

Lemma on_grid_Z (z : Z) : on_grid (inject_Z z).
Proof.
  exists (z * 2 ^ 21). rewrite inject_Z_mult, <- (Qpow2_Z 21) by lia.
  field; repeat split; apply Qnot_eq_sym, Qlt_not_eq, Qpow2_pos.
Qed.

Lemma on_grid_plus (p q : Q) : on_grid p -> on_grid q -> on_grid (p + q).
Proof.
  intros [m Em] [n En]. exists (m + n). rewrite Em, En, inject_Z_plus.
  field; repeat split; apply Qnot_eq_sym, Qlt_not_eq, Qpow2_pos.
Qed.

Lemma on_grid_opp (p : Q) : on_grid p -> on_grid (- p).
Proof.
  intros [m Em]. exists (- m). rewrite Em, inject_Z_opp.
  field; repeat split; apply Qnot_eq_sym, Qlt_not_eq, Qpow2_pos.
Qed.

Lemma on_grid_minus (p q : Q) : on_grid p -> on_grid q -> on_grid (p - q).
Proof. intros Hp Hq. apply on_grid_plus; [exact Hp | now apply on_grid_opp]. Qed.

Lemma on_grid_mult_Z (k : Z) (p : Q) : on_grid p -> on_grid (inject_Z k * p).
Proof.
  intros [m Em]. exists (k * m). rewrite Em, inject_Z_mult.
  field; repeat split; apply Qnot_eq_sym, Qlt_not_eq, Qpow2_pos.
Qed.

(** Half of a multiple of [2 ^ -20]. *)
Lemma on_grid_half (c : Q) (m : Z) : (c == inject_Z m / 2 ^ 20)%Q -> on_grid (c / 2).
Proof.
  intros E. exists m. rewrite E. change 21 with (20 + 1). rewrite Qpow2_plus.
  field; repeat split; apply Qnot_eq_sym, Qlt_not_eq, Qpow2_pos.
Qed.

Lemma on_grid_whole (c : Q) (m : Z) : (c == inject_Z m / 2 ^ 20)%Q -> on_grid c.
Proof.
  intros E. exists (2 * m). rewrite E, inject_Z_mult. change 21 with (20 + 1).
  rewrite Qpow2_plus. change (inject_Z 2) with 2%Q.
  field; repeat split; apply Qnot_eq_sym, Qlt_not_eq, Qpow2_pos.
Qed.

(** *** [Math.round] *)

Lemma Math_round_denotes (a : number) (v : Q) :
  denotes a v -> denotes (Math_round a) (inject_Z (spec_round v)).
Proof.
  intros [F E]. destruct a as [| | | p]; simpl in F; try contradiction;
    cbn [finite_value] in E.
  - split; [exact I|]. cbn [Math_round finite_value].
    unfold spec_round. rewrite <- (Qfloor_comp _ _ (Qplus_comp _ _ E _ _ (Qeq_refl _))).
    reflexivity.
  - cbn [Math_round]. unfold spec_round.
    rewrite <- (Qfloor_comp _ _ (Qplus_comp _ _ E _ _ (Qeq_refl _))).
    destruct ((Qfloor (p + (1 # 2)) =? 0) && (Qnum p <? 0)) eqn:E0.
    + apply andb_true_iff in E0 as [E0 _]. apply Z.eqb_eq in E0. rewrite E0.
      split; [exact I | reflexivity].
    + apply denotes_Num.
Qed.


(** A positive value is rounded to the integer itself, not to a zero. *)
Lemma Math_round_positive (a : number) (v : Q) :
  denotes a v -> (0 < v)%Q -> Math_round a = num_of_Z (spec_round v).
Proof.
  intros [F E] Hv. destruct a as [| | | p]; simpl in F; try contradiction;
    cbn [finite_value] in E; [exfalso; lra|].
  cbn [Math_round]. unfold spec_round, num_of_Z.
  rewrite <- (Qfloor_comp _ _ (Qplus_comp _ _ E _ _ (Qeq_refl _))).
  assert (Hp : (Qnum p <? 0) = false) by (apply Qnum_neg_false; lra).
  now rewrite Hp, andb_false_r.
Qed.



(** ** The digits of the grid *)

Ltac digit_cases d Hd :=
  let E := fresh "E" in
  assert (E : d = 1 \/ d = 2 \/ d = 3 \/ d = 4 \/ d = 5 \/ d = 6 \/ d = 7
              \/ d = 8 \/ d = 9) by lia;
  clear Hd;
  repeat (destruct E as [E | E]; [subst d |]); [.. | subst d].

Lemma patternColumn_digit (d : Z) :
  1 <= d <= 9 -> patternColumn (num_of_Z d) = num_of_Z (spec_column d).
Proof. intros Hd. digit_cases d Hd; vm_compute; reflexivity. Qed.

Lemma patternRow_digit (d : Z) :
  1 <= d <= 9 -> patternRow (num_of_Z d) = num_of_Z (spec_row d).
Proof. intros Hd. digit_cases d Hd; vm_compute; reflexivity. Qed.

Lemma spec_column_range (d : Z) : 1 <= spec_column d <= 3.
Proof. unfold spec_column. pose proof (Z.mod_pos_bound (d - 1) 3). lia. Qed.

Lemma spec_row_digit (d : Z) : 1 <= d <= 9 -> spec_row d = (d + 2) / 3.
Proof. intros Hd. digit_cases d Hd; reflexivity. Qed.

Lemma spec_row_range (d : Z) : is_digit d -> 1 <= spec_row d <= 3.
Proof. intros Hd. unfold is_digit in Hd. digit_cases d Hd; vm_compute; split; discriminate. Qed.

(** The position of a digit, with its column and row. *)
Lemma getPatternKeyPosition_digit (d : Z) (initPos : Position) (piece : number) :
  1 <= d <= 9 ->
  getPatternKeyPosition (num_of_Z d) initPos piece
  = {| x := Math_round (initPos.(x) + num_of_Z (spec_column d) * piece
                        - piece / num_of_Z 2);
       y := Math_round (initPos.(y) + (num_of_Z (spec_row d) * piece
                                       - piece / num_of_Z 2)) |}.
Proof.
  intros Hd. unfold getPatternKeyPosition.
  now rewrite (patternColumn_digit d Hd), (patternRow_digit d Hd).
Qed.

(** ** The coordinate of a column or a row

    [o] is the coordinate of the origin, [k] the column or the row and [c]
    the cell size.  The source adds the three terms in one order for [x] and
    in another for [y]. *)
Section Coordinate.
Variables (o k : Z) (c : Q).
Hypothesis Ho : Z.abs o <= 2 ^ 30.
Hypothesis Hk : 1 <= k <= 3.
Hypothesis Hc : (0 < c <= inject_Z (2 ^ 29))%Q.

Let v : Q := (inject_Z o + inject_Z k * c - c / 2)%Q.

Lemma coordinate_bounds :
  (- (1073741824) <= inject_Z o <= 1073741824)%Q
  /\ (0 < inject_Z k * c <= 1610612736)%Q
  /\ (0 < c / 2 <= 268435456)%Q.
Proof.
  destruct Hc as [Hc1 Hc2]. change (inject_Z (2 ^ 29)) with 536870912%Q in Hc2.
  split; [|split].
  - change 1073741824%Q with (inject_Z (2 ^ 30)).
    rewrite <- inject_Z_opp, <- !Zle_Qle. lia.
  - assert (E : k = 1 \/ k = 2 \/ k = 3) by lia.
    destruct E as [-> | [-> | ->]];
      [change (inject_Z 1) with 1%Q | change (inject_Z 2) with 2%Q
       | change (inject_Z 3) with 3%Q]; lra.
  - unfold Qdiv. change (/ 2)%Q with (1 # 2)%Q. lra.
Qed.



(** With a cell size of at most 20 binary places nothing is rounded. *)
Hypothesis Hgrid : exists m : Z, (c == inject_Z m / 2 ^ 20)%Q.

Lemma coordinate_x_exact :
  denotes (num_of_Z o + num_of_Z k * Num c - Num c / num_of_Z 2) v.
Proof.
  destruct coordinate_bounds as (Bo & Bk & Bh). destruct Hgrid as [m Em].
  assert (Hg : (grid_bound == 4294967296)%Q) by reflexivity.
  assert (G1 : on_grid (inject_Z k * c)) by (apply on_grid_mult_Z, (on_grid_whole c m Em)).
  assert (G2 : on_grid (c / 2)) by apply (on_grid_half c m Em).
  assert (T1 : denotes (num_of_Z k * Num c) (inject_Z k * c)).
  { apply num_mul_exact; [apply denotes_of_Z | apply denotes_Num | exact G1 |].
    rewrite Hg. apply Qabs_case; intros; lra. }
  assert (T2 : denotes (num_of_Z o + num_of_Z k * Num c) (inject_Z o + inject_Z k * c)).
  { apply num_add_exact; [apply denotes_of_Z | exact T1 | |].
    - apply on_grid_plus; [apply on_grid_Z | exact G1].
    - rewrite Hg. apply Qabs_case; intros; lra. }
  assert (T3 : denotes (Num c / num_of_Z 2) (c / 2)).
  { apply (num_div_exact (Num c) (num_of_Z 2) c 2);
      [apply denotes_Num | apply denotes_of_Z | discriminate | exact G2 |].
    rewrite Hg. apply Qabs_case; intros; lra. }
  apply num_sub_exact; [exact T2 | exact T3 | |].
  - apply on_grid_minus; [apply on_grid_plus; [apply on_grid_Z | exact G1] | exact G2].
  - rewrite Hg. apply Qabs_case; intros; lra.
Qed.

Lemma coordinate_y_exact :
  denotes (num_of_Z o + (num_of_Z k * Num c - Num c / num_of_Z 2)) v.
Proof.
  destruct coordinate_bounds as (Bo & Bk & Bh). destruct Hgrid as [m Em].
  assert (Hg : (grid_bound == 4294967296)%Q) by reflexivity.
  assert (G1 : on_grid (inject_Z k * c)) by (apply on_grid_mult_Z, (on_grid_whole c m Em)).
  assert (G2 : on_grid (c / 2)) by apply (on_grid_half c m Em).
  assert (T1 : denotes (num_of_Z k * Num c) (inject_Z k * c)).
  { apply num_mul_exact; [apply denotes_of_Z | apply denotes_Num | exact G1 |].
    rewrite Hg. apply Qabs_case; intros; lra. }
  assert (T3 : denotes (Num c / num_of_Z 2) (c / 2)).
  { apply (num_div_exact (Num c) (num_of_Z 2) c 2);
      [apply denotes_Num | apply denotes_of_Z | discriminate | exact G2 |].
    rewrite Hg. apply Qabs_case; intros; lra. }
  assert (T2 : denotes (num_of_Z k * Num c - Num c / num_of_Z 2) (inject_Z k * c - c / 2)).
  { apply num_sub_exact; [exact T1 | exact T3 | |].
    - apply on_grid_minus; [exact G1 | exact G2].
    - rewrite Hg. apply Qabs_case; intros; lra. }
  apply denotes_comp with (inject_Z o + (inject_Z k * c - c / 2))%Q; [|unfold v; ring].
  apply num_add_exact; [apply denotes_of_Z | exact T2 | |].
  - apply on_grid_plus; [apply on_grid_Z | apply on_grid_minus; [exact G1 | exact G2]].
  - rewrite Hg. apply Qabs_case; intros; lra.
Qed.
End Coordinate.


Lemma getPatternKeyPosition_exact (d ox oy : Z) (c : Q) :
  1 <= d <= 9 -> Z.abs ox <= 2 ^ 30 -> Z.abs oy <= 2 ^ 30 ->
  (0 < c <= inject_Z (2 ^ 29))%Q -> (exists m : Z, (c == inject_Z m / 2 ^ 20)%Q) ->
  let p := getPatternKeyPosition (num_of_Z d) (origin ox oy) (Num c) in
  denotes p.(x) (inject_Z (spec_round (inject_Z ox + inject_Z (spec_column d) * c - c / 2)))
  /\ denotes p.(y) (inject_Z (spec_round (inject_Z oy + inject_Z (spec_row d) * c - c / 2))).
Proof.
  intros Hd Hox Hoy Hc Hm p. unfold p. rewrite (getPatternKeyPosition_digit d _ _ Hd).
  cbn [origin x y]. split; apply Math_round_denotes.
  - apply (coordinate_x_exact ox (spec_column d) c Hox (spec_column_range d) Hc Hm).
  - apply (coordinate_y_exact oy (spec_row d) c Hoy (spec_row_range d Hd) Hc Hm).
Qed.




(** C3: the values of the specification's table do not hold; with the origin
    at the corner of the grid the centres are half a cell inside it:
    [keyPosition(5, {0,0}, 30) = {45,45}], [keyPosition(1, {0,0}, 30) = {15,15}]
    and, from the origin [{100,100}] with cell size 30, digit 1 is at
    [{115,115}], digit 9 at [{175,175}] and digit 5 at [{145,145}]. *)
Theorem C3_key_position_values :
  getPatternKeyPosition (num_of_Z 5) (origin 0 0) (num_of_Z 30)
  = {| x := num_of_Z 45; y := num_of_Z 45 |}
  /\ getPatternKeyPosition (num_of_Z 1) (origin 0 0) (num_of_Z 30)
     = {| x := num_of_Z 15; y := num_of_Z 15 |}
  /\ getPatternKeyPosition (num_of_Z 1) (origin 100 100) (num_of_Z 30)
     = {| x := num_of_Z 115; y := num_of_Z 115 |}
  /\ getPatternKeyPosition (num_of_Z 9) (origin 100 100) (num_of_Z 30)
     = {| x := num_of_Z 175; y := num_of_Z 175 |}
  /\ getPatternKeyPosition (num_of_Z 5) (origin 100 100) (num_of_Z 30)
     = {| x := num_of_Z 145; y := num_of_Z 145 |}.
Proof. repeat split; vm_compute; reflexivity. Qed.

(** The centre digit is not at [{15,15}] for the origin [{0,0}] and cell size 30. *)
Lemma C3_counterexample :
  ~ pos_equiv (getPatternKeyPosition (num_of_Z 5) (origin 0 0) (num_of_Z 30))
              {| x := num_of_Z 15; y := num_of_Z 15 |}.
Proof. intros [Hx _]. vm_compute in Hx. discriminate Hx. Qed.

(** ** Password encoding *)

Lemma replace_each_app cls rep (a b : jsstring) :
  replace_each cls rep (a ++ b) = replace_each cls rep a ++ replace_each cls rep b.
Proof.
  induction a as [|c a IH]; simpl; [reflexivity|].
  rewrite IH. now rewrite app_assoc.
Qed.

Lemma replace_each_all cls rep (run : jsstring) :
  forallb cls run = true ->
  replace_each cls rep run = concat (repeat rep (length run)).
Proof.
  induction run as [|c run IH]; simpl; [reflexivity|].
  intros Hall. apply andb_true_iff in Hall as [Hc Hrun].
  rewrite Hc, IH by exact Hrun. reflexivity.
Qed.

Lemma replace_each_none cls rep (s : jsstring) :
  forallb (fun c => negb (cls c)) s = true -> replace_each cls rep s = s.
Proof.
  induction s as [|c s IH]; simpl; [reflexivity|].
  intros Hall. apply andb_true_iff in Hall as [Hc Hs].
  apply negb_true_iff in Hc. rewrite Hc, IH by exact Hs. reflexivity.
Qed.

(** C4 (as the code has it): [encodePassword] replaces every whitespace
    character by [%s], one by one: a run of [n] whitespace characters anywhere
    in the key becomes [n] copies of [%s], and what is around it is encoded
    on its own; a key without whitespace is returned unchanged. *)
Theorem C4_encodePassword_each_whitespace (s : jsstring) :
  (forall pre run post : jsstring,
      s = pre ++ run ++ post -> forallb is_whitespace run = true ->
      encodePassword (Some s)
      = encodePassword (Some pre) ++ concat (repeat (str "%s") (length run))
        ++ encodePassword (Some post))
  /\ (forallb (fun c => negb (is_whitespace c)) s = true -> encodePassword (Some s) = s).
Proof.
  unfold encodePassword. simpl String_of. split.
  - intros pre run post -> Hrun.
    rewrite !replace_each_app. now rewrite (replace_each_all _ _ run Hrun).
  - apply replace_each_none.
Qed.

Lemma C4_encodePassword_each_whitespace_witness :
  encodePassword (Some (str "a  b")) = str "a%s%sb"
  /\ encodePassword (Some (str "ab")) = str "ab".
Proof.
  split.
  - exact (proj1 (C4_encodePassword_each_whitespace (str "a  b"))
             (str "a") (str "  ") (str "b") eq_refl eq_refl).
  - exact (proj2 (C4_encodePassword_each_whitespace (str "ab")) eq_refl).
Defined.

(** Two consecutive spaces give two [%s], not the single one a replacement of
    whole runs would give. *)
Lemma C4_counterexample :
  encodePassword (Some (str "a  b")) = str "a%s%sb"
  /\ spec_encodeRuns (str "a  b") = str "a%sb"
  /\ encodePassword (Some (str "a  b")) <> spec_encodeRuns (str "a  b").
Proof. repeat split. vm_compute. discriminate. Qed.

(** ** Validation of a password key *)

Lemma validate_password (key : jsstring) :
  validateUnlockCapabilities (Some (passwordCaps key))
  = if re_dots 4 0 key
    then inr (Some (passwordCaps key))
    else inl (Error (str "The minimum allowed length of unlock key value "
                     ++ quoted (Some key) ++ str " is 4 characters")).
Proof.
  unfold validateUnlockCapabilities, passwordCaps. cbn [unlockKey unlockType].
  change (isNonEmptyString (Some PASSWORD_UNLOCK)) with true.
  cbn [negb String_of].
  change (existsb (str_eqb PASSWORD_UNLOCK)
            [PIN_UNLOCK; PIN_UNLOCK_KEY_EVENT; FINGERPRINT_UNLOCK]) with false.
  change (str_eqb PASSWORD_UNLOCK PATTERN_UNLOCK) with false.
  change (str_eqb PASSWORD_UNLOCK PASSWORD_UNLOCK) with true.
  cbv iota. destruct (re_dots 4 0 key); reflexivity.
Qed.

Lemma re_dots_one_line (n run : nat) (s : jsstring) :
  forallb (fun c => negb (is_line_terminator c)) s = true ->
  re_dots n run s = (n <=? run + length s)%nat.
Proof.
  revert run. induction s as [|c s IH]; intros run Hall.
  - simpl. rewrite orb_false_r. now rewrite Nat.add_0_r.
  - simpl in Hall. apply andb_true_iff in Hall as [Hc Hs].
    apply negb_true_iff in Hc. cbn [re_dots]. rewrite Hc, (IH _ Hs).
    cbn [length]. destruct (n <=? run)%nat eqn:E1.
    + apply Nat.leb_le in E1. symmetry. apply Nat.leb_le. lia.
    + cbn [orb]. f_equal. lia.
Qed.

(** A key on one line (no line terminator in it) is accepted exactly when it
    has four characters or more; spaces count. *)
Lemma validate_password_one_line (key : jsstring) :
  forallb (fun c => negb (is_line_terminator c)) key = true ->
  (validateUnlockCapabilities (Some (passwordCaps key)) = inr (Some (passwordCaps key))
   <-> (4 <= length key)%nat).
Proof.
  intros Hline. rewrite validate_password, (re_dots_one_line _ _ _ Hline).
  cbn [Nat.add]. destruct (4 <=? length key)%nat eqn:E.
  - apply Nat.leb_le in E. tauto.
  - apply Nat.leb_gt in E. split; [discriminate | lia].
Qed.

(** C5: a key of five characters with a line feed in the middle is rejected
    with the minimum-length message, although it has more than four
    characters: the test [/.{4,}/] wants four of them on one line. *)
Theorem C5_password_with_line_feed_rejected :
  let key := (str "ab" ++ [10%N] ++ str "cd") in
  (4 <= length key)%nat
  /\ validateUnlockCapabilities (Some (passwordCaps key))
     = inl (Error (str "The minimum allowed length of unlock key value "
                   ++ quoted (Some key) ++ str " is 4 characters")).
Proof. split; [vm_compute; lia | reflexivity]. Qed.

(** ** The gesture of a pattern *)

(** Once [lastPos] is assigned the loop cannot fail, and adds one action a key. *)
Lemma patternLoop_assigned key0 initPos piece keys actions lastPos :
  patternLoop key0 initPos piece keys actions (Some lastPos)
  = inr (actions ++ gestureTail key0 initPos piece lastPos keys).
Proof.
  revert actions lastPos.
  induction keys as [|key keys IH]; intros actions lastPos.
  - simpl. now rewrite app_nil_r.
  - cbn [patternLoop gestureTail]. unfold keyAction.
    destruct (key === key0)%num; rewrite IH, <- app_assoc; reflexivity.
Qed.

(** The whole gesture, when the first key is a number equal to itself. *)
Lemma getPatternActions_gesture keys key0 rest initPos piece :
  map coerceKey keys = key0 :: rest ->
  (key0 === key0)%num = true ->
  getPatternActions keys initPos piece
  = inr (press (getPatternKeyPosition key0 initPos piece)
         :: gestureTail key0 initPos piece
              (getPatternKeyPosition key0 initPos piece) rest
         ++ [release]).
Proof.
  intros Hkeys Hself. unfold getPatternActions. rewrite Hkeys.
  cbn [patternLoop]. rewrite Hself, patternLoop_assigned. reflexivity.
Qed.


Lemma gestureTail_length key0 initPos piece lastPos keys :
  length (gestureTail key0 initPos piece lastPos keys) = length keys.
Proof.
  revert lastPos. induction keys as [|k keys IH]; intros lastPos; simpl;
    [reflexivity | now rewrite IH].
Qed.

Lemma gestureTail_moves key0 initPos piece lastPos keys :
  Forall (fun k => (k === key0)%num = false) keys ->
  forallb is_moveTo (gestureTail key0 initPos piece lastPos keys) = true.
Proof.
  intros Hall. revert lastPos.
  induction Hall as [|k keys Hk _ IH]; intros lastPos; [reflexivity|].
  cbn [gestureTail forallb]. unfold keyAction. rewrite Hk, IH. reflexivity.
Qed.

Lemma gestureTail_lookup key0 initPos piece lastPos keys i k :
  keys !! i = Some k ->
  exists prev,
    gestureTail key0 initPos piece lastPos keys !! i
    = Some (keyAction key0 initPos piece prev k).
Proof.
  revert lastPos i. induction keys as [|k' keys IH]; intros lastPos i Hi.
  - destruct i; discriminate Hi.
  - destruct i as [|i]; cbn [gestureTail].
    + injection Hi as ->. eexists. reflexivity.
    + apply (IH _ i Hi).
Qed.

(** The action for [b] when [a] is the key just before it. *)
Lemma gestureTail_lookup_pair key0 initPos piece lastPos keys pre a b post :
  keys = pre ++ a :: b :: post ->
  gestureTail key0 initPos piece lastPos keys !! S (length pre)
  = Some (keyAction key0 initPos piece (getPatternKeyPosition a initPos piece) b).
Proof.
  intros ->. revert lastPos.
  induction pre as [|c pre IH]; intros lastPos; [reflexivity|].
  cbn [app gestureTail length]. apply IH.
Qed.

Lemma gesture_lookup_pair key0 initPos piece rest pre a b post :
  key0 :: rest = pre ++ a :: b :: post ->
  (press (getPatternKeyPosition key0 initPos piece)
   :: gestureTail key0 initPos piece (getPatternKeyPosition key0 initPos piece) rest
   ++ [release]) !! S (length pre)
  = Some (keyAction key0 initPos piece (getPatternKeyPosition a initPos piece) b).
Proof.
  intros Hsplit. destruct pre as [|c pre].
  - injection Hsplit as -> ->. reflexivity.
  - injection Hsplit as <- ->.
    change ((gestureTail key0 initPos piece (getPatternKeyPosition key0 initPos piece)
               (pre ++ a :: b :: post) ++ [release]) !! S (length pre)
            = Some (keyAction key0 initPos piece (getPatternKeyPosition a initPos piece) b)).
    rewrite lookup_app_l.
    + now apply (gestureTail_lookup_pair _ _ _ _ _ pre a b post).
    + rewrite gestureTail_length, length_app. simpl. lia.
Qed.

Lemma pressCount_app a b : pressCount (a ++ b) = (pressCount a + pressCount b)%nat.
Proof. induction a as [|c a IH]; simpl; [reflexivity | rewrite IH; lia]. Qed.

Lemma gestureTail_pressCount key0 initPos piece lastPos keys :
  Exists (fun k => (k === key0)%num = true) keys ->
  (1 <= pressCount (gestureTail key0 initPos piece lastPos keys))%nat.
Proof.
  intros Hex. revert lastPos.
  induction Hex as [k keys Hk | k keys _ IH]; intros lastPos; cbn [gestureTail pressCount].
  - unfold keyAction. rewrite Hk. simpl. lia.
  - specialize (IH (getPatternKeyPosition k initPos piece)). lia.
Qed.

(** Distinct digits: none of the later keys equals the first. *)
Lemma digits_after_first (d : Z) (ds : list Z) :
  NoDup (d :: ds) ->
  Forall (fun k => (k === num_of_Z d)%num = false) (map num_of_Z ds).
Proof.
  intros Hnd. apply NoDup_cons in Hnd as [Hnotin _].
  apply Forall_forall. intros k Hk.
  apply list_elem_of_In, in_map_iff in Hk as (d' & <- & Hin).
  destruct (num_of_Z d' === num_of_Z d)%num eqn:E; [|reflexivity].
  apply num_seq_of_Z in E. subst d'. exfalso. apply Hnotin.
  now apply list_elem_of_In.
Qed.

(** C6: for [N >= 2] distinct digits of 1..9, [getPatternActions] returns
    [N + 1] actions: a press, then [N - 1] moves, then a release. *)
Theorem C6_gesture_shape (keys : list key) (ds : list Z) (initPos : Position)
    (piece : number) :
  map coerceKey keys = map num_of_Z ds ->
  Forall is_digit ds -> NoDup ds -> (2 <= length ds)%nat ->
  exists p moves,
    getPatternActions keys initPos piece = inr (press p :: moves ++ [release])
    /\ length (press p :: moves ++ [release]) = S (length ds)
    /\ length moves = (length ds - 1)%nat
    /\ forallb is_moveTo moves = true.
Proof.
  intros Hkeys _ Hnd Hlen.
  destruct ds as [|d ds]; [simpl in Hlen; lia|].
  cbn [map] in Hkeys.
  eexists _, _. split; [|split; [|split]].
  - apply (getPatternActions_gesture _ _ _ _ _ Hkeys). apply num_seq_refl.
  - cbn [length]. rewrite length_app, gestureTail_length, length_map. simpl. lia.
  - rewrite gestureTail_length, length_map. simpl. lia.
  - apply gestureTail_moves, digits_after_first, Hnd.
Qed.

Lemma C6_gesture_shape_witness :
  exists p moves,
    getPatternActions [KStr (str "7"); KStr (str "2"); KNum (num_of_Z 9)]
                      (origin 0 0) (num_of_Z 30)
    = inr (press p :: moves ++ [release])
    /\ length (press p :: moves ++ [release]) = 4%nat
    /\ length moves = 2%nat
    /\ forallb is_moveTo moves = true.
Proof.
  apply (C6_gesture_shape _ [7; 2; 9]).
  - reflexivity.
  - repeat constructor; unfold is_digit; lia.
  - repeat constructor; rewrite ?elem_of_cons, ?elem_of_nil; lia.
  - simpl. lia.
Defined.

(** C10: when a later key equals the first after coercion, the loop emits a
    press for it: the gesture still has [N + 1] actions ending in a release,
    but more than one press. *)
Theorem C10_repeated_first_key_presses_again (keys : list key) (key0 : number)
    (rest : list number) (initPos : Position) (piece : number) :
  map coerceKey keys = key0 :: rest ->
  Exists (fun k => (k === key0)%num = true) rest ->
  exists actions,
    getPatternActions keys initPos piece = inr (actions ++ [release])
    /\ length (actions ++ [release]) = S (length keys)
    /\ (forall i k, rest !! i = Some k -> (k === key0)%num = true ->
        exists p, (actions ++ [release]) !! S i = Some (press p))
    /\ (1 < pressCount (actions ++ [release]))%nat.
Proof.
  intros Hkeys Hex.
  assert (Hself : (key0 === key0)%num = true).
  { apply Exists_exists in Hex as (k & _ & Hk).
    apply (num_seq_self _ _ Hk). }
  exists (press (getPatternKeyPosition key0 initPos piece)
          :: gestureTail key0 initPos piece (getPatternKeyPosition key0 initPos piece) rest).
  split; [|split; [|split]].
  - apply (getPatternActions_gesture _ _ _ _ _ Hkeys Hself).
  - rewrite length_app. cbn [length]. rewrite gestureTail_length.
    rewrite <- (length_map coerceKey keys), Hkeys. simpl. lia.
  - intros i k Hi Hk. cbn [app]. rewrite lookup_cons.
    destruct (gestureTail_lookup key0 initPos piece
                (getPatternKeyPosition key0 initPos piece) rest i k Hi) as [prev Hprev].
    rewrite lookup_app_l by (rewrite gestureTail_length; now apply lookup_lt_Some in Hi).
    rewrite Hprev. unfold keyAction. rewrite Hk. eexists. reflexivity.
  - rewrite pressCount_app. cbn [pressCount is_press app].
    pose proof (gestureTail_pressCount key0 initPos piece
                  (getPatternKeyPosition key0 initPos piece) rest Hex). lia.
Qed.

Lemma C10_repeated_first_key_presses_again_witness :
  exists actions,
    getPatternActions [KStr (str "1"); KNum (num_of_Z 2); KStr (str "01")]
                      (origin 0 0) (num_of_Z 30)
    = inr (actions ++ [release])
    /\ length (actions ++ [release]) = 4%nat
    /\ (forall i k, [num_of_Z 2; num_of_Z 1] !! i = Some k ->
        (k === num_of_Z 1)%num = true ->
        exists p, (actions ++ [release]) !! S i = Some (press p))
    /\ (1 < pressCount (actions ++ [release]))%nat.
Proof.
  apply (C10_repeated_first_key_presses_again
           [KStr (str "1"); KNum (num_of_Z 2); KStr (str "01")] (num_of_Z 1)
           [num_of_Z 2; num_of_Z 1]).
  - reflexivity.
  - apply Exists_cons_tl, Exists_cons_hd. reflexivity.
Defined.

(** ** Offsets of the moves *)

(** C2: the gesture for the key 52 on the pattern view of a screen 719
    pixels wide, at [{33, 323}].  The cell size is the double nearest to
    [719/3].  Digit 5 is at [{392, 683}] and digit 2, the cell above it, at
    [{392, 443}]: the delta of the rounded positions is 240, more than the
    cell size, so the move is taken for one that skips a cell.  Its offset
    is two cell sizes, and it ends above the view. *)
Theorem C2_adjacent_move_doubled :
  let cell := (num_of_Z 719 / num_of_Z 3)%num in
  let view := origin 33 323 in
  exists q : Position,
    getPatternKeyPosition (num_of_Z 5) view cell = {| x := num_of_Z 392; y := num_of_Z 683 |}
    /\ getPatternKeyPosition (num_of_Z 2) view cell
       = {| x := num_of_Z 392; y := num_of_Z 443 |}
    /\ getPatternActions [KStr (str "5"); KStr (str "2")] view cell
       = inr [press {| x := num_of_Z 392; y := num_of_Z 683 |}; moveTo q; release]
    /\ q.(x) = num_of_Z 392
    /\ (q.(y) - num_of_Z 683)%num = (num_of_Z (-2) * cell)%num
    /\ (q.(y) <? num_of_Z 323)%num = true.
Proof.
  intros cell view. eexists. split; [vm_compute; reflexivity|].
  split; [vm_compute; reflexivity|].
  split; [vm_compute; reflexivity|].
  split; [reflexivity|]. split; vm_compute; reflexivity.
Qed.

(** The same happens with small numbers: with a cell of 5/2 the adjacent
    move from 1 to 2 is two cells long. *)
Example adjacent_move_doubled_small_cell :
  getPatternActions [KNum (num_of_Z 1); KNum (num_of_Z 2)] (origin 0 0) (Num (5 # 2))
  = inr [press {| x := num_of_Z 1; y := num_of_Z 1 |};
         moveTo {| x := num_of_Z 6; y := num_of_Z 1 |}; release].
Proof. vm_compute. reflexivity. Qed.

(** *** Integer cell sizes *)

Lemma num_gt_true (a b : number) (x y : Q) :
  denotes a x -> denotes b y -> (y < x)%Q -> num_gt a b = true.
Proof. intros Ha Hb. apply (num_gt_denotes a b x y Ha Hb). Qed.

Lemma num_gt_false (a b : number) (x y : Q) :
  denotes a x -> denotes b y -> (x <= y)%Q -> num_gt a b = false.
Proof.
  intros Ha Hb L. destruct (num_gt a b) eqn:E; [|reflexivity].
  apply (num_gt_denotes a b x y Ha Hb) in E. lra.
Qed.

Lemma num_lt_true (a b : number) (x y : Q) :
  denotes a x -> denotes b y -> (x < y)%Q -> num_lt a b = true.
Proof. intros Ha Hb. apply (num_lt_denotes a b x y Ha Hb). Qed.

Lemma num_lt_false (a b : number) (x y : Q) :
  denotes a x -> denotes b y -> (y <= x)%Q -> num_lt a b = false.
Proof.
  intros Ha Hb L. destruct (num_lt a b) eqn:E; [|reflexivity].
  apply (num_lt_denotes a b x y Ha Hb) in E. lra.
Qed.

(** With an integer cell size the key positions need no rounding but that of
    the half cell. *)
Lemma spec_round_integer_cell (o c n : Z) (p : Q) :
  (p == inject_Z n)%Q ->
  spec_round (inject_Z o + inject_Z c * p - p / 2) = o + c * n - n / 2.
Proof.
  intros Hp. unfold spec_round.
  rewrite (Qfloor_comp _ (inject_Z (2 * o + 2 * c * n - n + 1) / inject_Z 2)).
  - rewrite <- Zdiv_Qdiv. Z.to_euclidean_division_equations. lia.
  - rewrite Hp. unfold Z.sub.
    rewrite !inject_Z_plus, !inject_Z_opp, !inject_Z_mult.
    change (inject_Z 2) with 2%Q. change (inject_Z 1) with 1%Q. field.
Qed.

(** With an integer cell size [n], a delta of [k] cells, [|k| <= 2], gives
    an offset of [k] cells. *)
Lemma moveAxis_cells (n k : Z) (diff : number) :
  0 < n <= 2 ^ 29 -> - 2 <= k <= 2 ->
  denotes diff (inject_Z (k * n)) ->
  denotes (moveAxis (num_of_Z n) diff) (inject_Z (k * n)).
Proof.
  intros Hn Hk Hdiff.
  assert (HN : (0 < inject_Z n <= 536870912)%Q).
  { change 0%Q with (inject_Z 0). change 536870912%Q with (inject_Z (2 ^ 29)).
    rewrite <- Zlt_Qlt, <- Zle_Qle. lia. }
  assert (Hg : (grid_bound == 4294967296)%Q) by reflexivity.
  pose proof (denotes_of_Z n) as Dn. pose proof (denotes_of_Z 0) as D0.
  pose proof (Math_abs_denotes _ _ Hdiff) as Dabs.
  change (inject_Z 0) with 0%Q in D0.
  assert (Dtwice : denotes (num_of_Z n + num_of_Z n) (inject_Z n + inject_Z n)).
  { apply num_add_exact; try assumption.
    - apply on_grid_plus; apply on_grid_Z.
    - rewrite Hg. apply Qabs_case; intros; lra. }
  assert (Dneg : denotes (num_of_Z (-1) * num_of_Z n) (inject_Z (-1) * inject_Z n)).
  { apply num_mul_exact; try assumption; [apply denotes_of_Z | |].
    - apply on_grid_mult_Z, on_grid_Z.
    - rewrite Hg. change (inject_Z (-1)) with (-1 # 1)%Q. apply Qabs_case; intros; lra. }
  assert (Dneg2 : denotes (num_of_Z (-1) * num_of_Z n - num_of_Z n)
                          (inject_Z (-1) * inject_Z n - inject_Z n)).
  { apply num_sub_exact; try assumption.
    - apply on_grid_minus; [apply on_grid_mult_Z |]; apply on_grid_Z.
    - rewrite Hg. change (inject_Z (-1)) with (-1 # 1)%Q. apply Qabs_case; intros; lra. }
  change (inject_Z (-1)) with (-1 # 1)%Q in Dneg, Dneg2.
  revert Hdiff Dabs. rewrite inject_Z_mult. intros Hdiff Dabs.
  unfold moveAxis. cbv zeta.
  assert (Ek : k = - 2 \/ k = - 1 \/ k = 0 \/ k = 1 \/ k = 2) by lia.
  destruct Ek as [-> | [-> | [-> | [-> | ->]]]];
    [change (inject_Z (-2)) with (-2 # 1)%Q in *
    |change (inject_Z (-1)) with (-1 # 1)%Q in *
    |change (inject_Z 0) with 0%Q in *
    |change (inject_Z 1) with 1%Q in *
    |change (inject_Z 2) with 2%Q in *].
  - rewrite (num_gt_false _ _ _ _ Hdiff D0) by lra.
    rewrite (num_lt_true _ _ _ _ Hdiff D0) by lra.
    rewrite (num_gt_true _ _ _ _ Dabs Dn) by (rewrite Qabs_neg; lra).
    eapply denotes_comp; [exact Dneg2 | ring].
  - rewrite (num_gt_false _ _ _ _ Hdiff D0) by lra.
    rewrite (num_lt_true _ _ _ _ Hdiff D0) by lra.
    rewrite (num_gt_false _ _ _ _ Dabs Dn) by (rewrite Qabs_neg; lra).
    exact Dneg.
  - rewrite (num_gt_false _ _ _ _ Hdiff D0) by lra.
    rewrite (num_lt_false _ _ _ _ Hdiff D0) by lra.
    eapply denotes_comp; [exact D0 | ring].
  - rewrite (num_gt_true _ _ _ _ Hdiff D0) by lra.
    rewrite (num_gt_false _ _ _ _ Dabs Dn) by (rewrite Qabs_pos; lra).
    eapply denotes_comp; [exact Dn | ring].
  - rewrite (num_gt_true _ _ _ _ Hdiff D0) by lra.
    rewrite (num_gt_true _ _ _ _ Dabs Dn) by (rewrite Qabs_pos; lra).
    eapply denotes_comp; [exact Dtwice | ring].
Qed.

(** A digit that is not the first of a sequence of distinct digits differs
    from the first. *)
Lemma later_digit_differs (d0 : Z) (ds' pre : list Z) (a b : Z) (post : list Z) :
  NoDup (d0 :: ds') -> d0 :: ds' = pre ++ a :: b :: post ->
  (num_of_Z b === num_of_Z d0)%num = false.
Proof.
  intros Hnd Hsplit.
  pose proof (digits_after_first _ _ Hnd) as Hall.
  rewrite Forall_forall in Hall. apply Hall.
  apply list_elem_of_In, in_map.
  destruct pre as [|c pre]; injection Hsplit as _ ->.
  - now left.
  - apply in_or_app. right. right. now left.
Qed.

(** One axis of a move between two digits, with an integer cell size: from
    the coordinate of the digit before, the offset leads to the coordinate
    of the digit. *)
Lemma axis_lands_on_digit (o ka kb n : Z) (prev cur : number) :
  Z.abs o <= 2 ^ 30 -> 0 < n <= 2 ^ 29 -> 1 <= ka <= 3 -> 1 <= kb <= 3 ->
  denotes prev (inject_Z (o + ka * n - n / 2)) ->
  denotes cur (inject_Z (o + kb * n - n / 2)) ->
  num_equiv (moveAxis (num_of_Z n) (cur - prev) + prev) cur.
Proof.
  intros Ho Hn Hka Hkb Dprev Dcur.
  assert (Hg : (grid_bound == 4294967296)%Q) by reflexivity.
  assert (Bz : forall z : Z, Z.abs z < 2 ^ 32 -> (Qabs (inject_Z z) < grid_bound)%Q).
  { intros z Hz. rewrite Hg. change 4294967296%Q with (inject_Z (2 ^ 32)).
    apply Qabs_case; intros _; rewrite <- ?inject_Z_opp, <- Zlt_Qlt; lia. }
  assert (Hdiv : 0 <= n / 2 <= n) by (Z.to_euclidean_division_equations; lia).
  assert (Ddiff : denotes (cur - prev) (inject_Z ((kb - ka) * n))).
  { apply denotes_comp with (inject_Z (o + kb * n - n / 2)
                             - inject_Z (o + ka * n - n / 2))%Q.
    - apply num_sub_exact; try assumption.
      + apply on_grid_minus; apply on_grid_Z.
      + unfold Qminus. rewrite <- inject_Z_opp, <- inject_Z_plus. apply Bz. nia.
    - unfold Qminus. rewrite <- inject_Z_opp, <- inject_Z_plus.
      apply (proj2 (inject_Z_injective _ _)). lia. }
  pose proof (moveAxis_cells n (kb - ka) _ Hn ltac:(lia) Ddiff) as Dmove.
  apply (denotes_equiv _ _ (inject_Z (o + kb * n - n / 2))); [|exact Dcur].
  apply denotes_comp with (inject_Z ((kb - ka) * n) + inject_Z (o + ka * n - n / 2))%Q.
  - apply num_add_exact; try assumption.
    + apply on_grid_plus; apply on_grid_Z.
    + rewrite <- inject_Z_plus. apply Bz. nia.
  - rewrite <- inject_Z_plus. apply (proj2 (inject_Z_injective _ _)). lia.
Qed.

(** The point of a digit with an integer cell size. *)
Lemma getPatternKeyPosition_integer_cell (d ox oy n : Z) :
  is_digit d -> Z.abs ox <= 2 ^ 30 -> Z.abs oy <= 2 ^ 30 -> 0 < n <= 2 ^ 29 ->
  let p := getPatternKeyPosition (num_of_Z d) (origin ox oy) (num_of_Z n) in
  denotes p.(x) (inject_Z (ox + spec_column d * n - n / 2))
  /\ denotes p.(y) (inject_Z (oy + spec_row d * n - n / 2)).
Proof.
  intros Hd Hox Hoy Hn p.
  assert (Hc : (0 < inject_Z n <= inject_Z (2 ^ 29))%Q).
  { change 0%Q with (inject_Z 0). rewrite <- Zlt_Qlt, <- Zle_Qle. lia. }
  assert (Hm : exists m : Z, (inject_Z n == inject_Z m / 2 ^ 20)%Q).
  { exists (n * 2 ^ 20). rewrite inject_Z_mult, <- (Qpow2_Z 20) by lia.
    field; repeat split; apply Qnot_eq_sym, Qlt_not_eq, Qpow2_pos. }
  destruct (getPatternKeyPosition_exact d ox oy (inject_Z n) Hd Hox Hoy Hc Hm) as [Hx Hy].
  rewrite (spec_round_integer_cell ox _ n) in Hx by reflexivity.
  rewrite (spec_round_integer_cell oy _ n) in Hy by reflexivity.
  split; assumption.
Qed.

(** A move between two digits, with an integer cell size, ends on the point
    of the digit it goes to. *)
Lemma move_lands_on_digit (a b ox oy n : Z) :
  is_digit a -> is_digit b -> Z.abs ox <= 2 ^ 30 -> Z.abs oy <= 2 ^ 30 ->
  0 < n <= 2 ^ 29 ->
  let prev := getPatternKeyPosition (num_of_Z a) (origin ox oy) (num_of_Z n) in
  let cur := getPatternKeyPosition (num_of_Z b) (origin ox oy) (num_of_Z n) in
  num_equiv (moveAxis (num_of_Z n) (cur.(x) - prev.(x)) + prev.(x)) cur.(x)
  /\ num_equiv (moveAxis (num_of_Z n) (cur.(y) - prev.(y)) + prev.(y)) cur.(y).
Proof.
  intros Ha Hb Hox Hoy Hn prev cur.
  destruct (getPatternKeyPosition_integer_cell a ox oy n Ha Hox Hoy Hn) as [Hax Hay].
  destruct (getPatternKeyPosition_integer_cell b ox oy n Hb Hox Hoy Hn) as [Hbx Hby].
  split.
  - apply (axis_lands_on_digit ox (spec_column a) (spec_column b) n); try assumption;
      apply spec_column_range.
  - apply (axis_lands_on_digit oy (spec_row a) (spec_row b) n); try assumption;
      now apply spec_row_range.
Qed.

(** ** Runs of the executors *)

Section Runs.
Context `{Device}.

Lemma bind_inv {A B} (m : M A) (k : A -> M B) w r w' tr :
  bind m k w = (r, w', tr) ->
  (exists e, m w = (inl e, w', tr) /\ r = inl e)
  \/ (exists a w1 t1 t2,
        m w = (inr a, w1, t1) /\ k a w1 = (r, w', t2) /\ tr = t1 ++ t2).
Proof.
  unfold bind. destruct (m w) as [[[e|a] w1] t1].
  - intros [= <- <- <-]. left. eauto.
  - destruct (k a w1) as [[r2 w2] t2] eqn:Ek.
    intros [= <- <- <-]. right. eauto 10.
Qed.

Lemma call_inv (c : Call ElementId) w r w' tr :
  call c w = (r, w', tr) ->
  (exists e, r = inl e /\ tr = [Called c (inl e)])
  \/ (exists v, r = inr v /\ tr = [Called c (inr (reify c v))]).
Proof.
  unfold call. destruct (respond c w) as [[e|v] w1]; intros [= <- <- <-]; eauto.
Qed.

Lemma emits_ret {A} P (a : A) : emits P (ret a).
Proof. intros w r w' tr [= <- <- <-]. constructor. Qed.

Lemma emits_bind {A B} P (m : M A) (k : A -> M B) :
  emits P m -> (forall a, emits P (k a)) -> emits P (bind m k).
Proof.
  intros Hm Hk w r w' tr Hrun.
  apply bind_inv in Hrun as [(e & Hmw & _) | (a & w1 & t1 & t2 & Hmw & Hkw & ->)].
  - apply (Hm _ _ _ _ Hmw).
  - apply Forall_app. split; [apply (Hm _ _ _ _ Hmw) | apply (Hk _ _ _ _ _ Hkw)].
Qed.

Lemma emits_call P (c : Call ElementId) :
  (forall r, P (Called c r)) -> emits P (call c).
Proof.
  intros HP w r w' tr Hrun.
  apply call_inv in Hrun as [(e & _ & ->) | (v & _ & ->)];
    repeat constructor; apply HP.
Qed.

Lemma emits_sleep P ms : P (Slept ms) -> emits P (sleep ms).
Proof. intros HP w r w' tr [= <- <- <-]. repeat constructor. exact HP. Qed.

Lemma emits_logger_info P msg : P (Logged msg) -> emits P (logger_info msg).
Proof. intros HP w r w' tr [= <- <- <-]. repeat constructor. exact HP. Qed.

Lemma emits_enter P m : P (Invoked m) -> emits P (enter m).
Proof. intros HP w r w' tr [= <- <- <-]. repeat constructor. exact HP. Qed.
End Runs.

Ltac emits_auto :=
  repeat first
    [ apply emits_bind; [| intros ?]
    | apply emits_ret
    | apply emits_call; intros ?
    | apply emits_sleep
    | apply emits_logger_info
    | apply emits_enter
    | match goal with |- emits _ (if ?b then _ else _) => destruct b end
    | match goal with |- emits _ (match ?o with Some _ => _ | None => _ end) => destruct o end ].

(** Case analysis on the membership of an event in an explicit trace. *)
Ltac in_cases H :=
  cbn [In app] in H;
  repeat (destruct H as [H|H]; [try discriminate H|]);
  try contradiction.

(** ** [fastUnlock] *)

Section FastUnlock.
Context `{Device}.

(** C7: the restoration of the credential is not on every exit path.  When
    [cycleWakeUp()] raises, which happens after [isLockEnabled()] has
    returned true and [clearLockCredential] has cleared the credential,
    [fastUnlock] ends with that error at once: the calls made are these
    three, and [setLockCredential] is not among them.  On the sibling path,
    when [dismissKeyguard()] raises, the restoration is called after it, and
    when it returns the error of the dismissal is the one raised. *)
Theorem C7_wake_up_failure_skips_restoration (opts : FastUnlockOptions) w r w' tr :
  fastUnlock opts w = (r, w', tr) ->
  let clear := ClearLockCredential opts.(credential) in
  let restore := SetLockCredential opts.(credentialType) opts.(credential) in
  (forall e, In (Called CycleWakeUp (inl e)) tr ->
     r = inl e
     /\ callsOf tr = [IsLockEnabled; clear; CycleWakeUp]
     /\ In (Called IsLockEnabled (inr (VBool true))) tr
     /\ In (Called clear (inr VUnit)) tr
     /\ forall ty cred res, ~ In (Called (SetLockCredential ty cred) res) tr)
  /\ (forall e, In (Called DismissKeyguard (inl e)) tr ->
      In (Called IsLockEnabled (inr (VBool true))) tr ->
      callsOf tr = [IsLockEnabled; clear; CycleWakeUp; DismissKeyguard; restore]
      /\ (In (Called restore (inr VUnit)) tr -> r = inl e)).
Proof.
  intros Hrun clear restore. subst clear restore.
  unfold fastUnlock, bind, try_finally, call, enter, logger_info, ret in Hrun.
  destruct (respond IsLockEnabled w) as [[e|[|]] w1];
    [injection Hrun as <- <- <- | |].
  - split; intros e0 Hin; in_cases Hin.
  - destruct (respond (ClearLockCredential (credential opts)) w1) as [[e|[]] w2];
      [injection Hrun as <- <- <- |].
    { split; intros e0 Hin; in_cases Hin. }
    destruct (respond CycleWakeUp w2) as [[e|[]] w3];
      [injection Hrun as <- <- <- |].
    { split; intros e0 Hin; in_cases Hin. injection Hin as <-.
      split; [reflexivity|]. split; [reflexivity|].
      split; [simpl; tauto|]. split; [simpl; tauto|].
      intros ty cred res Hs. in_cases Hs. }
    destruct (respond DismissKeyguard w3) as [[e|[]] w4];
      destruct (respond (SetLockCredential (credentialType opts) (credential opts)) w4)
        as [[e'|[]] w5];
      injection Hrun as <- <- <-; cbn [In app reify].
    all: split; [intros e0 Hin; in_cases Hin |].
    all: intros e0 Hin _; in_cases Hin; injection Hin as <-.
    all: split; [reflexivity | intros Hs; in_cases Hs; reflexivity].
  - destruct (respond DismissKeyguard w1) as [[e|[]] w2];
      injection Hrun as <- <- <-; cbn [In app reify].
    all: split; [intros e0 Hin; in_cases Hin | intros e0 _ Hin; in_cases Hin].
Qed.
End FastUnlock.

(** ** [pinUnlock] and [pinUnlockWithKeyEvent] *)

Section PinUnlock.
Context `{Device}.

Lemma enter_bind_inv {B} m (k : unit -> M B) w r w' tr :
  bind (enter m) k w = (r, w', tr) ->
  exists t, tr = Invoked m :: t /\ k tt w = (r, w', t).
Proof.
  unfold bind, enter. destruct (k tt w) as [[r2 w2] t2].
  intros [= <- <- <-]. eauto.
Qed.

Lemma logger_bind_inv {B} msg (k : unit -> M B) w r w' tr :
  bind (logger_info msg) k w = (r, w', tr) ->
  exists t, tr = Logged msg :: t /\ k tt w = (r, w', t).
Proof.
  unfold bind, logger_info. destruct (k tt w) as [[r2 w2] t2].
  intros [= <- <- <-]. eauto.
Qed.

Lemma call_bind_inv {B} (c : Call ElementId) (k : RespT Element c -> M B) w r w' tr :
  bind (call c) k w = (r, w', tr) ->
  (exists e, r = inl e /\ tr = [Called c (inl e)])
  \/ (exists v w1 t, tr = Called c (inr (reify c v)) :: t /\ k v w1 = (r, w', t)).
Proof.
  unfold bind, call. destruct (respond c w) as [[e|v] w1].
  - intros [= <- <- <-]. left. eauto.
  - destruct (k v w1) as [[r2 w2] t2] eqn:Ek.
    intros [= <- <- <-]. right. eauto 10.
Qed.

Lemma In_Forall_absurd (P : Event Element ElementId -> Prop) ev tr :
  Forall P tr -> In ev tr -> ~ P ev -> False.
Proof.
  intros Hall Hin Hnot. apply Hnot.
  apply (proj1 (List.Forall_forall P tr) Hall ev Hin).
Qed.

(** *** The events of each part *)

Lemma waitForUnlock_emits (P : Event Element ElementId -> Prop) :
  P (Invoked M_waitForUnlock) -> (forall ms, P (Slept ms)) ->
  (forall r, P (Called IsScreenLocked r)) ->
  (forall k r, P (Called (Keyevent k) r)) ->
  emits P waitForUnlock.
Proof. intros. unfold waitForUnlock. emits_auto; auto. Qed.

Lemma sendKeyEvents_emits (P : Event Element ElementId -> Prop) keys :
  (forall argv r, P (Called (Shell argv) r)) -> emits P (sendKeyEvents keys).
Proof.
  intros HP. induction keys as [|pin keys IH]; cbn [sendKeyEvents].
  - apply emits_ret.
  - apply emits_bind; [apply emits_call; intros; apply HP | intros _; exact IH].
Qed.

Lemma collectPins_emits (P : Event Element ElementId -> Prop) els pins :
  (forall name el r, P (Called (GetAttribute name el) r)) ->
  emits P (collectPins els pins).
Proof.
  intros HP. revert pins. induction els as [|el els IH]; intros pins; cbn [collectPins].
  - apply emits_ret.
  - apply emits_bind; [apply emits_call; intros; apply HP | intros text; apply IH].
Qed.

Lemma clickPins_emits (P : Event Element ElementId -> Prop) pins keys :
  (forall el r, P (Called (Click el) r)) -> emits P (clickPins pins keys).
Proof.
  intros HP. induction keys as [|pin keys IH]; cbn [clickPins].
  - apply emits_ret.
  - apply emits_bind; [apply emits_call; intros; apply HP | intros _; exact IH].
Qed.

(** [pinUnlockWithKeyEvent] is entered once and then only logs, dismisses
    the keyguard, sends key events and waits. *)
Lemma pinUnlockWithKeyEvent_trace capabilities w r w' tr :
  pinUnlockWithKeyEvent capabilities w = (r, w', tr) ->
  exists t, tr = Invoked M_pinUnlockWithKeyEvent :: t /\ Forall keyEventStep t.
Proof.
  unfold pinUnlockWithKeyEvent. intros Hrun.
  apply enter_bind_inv in Hrun as (t & -> & Hrun).
  exists t. split; [reflexivity|]. revert Hrun.
  generalize w r w' t. change (emits keyEventStep
    (logger_info (str "Trying to unlock device using pin with keycode "
                  ++ String_of capabilities.(unlockKey)) ;;
     call DismissKeyguard ;;
     sendKeyEvents (stringKeyToArr capabilities.(unlockKey)) ;;
     waitForUnlock)).
  emits_auto; try exact I.
  apply sendKeyEvents_emits. intros; exact I.
Qed.

Lemma keyEventStep_entries (tr : Trace) :
  Forall keyEventStep tr -> keyEventEntries tr = 0%nat /\ ~ fellBack tr.
Proof.
  induction 1 as [|ev tr Hev _ [IH1 IH2]]; [split; [reflexivity | intros []]|].
  split.
  - destruct ev as [| | |[]]; try exact IH1; destruct Hev.
  - intros [-> | Hin]; [destruct Hev | exact (IH2 Hin)].
Qed.

Lemma clickStep_entries (tr : Trace) :
  Forall clickStep tr -> keyEventEntries tr = 0%nat /\ ~ fellBack tr.
Proof.
  induction 1 as [|ev tr Hev _ [IH1 IH2]]; [split; [reflexivity | intros []]|].
  split.
  - destruct ev as [| | |[]]; try exact IH1; destruct Hev.
  - intros [-> | Hin]; [destruct Hev | exact (IH2 Hin)].
Qed.

Lemma keyEventEntries_app (t1 t2 : Trace) :
  keyEventEntries (t1 ++ t2) = (keyEventEntries t1 + keyEventEntries t2)%nat.
Proof.
  induction t1 as [|ev t1 IH]; [reflexivity|].
  destruct ev as [| | |[]]; cbn [app keyEventEntries]; rewrite IH; reflexivity.
Qed.

(** *** Clicks that raise *)

Lemma clickPins_raise pins keys w r w' tr el e :
  clickPins pins keys w = (r, w', tr) ->
  In (Called (Click el) (inl e)) tr -> r = inl e.
Proof.
  revert w tr. induction keys as [|pin keys IH]; intros w tr; cbn [clickPins].
  - intros [= <- <- <-] [].
  - intros Hrun Hin.
    apply call_bind_inv in Hrun as [(e0 & -> & ->) | (v & w1 & t & -> & Hrun)].
    + in_cases Hin. congruence.
    + destruct Hin as [Hin|Hin]; [discriminate Hin|]. apply (IH _ _ Hrun Hin).
Qed.

Lemma elementPath_trace els keys w r w' tr :
  elementPath els keys w = (r, w', tr) ->
  Forall clickStep tr
  /\ (forall el e, In (Called (Click el) (inl e)) tr -> r = inl e).
Proof.
  intros Hrun. split.
  - revert Hrun. generalize w r w' tr. change (emits clickStep (elementPath els keys)).
    unfold elementPath. emits_auto; try exact I.
    + apply collectPins_emits. intros; exact I.
    + apply clickPins_emits. intros; exact I.
  - intros el e Hin. unfold elementPath in Hrun.
    apply bind_inv in Hrun as [(e0 & Hcol & ->) | (pins & w1 & t1 & t2 & Hcol & Hrun & ->)].
    + exfalso.
      apply (In_Forall_absurd attributeStep
               _ _ (collectPins_emits attributeStep els ∅ ltac:(intros; exact I) _ _ _ _ Hcol) Hin).
      intros [].
    + apply in_app_or in Hin as [Hin|Hin].
      { exfalso.
        apply (In_Forall_absurd attributeStep
                 _ _ (collectPins_emits attributeStep els ∅ ltac:(intros; exact I) _ _ _ _ Hcol) Hin).
        intros []. }
      apply bind_inv in Hrun as [(e0 & Hclick & ->) | ([] & w2 & t3 & t4 & Hclick & Hwait & ->)].
      * apply (clickPins_raise _ _ _ _ _ _ _ _ Hclick Hin).
      * apply in_app_or in Hin as [Hin|Hin].
        { pose proof (clickPins_raise _ _ _ _ _ _ _ _ Hclick Hin). discriminate. }
        exfalso.
        apply (In_Forall_absurd keyEventStep _ _
                 (waitForUnlock_emits keyEventStep I ltac:(intros; exact I)
                    ltac:(intros; exact I) ltac:(intros; exact I) _ _ _ _ Hwait) Hin).
        intros [].
Qed.
End PinUnlock.

(** ** Errors come from the collaborators *)

Section Raises.
Context `{Device}.

Lemma rfc_ret {A} (a : A) : raises_from_calls (ret a).
Proof. intros w e w' tr [=]. Qed.

Lemma rfc_bind {A B} (m : M A) (k : A -> M B) :
  raises_from_calls m -> (forall a, raises_from_calls (k a)) ->
  raises_from_calls (bind m k).
Proof.
  intros Hm Hk w e w' tr Hrun.
  apply bind_inv in Hrun as [(e0 & Hmw & [= <-]) | (a & w1 & t1 & t2 & Hmw & Hkw & ->)].
  - apply (Hm _ _ _ _ Hmw).
  - destruct (Hk _ _ _ _ _ Hkw) as [c Hc]. exists c. apply in_or_app. now right.
Qed.

Lemma rfc_call (c : Call ElementId) : raises_from_calls (call c).
Proof.
  intros w e w' tr Hrun.
  apply call_inv in Hrun as [(e0 & [= <-] & ->) | (v & [=] & _)].
  exists c. now left.
Qed.

Lemma rfc_sleep ms : raises_from_calls (sleep ms).
Proof. intros w e w' tr [=]. Qed.

Lemma rfc_logger_info msg : raises_from_calls (logger_info msg).
Proof. intros w e w' tr [=]. Qed.

Lemma rfc_enter m : raises_from_calls (enter m).
Proof. intros w e w' tr [=]. Qed.
End Raises.

Ltac rfc_auto :=
  repeat first
    [ apply rfc_bind; [| intros ?]
    | apply rfc_ret
    | apply rfc_call
    | apply rfc_sleep
    | apply rfc_logger_info
    | apply rfc_enter
    | match goal with |- raises_from_calls (if ?b then _ else _) => destruct b end
    | match goal with
      | |- raises_from_calls (match ?o with Some _ => _ | None => _ end) => destruct o
      end
    | match goal with
      | |- raises_from_calls (match ?l with [] => _ | _ :: _ => _ end) => destruct l
      end ].

Section PinUnlockRaises.
Context `{Device}.

Lemma sendKeyEvents_rfc keys : raises_from_calls (sendKeyEvents keys).
Proof. induction keys as [|pin keys IH]; cbn [sendKeyEvents]; rfc_auto. exact IH. Qed.

Lemma collectPins_rfc els pins : raises_from_calls (collectPins els pins).
Proof.
  revert pins. induction els as [|el els IH]; intros pins; cbn [collectPins]; rfc_auto.
  apply IH.
Qed.

Lemma clickPins_rfc pins keys : raises_from_calls (clickPins pins keys).
Proof. induction keys as [|pin keys IH]; cbn [clickPins]; rfc_auto. exact IH. Qed.

Lemma pinUnlockWithKeyEvent_rfc capabilities :
  raises_from_calls (pinUnlockWithKeyEvent capabilities).
Proof. unfold pinUnlockWithKeyEvent. rfc_auto. apply sendKeyEvents_rfc. Qed.

Lemma clickKeys_rfc capabilities keys : raises_from_calls (clickKeys capabilities keys).
Proof.
  induction keys as [|pin keys IH]; cbn [clickKeys]; rfc_auto;
    first [exact IH | apply sendKeyEvents_rfc].
Qed.

Lemma pinUnlock_rfc capabilities : raises_from_calls (pinUnlock capabilities).
Proof.
  unfold pinUnlock. rfc_auto;
    first [ apply sendKeyEvents_rfc | apply collectPins_rfc
          | apply clickPins_rfc | apply clickKeys_rfc ].
Qed.
End PinUnlockRaises.

(** ** The fallback of [pinUnlock] *)

Ltac five_parts := split; [| split; [| split; [| split]]].

Section Fallback.
Context `{Device}.

Lemma keyEventStep_afterLookup (ev : Event Element ElementId) :
  keyEventStep ev -> afterLookup ev.
Proof. destruct ev as [[] ?| | |[]]; simpl; tauto. Qed.

Lemma clickStep_afterLookup (ev : Event Element ElementId) :
  clickStep ev -> afterLookup ev.
Proof. destruct ev as [[] ?| | |[]]; simpl; tauto. Qed.

Lemma waitForUnlock_keyEventStep w r w' tr :
  waitForUnlock w = (r, w', tr) -> Forall keyEventStep tr.
Proof.
  apply (waitForUnlock_emits keyEventStep); intros; exact I.
Qed.

(** The loop below API level 21: it falls back exactly on a lookup that
    answers [null], at most once, and never after a click that raised. *)
Lemma clickKeys_trace capabilities keys w r w' tr :
  clickKeys capabilities keys w = (r, w', tr) ->
  Forall afterLookup tr
  /\ (fellBack tr ->
      exists pin, In pin keys /\ In (Called (keyLookup pin) (inr (VElement None))) tr)
  /\ (forall st sel, In (Called (FindElOrEls st sel false) (inr (VElement None))) tr ->
                     fellBack tr)
  /\ (keyEventEntries tr <= 1)%nat
  /\ (forall el e, In (Called (Click el) (inl e)) tr -> r = inl e /\ ~ fellBack tr).
Proof.
  revert w tr. induction keys as [|pin keys IH]; intros w tr; cbn [clickKeys].
  { intros [= <- <- <-]. five_parts.
    - constructor.
    - intros [].
    - intros st sel [].
    - simpl. lia.
    - intros el e []. }
  intros Hrun.
  apply call_bind_inv in Hrun as [(e0 & -> & ->) | (v & w1 & t & -> & Hrun)].
  { five_parts.
    - repeat constructor.
    - intros Hin. in_cases Hin.
    - intros st sel Hin. in_cases Hin.
    - simpl. lia.
    - intros el e Hin. in_cases Hin. }
  destruct v as [el0|]; cbn [reify] in *.
  - (* the element is there: it is clicked *)
    apply call_bind_inv in Hrun as [(e0 & -> & ->) | ([] & w2 & t2 & -> & Hrun)].
    { five_parts.
      - repeat constructor.
      - intros Hin. in_cases Hin.
      - intros st sel Hin. in_cases Hin.
      - simpl. lia.
      - intros el e Hin. in_cases Hin. injection Hin as _ <-.
        split; [reflexivity|]. intros Hfb. in_cases Hfb. }
    destruct (IH _ _ Hrun) as (Hall & Hfb1 & Hfb2 & Hcount & Hclick).
    five_parts.
    + repeat constructor. exact Hall.
    + intros Hin. in_cases Hin.
      destruct (Hfb1 Hin) as (pin' & Hpin' & Hev). exists pin'. split.
      * now right.
      * now do 2 right.
    + intros st sel Hin. in_cases Hin. do 2 right. apply (Hfb2 _ _ Hin).
    + exact Hcount.
    + intros el e Hin. in_cases Hin. destruct (Hclick _ _ Hin) as [Hr Hnofb].
      split; [exact Hr|]. intros Hfb. in_cases Hfb; try exact (Hnofb Hfb).
  - (* the element is missing: fallback to pin with key event *)
    assert (Hkey : exists t', t = Invoked M_pinUnlockWithKeyEvent :: t'
                              /\ Forall keyEventStep t').
    { apply bind_inv in Hrun
        as [(e0 & Hkey & ->) | (v & w2 & t1 & t2 & Hkey & [= <- <- <-] & ->)];
        [| rewrite app_nil_r]; apply (pinUnlockWithKeyEvent_trace _ _ _ _ _ Hkey). }
    destruct Hkey as (t' & -> & Hsteps).
    destruct (keyEventStep_entries _ Hsteps) as [Hzero Hnofb].
    five_parts.
    + repeat constructor.
      apply (List.Forall_impl _ keyEventStep_afterLookup), Hsteps.
    + intros _. exists pin. split; now left.
    + intros st sel _. right. now left.
    + cbn [keyEventEntries]. rewrite Hzero. lia.
    + intros el e Hin. in_cases Hin. exfalso.
      apply (In_Forall_absurd keyEventStep _ _ Hsteps Hin). intros [].
Qed.

Lemma legacyPath_trace capabilities keys w r w' tr :
  legacyPath capabilities keys w = (r, w', tr) ->
  Forall afterLookup tr
  /\ (fellBack tr ->
      exists pin, In pin keys /\ In (Called (keyLookup pin) (inr (VElement None))) tr)
  /\ (forall st sel, In (Called (FindElOrEls st sel false) (inr (VElement None))) tr ->
                     fellBack tr)
  /\ (keyEventEntries tr <= 1)%nat
  /\ (forall el e, In (Called (Click el) (inl e)) tr -> r = inl e /\ ~ fellBack tr).
Proof.
  unfold legacyPath. intros Hrun.
  apply bind_inv in Hrun as [(e0 & Hkeys & ->) | (v & w1 & t1 & t2 & Hkeys & Hrest & ->)].
  { destruct (clickKeys_trace _ _ _ _ _ _ Hkeys) as (Hall & Hfb1 & Hfb2 & Hcount & Hclick).
    five_parts; try assumption.
    intros el e Hin. destruct (Hclick _ _ Hin) as [[= ->] Hnofb]. now split. }
  destruct (clickKeys_trace _ _ _ _ _ _ Hkeys) as (Hall & Hfb1 & Hfb2 & Hcount & Hclick).
  assert (Hwait : Forall keyEventStep t2).
  { destruct v as [[]|]; [injection Hrest as <- <- <-; constructor|].
    apply (waitForUnlock_keyEventStep _ _ _ _ Hrest). }
  destruct (keyEventStep_entries _ Hwait) as [Hzero Hnofb].
  five_parts.
  - apply Forall_app. split; [exact Hall|].
    apply (List.Forall_impl _ keyEventStep_afterLookup), Hwait.
  - intros Hin. apply in_app_or in Hin as [Hin|Hin]; [|contradiction].
    destruct (Hfb1 Hin) as (pin & Hpin & Hev). exists pin. split; [exact Hpin|].
    apply in_or_app. now left.
  - intros st sel Hin. apply in_or_app. left.
    apply in_app_or in Hin as [Hin|Hin]; [apply (Hfb2 _ _ Hin)|].
    exfalso. apply (In_Forall_absurd keyEventStep _ _ Hwait Hin). intros [].
  - rewrite keyEventEntries_app, Hzero. lia.
  - intros el e Hin. apply in_app_or in Hin as [Hin|Hin].
    + destruct (Hclick _ _ Hin) as [Hr _]. discriminate Hr.
    + exfalso. apply (In_Forall_absurd keyEventStep _ _ Hwait Hin). intros [].
Qed.

(** The loop below API level 21 makes its lookups: the one of the first key
    in any case, and when it runs to its end every key has been found and
    clicked.  When it falls back, the rest of the run is a run of
    [pinUnlockWithKeyEvent], whose outcome it returns. *)
Lemma clickKeys_progress capabilities keys w r w' tr :
  clickKeys capabilities keys w = (r, w', tr) ->
  (forall k rest, keys = k :: rest -> exists res, In (Called (keyLookup k) res) tr)
  /\ (r = inr None ->
      forall pin, In pin keys ->
        exists el, In (Called (keyLookup pin) (inr (VElement (Some el)))) tr
                   /\ In (Called (Click (unwrapElement (Some el))) (inr VUnit)) tr)
  /\ (fellBack tr ->
      exists pre w0 r0 t0,
        tr = pre ++ t0
        /\ pinUnlockWithKeyEvent capabilities w0 = (r0, w', t0)
        /\ r = match r0 with inl e => inl e | inr v => inr (Some v) end)
  /\ (forall v, r = inr (Some v) -> fellBack tr).
Proof.
  revert w tr. induction keys as [|pin keys IH]; intros w tr; cbn [clickKeys].
  { intros [= <- <- <-]. split; [|split; [|split]].
    - intros k rest [=].
    - intros _ pin [].
    - intros [].
    - intros v [=]. }
  intros Hrun.
  apply call_bind_inv in Hrun as [(e0 & -> & ->) | (v & w1 & t & -> & Hrun)].
  { split; [|split; [|split]].
    - intros k rest [= <- _]. eexists. left. reflexivity.
    - intros [=].
    - intros Hin. in_cases Hin.
    - intros v [=]. }
  destruct v as [el0|]; cbn [reify] in *.
  - apply call_bind_inv in Hrun as [(e0 & -> & ->) | ([] & w2 & t2 & -> & Hrun)].
    { split; [|split; [|split]].
      - intros k rest [= <- _]. eexists. left. reflexivity.
      - intros [=].
      - intros Hin. in_cases Hin.
      - intros v [=]. }
    destruct (IH _ _ Hrun) as (_ & Hall & Hfb & Hsome).
    split; [|split; [|split]].
    + intros k rest [= <- _]. eexists. left. reflexivity.
    + intros Hr pin' [<- | Hin].
      * exists el0. split; [left; reflexivity | right; left; reflexivity].
      * destruct (Hall Hr pin' Hin) as (el & H1 & H2).
        exists el. split; do 2 right; assumption.
    + intros Hin. in_cases Hin.
      destruct (Hfb Hin) as (pre & w0 & r0 & t0 & -> & Hkey & Hr).
      exists (Called (keyLookup pin) (inr (VElement (Some el0)))
              :: Called (Click (unwrapElement (Some el0))) (inr VUnit) :: pre), w0, r0, t0.
      split; [reflexivity | split; assumption].
    + intros v Hr. do 2 right. apply (Hsome v Hr).
  - assert (Hkey : exists r0 t0,
               pinUnlockWithKeyEvent capabilities w1 = (r0, w', t0) /\ t = t0
               /\ r = match r0 with inl e => inl e | inr v => inr (Some v) end).
    { apply bind_inv in Hrun
        as [(e0 & Hkey & ->) | (v & w2 & t1 & t2 & Hkey & [= <- <- <-] & ->)].
      - exists (inl e0), t. auto.
      - exists (inr v), t1. rewrite app_nil_r. auto. }
    destruct Hkey as (r0 & t0 & Hkey & -> & Hr).
    destruct (pinUnlockWithKeyEvent_trace _ _ _ _ _ Hkey) as (t' & Ht' & _).
    split; [|split; [|split]].
    + intros k rest [= <- _]. eexists. left. reflexivity.
    + intros Hnone. rewrite Hnone in Hr. destruct r0; discriminate Hr.
    + intros _. exists [Called (keyLookup pin) (inr (VElement None))], w1, r0, t0.
      split; [reflexivity | split; assumption].
    + intros _ _. right. rewrite Ht'. left. reflexivity.
Qed.

Lemma legacyPath_progress capabilities keys w r w' tr :
  legacyPath capabilities keys w = (r, w', tr) ->
  (forall k rest, keys = k :: rest -> exists res, In (Called (keyLookup k) res) tr)
  /\ (r = inr tt -> ~ fellBack tr ->
      forall pin, In pin keys ->
        exists el, In (Called (keyLookup pin) (inr (VElement (Some el)))) tr
                   /\ In (Called (Click (unwrapElement (Some el))) (inr VUnit)) tr)
  /\ (fellBack tr ->
      exists pre w0 t0,
        tr = pre ++ t0 /\ pinUnlockWithKeyEvent capabilities w0 = (r, w', t0)).
Proof.
  unfold legacyPath. intros Hrun.
  apply bind_inv in Hrun as [(e0 & Hkeys & ->) | (v & w1 & t1 & t2 & Hkeys & Hrest & ->)].
  { destruct (clickKeys_progress _ _ _ _ _ _ Hkeys) as (Hfirst & _ & Hfb & _).
    split; [exact Hfirst | split; [intros [=] |]].
    intros Hin. destruct (Hfb Hin) as (pre & w0 & r0 & t0 & -> & Hkey & Hr).
    exists pre, w0, t0. split; [reflexivity|].
    destruct r0 as [e|v]; [injection Hr as -> | discriminate Hr]. exact Hkey. }
  destruct (clickKeys_progress _ _ _ _ _ _ Hkeys) as (Hfirst & Hall & Hfb & Hsome).
  split; [|split].
  - intros k rest Hk. destruct (Hfirst k rest Hk) as [res Hres].
    exists res. apply in_or_app. now left.
  - intros _ Hnofb pin Hpin. destruct v as [v|].
    + exfalso. apply Hnofb. apply in_or_app. left. apply (Hsome v eq_refl).
    + destruct (Hall eq_refl pin Hpin) as (el & H1 & H2).
      exists el. split; apply in_or_app; now left.
  - intros Hin.
    assert (Hin1 : fellBack t1).
    { apply in_app_or in Hin as [Hin|Hin]; [exact Hin | exfalso].
      destruct v as [[]|]; [injection Hrest as <- <- <-; destruct Hin|].
      apply (proj2 (keyEventStep_entries _ (waitForUnlock_keyEventStep _ _ _ _ Hrest))), Hin. }
    destruct (Hfb Hin1) as (pre & w0 & r0 & t0 & -> & Hkey & Hr).
    destruct r0 as [e|v0]; [discriminate Hr | injection Hr as ->].
    injection Hrest as <- <- <-.
    exists pre, w0, t0. rewrite app_nil_r. split; [reflexivity|].
    destruct v0. exact Hkey.
Qed.

(** The ways a run of [pinUnlock] can go, up to the choice of a path. *)
Lemma pinUnlock_cases capabilities w r w' tr :
  pinUnlock capabilities w = (r, w', tr) ->
  let keys := stringKeyToArr capabilities.(unlockKey) in
  exists msg t,
    tr = Invoked M_pinUnlock :: Logged msg :: t
    /\ ((exists e, r = inl e /\ t = [Called DismissKeyguard (inl e)])
        \/ (exists e, r = inl e
              /\ t = [Called DismissKeyguard (inr VUnit); Called GetApiLevel (inl e)])
        \/ (exists n t',
              t = Called DismissKeyguard (inr VUnit)
                  :: Called GetApiLevel (inr (VInt n)) :: t'
              /\ ((21 <= n /\ exists e, r = inl e /\ t' = [Called digitTextLookup (inl e)])
                  \/ (21 <= n /\ exists w1 t'',
                        t' = Called digitTextLookup (inr (VElements [])) :: t''
                        /\ pinUnlockWithKeyEvent capabilities w1 = (r, w', t''))
                  \/ (21 <= n /\ exists els w1 t'',
                        els <> []
                        /\ t' = Called digitTextLookup (inr (VElements els)) :: t''
                        /\ elementPath els keys w1 = (r, w', t''))
                  \/ (n < 21 /\ exists w1, legacyPath capabilities keys w1 = (r, w', t'))))).
Proof.
  intros Hrun keys. subst keys. unfold pinUnlock in Hrun.
  apply enter_bind_inv in Hrun as (t0 & -> & Hrun).
  apply logger_bind_inv in Hrun as (t & -> & Hrun).
  eexists _, t. split; [reflexivity|].
  apply call_bind_inv in Hrun as [(e & -> & ->) | ([] & w1 & t1 & -> & Hrun)];
    [left; eauto|].
  apply call_bind_inv in Hrun as [(e & -> & ->) | (n & w2 & t2 & -> & Hrun)];
    [right; left; eauto|].
  right. right. exists n, t2. split; [reflexivity|].
  cbn [reify RespT] in *.
  destruct (21 <=? n) eqn:En.
  - apply Z.leb_le in En.
    apply (call_bind_inv digitTextLookup) in Hrun
      as [(e & -> & ->) | (els & w3 & t3 & -> & Hrun)];
      [left; eauto|].
    destruct els as [|el els].
    + right. left. eauto 10.
    + right. right. left. split; [exact En|].
      exists (el :: els), w3, t3. repeat split; [discriminate | exact Hrun].
  - apply Z.leb_gt in En. right. right. right. eauto.
Qed.
End Fallback.

Ltac absurd_in Hall Hin :=
  exfalso; apply (In_Forall_absurd _ _ _ Hall Hin); intros [].

Section FallbackTheorems.
Context `{Device}.

(** The lookups [pinUnlock] makes once the API level is known, and what a
    fallback leads to. *)
Lemma pinUnlock_progress capabilities w r w' tr :
  pinUnlock capabilities w = (r, w', tr) ->
  let keys := stringKeyToArr capabilities.(unlockKey) in
  (forall n, In (Called GetApiLevel (inr (VInt n))) tr -> 21 <= n ->
     exists res, In (Called digitTextLookup res) tr)
  /\ (forall n, In (Called GetApiLevel (inr (VInt n))) tr -> n < 21 ->
        forall k rest, keys = k :: rest -> exists res, In (Called (keyLookup k) res) tr)
  /\ (forall n, In (Called GetApiLevel (inr (VInt n))) tr -> n < 21 ->
        r = inr tt -> ~ fellBack tr ->
        forall pin, In pin keys ->
          exists el, In (Called (keyLookup pin) (inr (VElement (Some el)))) tr
                     /\ In (Called (Click (unwrapElement (Some el))) (inr VUnit)) tr)
  /\ (fellBack tr ->
      exists pre w0 t0,
        tr = pre ++ t0 /\ pinUnlockWithKeyEvent capabilities w0 = (r, w', t0)).
Proof.
  intros Hrun keys.
  destruct (pinUnlock_cases _ _ _ _ _ Hrun) as (msg & t & -> & Hcases).
  fold keys in Hcases. clear Hrun.
  destruct Hcases as [(e & -> & ->) | [(e & -> & ->) | (n & t' & -> & Hpaths)]].
  { split; [|split; [|split]].
    - intros n Hin. in_cases Hin.
    - intros n Hin. in_cases Hin.
    - intros n Hin. in_cases Hin.
    - intros Hin. in_cases Hin. }
  { split; [|split; [|split]].
    - intros n Hin. in_cases Hin.
    - intros n Hin. in_cases Hin.
    - intros n Hin. in_cases Hin.
    - intros Hin. in_cases Hin. }
  destruct Hpaths as [(Hn & e & -> & ->) | [(Hn & w1 & t'' & -> & Hkey)
                    | [(Hn & els & w1 & t'' & Hels & -> & Hpath) | (Hn & w1 & Hpath)]]].
  - split; [|split; [|split]].
    + intros n0 _ _. eexists. do 4 right. left. reflexivity.
    + intros n0 Hin Hlt. in_cases Hin. injection Hin as <-. lia.
    + intros n0 Hin Hlt. in_cases Hin. injection Hin as <-. lia.
    + intros Hin. in_cases Hin.
  - destruct (pinUnlockWithKeyEvent_trace _ _ _ _ _ Hkey) as (t3 & Ht3 & Hsteps).
    split; [|split; [|split]].
    + intros n0 _ _. eexists. do 4 right. left. reflexivity.
    + intros n0 Hin Hlt. in_cases Hin; [injection Hin as <-; lia|].
      rewrite Ht3 in Hin. in_cases Hin.
      absurd_in (List.Forall_impl _ keyEventStep_afterLookup Hsteps) Hin.
    + intros n0 Hin Hlt. in_cases Hin; [injection Hin as <-; lia|].
      rewrite Ht3 in Hin. in_cases Hin.
      absurd_in (List.Forall_impl _ keyEventStep_afterLookup Hsteps) Hin.
    + intros _.
      exists [Invoked M_pinUnlock; Logged msg; Called DismissKeyguard (inr VUnit);
              Called GetApiLevel (inr (VInt n));
              Called digitTextLookup (inr (VElements []))], w1, t''.
      split; [reflexivity | exact Hkey].
  - destruct (elementPath_trace _ _ _ _ _ _ Hpath) as [Hsteps Hclick].
    split; [|split; [|split]].
    + intros n0 _ _. eexists. do 4 right. left. reflexivity.
    + intros n0 Hin Hlt. in_cases Hin; [injection Hin as <-; lia|].
      absurd_in (List.Forall_impl _ clickStep_afterLookup Hsteps) Hin.
    + intros n0 Hin Hlt. in_cases Hin; [injection Hin as <-; lia|].
      absurd_in (List.Forall_impl _ clickStep_afterLookup Hsteps) Hin.
    + intros Hin. in_cases Hin.
      exfalso. apply (proj2 (clickStep_entries _ Hsteps)), Hin.
  - destruct (legacyPath_progress _ _ _ _ _ _ Hpath) as (Hfirst & Hall & Hfb).
    destruct (legacyPath_trace _ _ _ _ _ _ Hpath) as (Hafter & _).
    split; [|split; [|split]].
    + intros n0 Hin Hge. in_cases Hin; [injection Hin as <-; lia|].
      absurd_in Hafter Hin.
    + intros n0 _ _ k rest Hk. destruct (Hfirst k rest Hk) as [res Hres].
      exists res. now do 4 right.
    + intros n0 _ _ Hr Hnofb pin Hpin.
      destruct (Hall Hr) with (pin := pin) as (el & H1 & H2); [|exact Hpin|].
      * intros Hin. apply Hnofb. now do 4 right.
      * exists el. split; now do 4 right.
    + intros Hin. in_cases Hin.
      destruct (Hfb Hin) as (pre & w0 & t0 & -> & Hkey).
      exists (Invoked M_pinUnlock :: Logged msg :: Called DismissKeyguard (inr VUnit)
              :: Called GetApiLevel (inr (VInt n)) :: pre), w0, t0.
      split; [reflexivity | exact Hkey].
Qed.

(** When [pinUnlock] falls back: exactly on an absent keypad or key, never
    after a click that raised, at most once; and what the keycode path is
    made of. *)
Lemma pinUnlock_fallback_iff (capabilities : Capabilities) w r w' tr :
  pinUnlock capabilities w = (r, w', tr) ->
  let keys := stringKeyToArr capabilities.(unlockKey) in
  (forall n, In (Called GetApiLevel (inr (VInt n))) tr -> 21 <= n ->
     (fellBack tr <-> In (Called digitTextLookup (inr (VElements []))) tr))
  /\ (forall n, In (Called GetApiLevel (inr (VInt n))) tr -> n < 21 ->
        (fellBack tr <->
         exists pin, In pin keys
                     /\ In (Called (keyLookup pin) (inr (VElement None))) tr))
  /\ (fellBack tr -> exists n, In (Called GetApiLevel (inr (VInt n))) tr)
  /\ (forall el e, In (Called (Click el) (inl e)) tr -> r = inl e /\ ~ fellBack tr)
  /\ (keyEventEntries tr <= 1)%nat
  /\ (forall w0 r0 w0' tr0,
        pinUnlockWithKeyEvent capabilities w0 = (r0, w0', tr0) ->
        exists t, tr0 = Invoked M_pinUnlockWithKeyEvent :: t /\ Forall keyEventStep t).
Proof.
  intros Hrun keys.
  destruct (pinUnlock_cases _ _ _ _ _ Hrun) as (msg & t & -> & Hcases).
  fold keys in Hcases. clear Hrun.
  assert (Hone : forall w0 r0 w0' tr0,
             pinUnlockWithKeyEvent capabilities w0 = (r0, w0', tr0) ->
             exists t, tr0 = Invoked M_pinUnlockWithKeyEvent :: t /\ Forall keyEventStep t)
    by (intros; eapply pinUnlockWithKeyEvent_trace; eassumption).
  destruct Hcases as [(e & -> & ->) | [(e & -> & ->) | (n & t' & -> & Hpaths)]].
  { (* dismissKeyguard raised *)
    split; [|split; [|split; [|split; [|split]]]]; try exact Hone.
    - intros n Hin. in_cases Hin.
    - intros n Hin. in_cases Hin.
    - intros Hin. in_cases Hin.
    - intros el e0 Hin. in_cases Hin.
    - simpl. lia. }
  { (* getApiLevel raised *)
    split; [|split; [|split; [|split; [|split]]]]; try exact Hone.
    - intros n Hin. in_cases Hin.
    - intros n Hin. in_cases Hin.
    - intros Hin. in_cases Hin.
    - intros el e0 Hin. in_cases Hin.
    - simpl. lia. }
  destruct Hpaths as [(Hn & e & -> & ->) | [(Hn & w1 & t'' & -> & Hkey)
                    | [(Hn & els & w1 & t'' & Hels & -> & Hpath) | (Hn & w1 & Hpath)]]].
  - (* the lookup of the keypad raised *)
    split; [|split; [|split; [|split; [|split]]]]; try exact Hone.
    + intros n0 _ _. split; intros Hin; in_cases Hin.
    + intros n0 Hin Hlt. in_cases Hin. injection Hin as <-. lia.
    + intros Hin. in_cases Hin.
    + intros el e0 Hin. in_cases Hin.
    + simpl. lia.
  - (* no keypad element: fallback *)
    destruct (Hone _ _ _ _ Hkey) as (t3 & -> & Hsteps).
    destruct (keyEventStep_entries _ Hsteps) as [Hzero Hnofb].
    split; [|split; [|split; [|split; [|split]]]]; try exact Hone.
    + intros n0 _ _. split; intros _.
      * do 4 right. now left.
      * do 5 right. now left.
    + intros n0 Hin Hlt. in_cases Hin; [injection Hin as <-; lia|].
      absurd_in (List.Forall_impl _ keyEventStep_afterLookup Hsteps) Hin.
    + intros _. exists n. do 3 right. now left.
    + intros el e0 Hin. in_cases Hin. absurd_in Hsteps Hin.
    + cbn [keyEventEntries]. rewrite Hzero. lia.
  - (* the keypad is there: the element path *)
    destruct (elementPath_trace _ _ _ _ _ _ Hpath) as [Hsteps Hclick].
    destruct (clickStep_entries _ Hsteps) as [Hzero Hnofb].
    split; [|split; [|split; [|split; [|split]]]]; try exact Hone.
    + intros n0 _ _. split; intros Hin; in_cases Hin.
      * injection Hin as ->. now destruct Hels.
      * absurd_in Hsteps Hin.
    + intros n0 Hin Hlt. in_cases Hin; [injection Hin as <-; lia|].
      absurd_in (List.Forall_impl _ clickStep_afterLookup Hsteps) Hin.
    + intros Hin. in_cases Hin.
    + intros el e0 Hin. in_cases Hin. split; [apply (Hclick _ _ Hin)|].
      intros Hfb. in_cases Hfb.
    + cbn [keyEventEntries]. rewrite Hzero. lia.
  - (* below API level 21 *)
    destruct (legacyPath_trace _ _ _ _ _ _ Hpath)
      as (Hall & Hfb1 & Hfb2 & Hcount & Hclick).
    split; [|split; [|split; [|split; [|split]]]]; try exact Hone.
    + intros n0 Hin Hge. in_cases Hin; [injection Hin as <-; lia|].
      absurd_in Hall Hin.
    + intros n0 _ _. split.
      * intros Hin. in_cases Hin. destruct (Hfb1 Hin) as (pin & Hpin & Hev).
        exists pin. split; [exact Hpin|]. now do 4 right.
      * intros (pin & _ & Hin). in_cases Hin. do 4 right. apply (Hfb2 _ _ Hin).
    + intros _. exists n. do 3 right. now left.
    + intros el e0 Hin. in_cases Hin. destruct (Hclick _ _ Hin) as [Hr Hnofb].
      split; [exact Hr|]. intros Hfb. in_cases Hfb; try exact (Hnofb Hfb).
    + exact Hcount.
Qed.
(** C8: [pinUnlock] enters [pinUnlockWithKeyEvent] exactly when the
    elements it looks for are absent: on API level 21 and above, when the
    lookup of the keypad answers an empty list; below, when the lookup of
    some digit answers [null].  A click that raises ends [pinUnlock] with
    that error and without fallback.  The fallback is taken at most once,
    and [pinUnlockWithKeyEvent] itself only logs, dismisses the keyguard,
    sends key events and waits: it looks nothing up and enters no other
    executor.  The lookups are made: the one of the keypad on API level 21
    and above, the one of the first key below, and there a run that returns
    without fallback has found and clicked the element of every key.  After
    a fallback the rest of the run is a run of [pinUnlockWithKeyEvent],
    whose outcome is the outcome of [pinUnlock]. *)
Theorem C8_pinUnlock_fallback (capabilities : Capabilities) w r w' tr :
  pinUnlock capabilities w = (r, w', tr) ->
  let keys := stringKeyToArr capabilities.(unlockKey) in
  ((forall n, In (Called GetApiLevel (inr (VInt n))) tr -> 21 <= n ->
      (fellBack tr <-> In (Called digitTextLookup (inr (VElements []))) tr))
   /\ (forall n, In (Called GetApiLevel (inr (VInt n))) tr -> n < 21 ->
         (fellBack tr <->
          exists pin, In pin keys
                      /\ In (Called (keyLookup pin) (inr (VElement None))) tr))
   /\ (fellBack tr -> exists n, In (Called GetApiLevel (inr (VInt n))) tr)
   /\ (forall el e, In (Called (Click el) (inl e)) tr -> r = inl e /\ ~ fellBack tr)
   /\ (keyEventEntries tr <= 1)%nat
   /\ (forall w0 r0 w0' tr0,
         pinUnlockWithKeyEvent capabilities w0 = (r0, w0', tr0) ->
         exists t, tr0 = Invoked M_pinUnlockWithKeyEvent :: t /\ Forall keyEventStep t))
  /\ ((forall n, In (Called GetApiLevel (inr (VInt n))) tr -> 21 <= n ->
         exists res, In (Called digitTextLookup res) tr)
      /\ (forall n, In (Called GetApiLevel (inr (VInt n))) tr -> n < 21 ->
            forall k rest, keys = k :: rest ->
              exists res, In (Called (keyLookup k) res) tr)
      /\ (forall n, In (Called GetApiLevel (inr (VInt n))) tr -> n < 21 ->
            r = inr tt -> ~ fellBack tr ->
            forall pin, In pin keys ->
              exists el,
                In (Called (keyLookup pin) (inr (VElement (Some el)))) tr
                /\ In (Called (Click (unwrapElement (Some el))) (inr VUnit)) tr)
      /\ (fellBack tr ->
          exists pre w0 t0,
            tr = pre ++ t0 /\ pinUnlockWithKeyEvent capabilities w0 = (r, w', t0))).
Proof.
  intros Hrun keys. split.
  - apply (pinUnlock_fallback_iff capabilities w r w' tr Hrun).
  - apply (pinUnlock_progress capabilities w r w' tr Hrun).
Qed.
End FallbackTheorems.

(** ** A digit without an element *)

Section MissingDigit.
Context `{Device}.

(** The properties of [pins] after the first loop come from the texts read. *)
Lemma collectPins_lookup (els : list Element) (pins0 pins : gmap jsstring Element)
    (w w' : World) (tr : Trace) (pin : jsstring) :
  collectPins els pins0 w = (inr pins, w', tr) ->
  pins !! pin <> None ->
  pins0 !! pin <> None
  \/ exists el, In (Called (GetAttribute (str "text") el) (inr (VString pin))) tr.
Proof.
  revert pins0 w tr. induction els as [|el els IH]; intros pins0 w tr; cbn [collectPins].
  - intros [= <- <- <-] Hpin. now left.
  - intros Hrun Hpin.
    apply call_bind_inv in Hrun as [(e0 & [=] & _) | (text & w1 & t & -> & Hrun)].
    destruct (IH _ _ _ Hrun Hpin) as [Hins | (el' & Hin)].
    + destruct (decide (text = pin)) as [-> | Hne].
      * right. eexists. left. reflexivity.
      * left. now rewrite lookup_insert_ne in Hins.
    + right. exists el'. now right.
Qed.

(** A key without a property is clicked as [undefined], unless an earlier
    click has raised. *)
Lemma clickPins_undefined (pins : gmap jsstring Element) (keys : list jsstring)
    (w : World) (r : result unit) (w' : World) (tr : Trace) (pin : jsstring) :
  clickPins pins keys w = (r, w', tr) ->
  In pin keys -> pins !! pin = None ->
  (forall c e, In (Called c (inl e)) tr -> c = Click (unwrapElement None)) ->
  exists res, In (Called (Click (unwrapElement None)) res) tr.
Proof.
  revert w tr. induction keys as [|k keys IH]; intros w tr; cbn [clickPins].
  - intros _ [].
  - intros Hrun Hin Hpin Hraise.
    apply call_bind_inv in Hrun as [(e0 & -> & ->) | ([] & w1 & t & -> & Hrun)].
    + exists (inl e0). left.
      now rewrite (Hraise _ e0 (or_introl eq_refl)).
    + destruct Hin as [-> | Hin].
      * eexists. left. rewrite Hpin. reflexivity.
      * destruct (IH _ _ Hrun Hin Hpin) as [res Hres].
        { intros c e Hc. apply (Hraise c e). now right. }
        exists res. now right.
Qed.

(** C9: on API level 21 and above, when the keypad lookup answers a list
    that is not empty, [pinUnlock] does not fall back, and every error it
    ends with has been raised by one of its calls: it has none of its own
    for a digit without element.  For such a digit (no element read has it
    as text) the click is invoked on [util.unwrapElement(undefined)],
    provided no call other than a click on that reference has raised
    before. *)
Theorem C9_missing_digit_clicks_undefined (capabilities : Capabilities)
    w r w' tr n els :
  pinUnlock capabilities w = (r, w', tr) ->
  In (Called GetApiLevel (inr (VInt n))) tr -> 21 <= n ->
  In (Called digitTextLookup (inr (VElements els))) tr -> els <> [] ->
  ~ fellBack tr
  /\ (forall e, r = inl e -> exists c, In (Called c (inl e)) tr)
  /\ (forall pin, In pin (stringKeyToArr capabilities.(unlockKey)) ->
        (forall el text,
            In (Called (GetAttribute (str "text") el) (inr (VString text))) tr ->
            text <> pin) ->
        (forall c e, In (Called c (inl e)) tr -> c = Click (unwrapElement None)) ->
        exists res, In (Called (Click (unwrapElement None)) res) tr).
Proof.
  intros Hrun Hapi Hn Hfind Hels.
  split; [|split].
  2: { intros e ->. apply (pinUnlock_rfc _ _ _ _ _ Hrun). }
  all: destruct (pinUnlock_cases _ _ _ _ _ Hrun) as (msg & t & -> & Hcases);
    clear Hrun;
    destruct Hcases as [(e & -> & ->) | [(e & -> & ->) | (n0 & t' & -> & Hpaths)]];
    [in_cases Hapi | in_cases Hapi |].
  all: destruct Hpaths as [(Hn0 & e & -> & ->) | [(Hn0 & w1 & t'' & -> & Hkey)
                    | [(Hn0 & els0 & w1 & t'' & Hels0 & -> & Hpath) | (Hn0 & w1 & Hpath)]]].
  all: try (in_cases Hfind; fail).
  all: try (destruct (pinUnlockWithKeyEvent_trace _ _ _ _ _ Hkey) as (t3 & -> & Hsteps);
            in_cases Hfind; [injection Hfind as <-; now destruct Hels|];
            absurd_in Hsteps Hfind).
  all: try (destruct (legacyPath_trace _ _ _ _ _ _ Hpath) as (Hall & _);
            in_cases Hfind; absurd_in Hall Hfind).
  - (* no fallback on the element path *)
    destruct (elementPath_trace _ _ _ _ _ _ Hpath) as [Hsteps _].
    destruct (clickStep_entries _ Hsteps) as [_ Hnofb].
    intros Hfb. in_cases Hfb.
  - (* the click on [undefined] *)
    intros pin Hpin Htexts Hraise.
    unfold elementPath in Hpath.
    apply bind_inv in Hpath
      as [(e0 & Hcol & ->) | (pins & w2 & t1 & t2 & Hcol & Hrest & ->)].
    { exfalso. destruct (collectPins_rfc _ _ _ _ _ _ Hcol) as [c Hc].
      assert (Hc' : c = Click (unwrapElement None))
        by (apply (Hraise c e0); do 5 right; exact Hc).
      subst c.
      apply (In_Forall_absurd attributeStep _ _
               (collectPins_emits attributeStep els0 ∅ ltac:(intros; exact I) _ _ _ _ Hcol) Hc).
      intros []. }
    assert (Hnone : pins !! pin = None).
    { destruct (pins !! pin) as [el|] eqn:Elook; [|reflexivity]. exfalso.
      destruct (collectPins_lookup _ _ _ _ _ _ pin Hcol) as [Hempty | (el' & Hin)].
      - now rewrite Elook.
      - now rewrite lookup_empty in Hempty.
      - apply (Htexts el' pin); [|reflexivity].
        do 5 right. apply in_or_app. now left. }
    assert (Hclicks : exists t3 t4 r3 w3,
               t2 = t3 ++ t4
               /\ clickPins pins (stringKeyToArr capabilities.(unlockKey)) w2 = (r3, w3, t3)).
    { apply bind_inv in Hrest
        as [(e0 & Hclick & ->) | ([] & w3 & t3 & t4 & Hclick & _ & ->)].
      - exists t2, [], (inl e0), w'. now rewrite app_nil_r.
      - eauto 10. }
    destruct Hclicks as (t3 & t4 & r3 & w3 & -> & Hclick).
    destruct (clickPins_undefined _ _ _ _ _ _ pin Hclick Hpin Hnone) as [res Hres].
    { intros c e Hc. apply (Hraise c e). do 5 right.
      apply in_or_app. right. apply in_or_app. now left. }
    exists res. do 5 right. apply in_or_app. right. apply in_or_app. now left.
Qed.
End MissingDigit.

(** ** Concrete runs *)

(** A run, as the triple of its parts. *)
Lemma run_eta `{Device} {A} (run : result A * World * Trace) :
  run = (outcomeOf run, snd (fst run), traceOf run).
Proof. destruct run as [[r w] tr]. reflexivity. Qed.

Lemma C7_wake_up_failure_skips_restoration_witness :
  let run := @fastUnlock (scripted (with_failing keypad12 failing_cycleWakeUp)) pinOpts tt in
  let failed := @fastUnlock (scripted (with_failing keypad12 failing_dismissKeyguard))
                  pinOpts tt in
  (outcomeOf run = inl deviceError
   /\ callsOf (traceOf run)
      = [IsLockEnabled; ClearLockCredential (str "1234"); CycleWakeUp]
   /\ In (Called IsLockEnabled (inr (VBool true))) (traceOf run)
   /\ In (Called (ClearLockCredential (str "1234")) (inr VUnit)) (traceOf run)
   /\ forall ty cred res, ~ In (Called (SetLockCredential ty cred) res) (traceOf run))
  /\ (callsOf (traceOf failed)
      = [IsLockEnabled; ClearLockCredential (str "1234"); CycleWakeUp; DismissKeyguard;
         SetLockCredential (str "pin") (str "1234")]
      /\ (In (Called (SetLockCredential (str "pin") (str "1234")) (inr VUnit))
             (traceOf failed) ->
          outcomeOf failed = inl deviceError)).
Proof.
  intros run failed. split.
  - apply (proj1 (@C7_wake_up_failure_skips_restoration
                    (scripted (with_failing keypad12 failing_cycleWakeUp))
                    pinOpts tt _ _ _ (run_eta run)) deviceError).
    vm_compute. tauto.
  - apply (proj2 (@C7_wake_up_failure_skips_restoration
                    (scripted (with_failing keypad12 failing_dismissKeyguard))
                    pinOpts tt _ _ _ (run_eta failed)) deviceError).
    + vm_compute. tauto.
    + vm_compute. tauto.
Defined.

Lemma C8_pinUnlock_fallback_witness :
  let modern := @pinUnlock (scripted noKeypad) (pinCaps "12") tt in
  let old := @pinUnlock (scripted oldPhone) (pinCaps "12") tt in
  let broken := @pinUnlock (scripted (with_failing keypad12 failing_click)) (pinCaps "12") tt in
  (fellBack (traceOf modern)
   /\ exists pre w0 t0,
        traceOf modern = pre ++ t0
        /\ @pinUnlockWithKeyEvent (scripted noKeypad) (pinCaps "12") w0
           = (outcomeOf modern, snd (fst modern), t0))
  /\ (fellBack (traceOf old)
      /\ exists res, In (Called (keyLookup (str "1")) res) (traceOf old))
  /\ (outcomeOf broken = inl deviceError /\ ~ fellBack (traceOf broken)).
Proof.
  intros modern old broken.
  pose proof (@C8_pinUnlock_fallback (scripted noKeypad) (pinCaps "12") tt _ _ _
                (run_eta modern)) as [(Hm1 & _) (_ & _ & _ & Hm4)].
  pose proof (@C8_pinUnlock_fallback (scripted oldPhone) (pinCaps "12") tt _ _ _
                (run_eta old)) as [(_ & Ho2 & _) (_ & Ho3 & _)].
  pose proof (@C8_pinUnlock_fallback (scripted (with_failing keypad12 failing_click))
                (pinCaps "12") tt _ _ _ (run_eta broken)) as [(_ & _ & _ & Hb4 & _) _].
  assert (Hmodern : fellBack (traceOf modern)).
  { apply (Hm1 30); [vm_compute; tauto | lia | vm_compute; tauto]. }
  split; [split; [exact Hmodern | exact (Hm4 Hmodern)] | split].
  - split.
    + apply (Ho2 19); [vm_compute; tauto | lia |].
      exists (str "1"). split; vm_compute; tauto.
    + apply (Ho3 19 ltac:(vm_compute; tauto) ltac:(lia) (str "1") [str "2"] eq_refl).
  - apply (Hb4 (Some 1%nat) deviceError). vm_compute. tauto.
Defined.

Lemma C9_missing_digit_clicks_undefined_witness :
  let run := @pinUnlock (scripted keypad12) (pinCaps "13") tt in
  ~ fellBack (traceOf run)
  /\ (forall e, outcomeOf run = inl e -> exists c, In (Called c (inl e)) (traceOf run))
  /\ (exists res, In (Called (Click None) res) (traceOf run)).
Proof.
  intros run.
  destruct (@C9_missing_digit_clicks_undefined (scripted keypad12) (pinCaps "13") tt
              _ _ _ 30 [1%nat; 2%nat] (run_eta run))
    as (Hnofb & Hraise & Hclick).
  - vm_compute. tauto.
  - lia.
  - vm_compute. tauto.
  - discriminate.
  - split; [exact Hnofb|]. split; [exact Hraise|].
    apply (Hclick (str "3")).
    + vm_compute. tauto.
    + intros el text Hin. vm_compute in Hin.
      repeat (destruct Hin as [Hin|Hin]; [try discriminate Hin|]);
        try contradiction; injection Hin as _ <-; discriminate.
    + intros c e Hin. vm_compute in Hin.
      repeat (destruct Hin as [Hin|Hin]; [discriminate Hin|]). contradiction.
Defined.

(** * Further properties of the helpers *)

(** ** [stringKeyToArr] *)

Lemma filter_trimStart (s : jsstring) :
  List.filter non_whitespace (trimStart s) = List.filter non_whitespace s.
Proof.
  induction s as [|c s IH]; [reflexivity|].
  cbn [trimStart]. destruct (is_whitespace c) eqn:E; [|reflexivity].
  cbn [List.filter]. unfold non_whitespace at 2. rewrite E. exact IH.
Qed.

Lemma filter_trim (s : jsstring) :
  List.filter non_whitespace (trim s) = List.filter non_whitespace s.
Proof.
  unfold trim, trimEnd.
  rewrite List.filter_rev, filter_trimStart, <- List.filter_rev, rev_involutive.
  apply filter_trimStart.
Qed.

Lemma replace_runs_empty (s : jsstring) (in_run : bool) :
  replace_runs is_whitespace [] s in_run = List.filter non_whitespace s.
Proof.
  revert in_run. induction s as [|c s IH]; intros in_run; [reflexivity|].
  cbn [replace_runs List.filter]. unfold non_whitespace at 1.
  destruct (is_whitespace c); cbn [negb].
  - destruct in_run; cbn [app]; apply IH.
  - f_equal. apply IH.
Qed.

Lemma split_loop_units (c : code_unit) (r : jsstring) :
  forallb non_whitespace r = true ->
  split_loop [c] r false = map unit_string (c :: r).
Proof.
  revert c. induction r as [|d r IH]; intros c Hr; [reflexivity|].
  cbn [forallb] in Hr. apply andb_true_iff in Hr as [Hd Hr].
  unfold non_whitespace in Hd. apply negb_true_iff in Hd.
  cbn [split_loop]. rewrite Hd. cbn [map]. f_equal. apply (IH d Hr).
Qed.

Lemma split_ws_star_units (s : jsstring) :
  forallb non_whitespace s = true -> split_ws_star s = map unit_string s.
Proof.
  destruct s as [|c r]; [reflexivity|]. intros Hs.
  cbn [forallb] in Hs. apply andb_true_iff in Hs as [Hc Hr].
  unfold non_whitespace in Hc. apply negb_true_iff in Hc.
  unfold split_ws_star. cbn [split_loop]. rewrite Hc. apply (split_loop_units c r Hr).
Qed.

Lemma forallb_filter_self (f : code_unit -> bool) (s : jsstring) :
  forallb f (List.filter f s) = true.
Proof.
  induction s as [|c s IH]; [reflexivity|].
  cbn [List.filter]. destruct (f c) eqn:E; [|exact IH].
  cbn [forallb]. now rewrite E, IH.
Qed.

Lemma filter_all (f : code_unit -> bool) (s : jsstring) :
  forallb f s = true -> List.filter f s = s.
Proof.
  induction s as [|c s IH]; [reflexivity|]. cbn [forallb List.filter].
  intros Hall. apply andb_true_iff in Hall as [Hc Hs]. now rewrite Hc, IH.
Qed.

Lemma stringKeyToArr_Some (key : jsstring) :
  stringKeyToArr (Some key) = map unit_string (List.filter non_whitespace key).
Proof.
  unfold stringKeyToArr. cbn [String_of].
  rewrite replace_runs_empty, filter_trim.
  apply split_ws_star_units, forallb_filter_self.
Qed.

(** X1: [stringKeyToArr] gives the characters of the key that are not
    whitespace, in their order, each as a string of one code unit: whitespace
    is dropped wherever it stands, and [undefined] is read as the nine
    letters of its name. *)
Theorem stringKeyToArr_units (key : jsstring) :
  stringKeyToArr (Some key) = map unit_string (List.filter non_whitespace key)
  /\ stringKeyToArr None = map unit_string (str "undefined").
Proof. split; [apply stringKeyToArr_Some | reflexivity]. Qed.

(** ** [validateUnlockCapabilities] *)

Lemma str_eqb_eq (a b : jsstring) : str_eqb a b = true <-> a = b.
Proof.
  revert b. induction a as [|c a IH]; intros [|d b]; cbn [str_eqb];
    try (split; [discriminate | discriminate]); [tauto|].
  rewrite andb_true_iff, N.eqb_eq, IH. split; [intros [-> ->] | intros [= -> ->]]; tauto.
Qed.

Lemma str_eqb_refl (a : jsstring) : str_eqb a a = true.
Proof. now apply str_eqb_eq. Qed.

Lemma str_eqb_neq (a b : jsstring) : str_eqb a b = false <-> a <> b.
Proof.
  destruct (str_eqb a b) eqn:E.
  - apply str_eqb_eq in E. split; [discriminate | tauto].
  - split; [|reflexivity]. intros _ Heq. apply str_eqb_eq in Heq. congruence.
Qed.

Lemma existsb_str_eqb (t : jsstring) (l : list jsstring) :
  existsb (str_eqb t) l = true <-> In t l.
Proof.
  rewrite existsb_exists. split.
  - intros (u & Hu & E). apply str_eqb_eq in E. now subst.
  - intros Hin. exists t. split; [exact Hin | apply str_eqb_refl].
Qed.

(** The body of the validation once the type is a non-empty string. *)
Lemma validate_typed (key : option jsstring) (c : code_unit) (t : jsstring) :
  let type := c :: t in
  let caps := Some (capsOf key (Some type)) in
  validateUnlockCapabilities caps
  = if existsb (str_eqb type) [PIN_UNLOCK; PIN_UNLOCK_KEY_EVENT; FINGERPRINT_UNLOCK]
    then
      if negb (re_digits (lodash_trim key)) then
        inl (Error (str "Unlock key value " ++ quoted key
                    ++ str " must only consist of digits"))
      else inr caps
    else if str_eqb type PATTERN_UNLOCK then
      if negb (re_pattern (lodash_trim key)) then
        inl (Error (str "Unlock key value " ++ quoted key
                    ++ str " must only include from two to nine digits in range 1..9"))
      else if re_repeat (lodash_trim key) then
        inl (Error (str "Unlock key value " ++ quoted key
                    ++ str " must define a valid pattern where repeats are not allowed"))
      else inr caps
    else if str_eqb type PASSWORD_UNLOCK then
      if negb (re_dots 4 0 (String_of key)) then
        inl (Error (str "The minimum allowed length of unlock key value "
                    ++ quoted key ++ str " is 4 characters"))
      else inr caps
    else
      inl (Error (str "Invalid unlock type " ++ quoted (Some type) ++ str ". "
                  ++ str "Only the following unlock types are supported: "
                  ++ join (str ",") UNLOCK_TYPES)).
Proof. reflexivity. Qed.

(** X2: without a type, or with the empty string as type, the validation
    fails with the same message whatever the key is; so it does for absent
    capabilities. *)
Theorem validate_rejects_missing_type (key : option jsstring) :
  let missing := inl (Error (str "A non-empty unlock key value must be provided")) in
  validateUnlockCapabilities None = missing
  /\ validateUnlockCapabilities (Some (capsOf key None)) = missing
  /\ validateUnlockCapabilities (Some (capsOf key (Some []))) = missing.
Proof. repeat split. Qed.

(** X3: what the validation accepts it returns unchanged, and only
    capabilities whose type is one of the five unlock types are accepted. *)
Theorem validate_accepts_unchanged (caps r : option Capabilities) :
  validateUnlockCapabilities caps = inr r ->
  r = caps
  /\ exists c type, caps = Some c /\ c.(unlockType) = Some type /\ In type UNLOCK_TYPES.
Proof.
  destruct caps as [[key [[|c t]|]]|]; try discriminate.
  change {| unlockKey := key; unlockType := Some (c :: t) |}
    with (capsOf key (Some (c :: t))).
  rewrite validate_typed.
  destruct (existsb _ _) eqn:E1.
  { apply existsb_str_eqb in E1.
    destruct (negb _); [discriminate|]. intros [= <-]. split; [reflexivity|].
    eexists _, _. repeat split. unfold UNLOCK_TYPES. simpl in E1 |- *. tauto. }
  destruct (str_eqb (c :: t) PATTERN_UNLOCK) eqn:E2.
  { apply str_eqb_eq in E2.
    destruct (negb _); [discriminate|]. destruct (re_repeat _); [discriminate|].
    intros [= <-]. split; [reflexivity|].
    eexists _, _. repeat split. rewrite E2. unfold UNLOCK_TYPES. simpl. tauto. }
  destruct (str_eqb (c :: t) PASSWORD_UNLOCK) eqn:E3; [|discriminate].
  apply str_eqb_eq in E3.
  destruct (negb _); [discriminate|].
  intros [= <-]. split; [reflexivity|].
  eexists _, _. repeat split. rewrite E3. unfold UNLOCK_TYPES. simpl. tauto.
Qed.

Lemma validate_accepts_unchanged_witness :
  let caps := Some (capsOf (Some (str " 0042 ")) (Some FINGERPRINT_UNLOCK)) in
  caps = caps
  /\ exists c type, caps = Some c /\ c.(unlockType) = Some type /\ In type UNLOCK_TYPES.
Proof.
  intros caps. apply (validate_accepts_unchanged caps caps). reflexivity.
Defined.

(** X4: a type that is a non-empty string but none of the five is rejected,
    whatever the key, with a message that quotes it and lists the five. *)
Theorem validate_rejects_unknown_type (key : option jsstring) (type : jsstring) :
  type <> [] -> ~ In type UNLOCK_TYPES ->
  validateUnlockCapabilities (Some (capsOf key (Some type)))
  = inl (Error (str "Invalid unlock type '" ++ type ++ str "'. "
                ++ str "Only the following unlock types are supported: "
                ++ str "pin,pinWithKeyEvent,password,pattern,fingerprint")).
Proof.
  intros Hne Hnot. destruct type as [|c t]; [congruence|].
  rewrite validate_typed.
  assert (H1 : existsb (str_eqb (c :: t))
                 [PIN_UNLOCK; PIN_UNLOCK_KEY_EVENT; FINGERPRINT_UNLOCK] = false).
  { destruct (existsb _ _) eqn:E; [|reflexivity]. exfalso. apply Hnot.
    apply existsb_str_eqb in E. unfold UNLOCK_TYPES. simpl in E |- *. tauto. }
  assert (H2 : str_eqb (c :: t) PATTERN_UNLOCK = false).
  { apply str_eqb_neq. intros E. apply Hnot. rewrite E. unfold UNLOCK_TYPES. simpl. tauto. }
  assert (H3 : str_eqb (c :: t) PASSWORD_UNLOCK = false).
  { apply str_eqb_neq. intros E. apply Hnot. rewrite E. unfold UNLOCK_TYPES. simpl. tauto. }
  rewrite H1, H2, H3. unfold quoted. cbn [String_of].
  do 2 f_equal. change (str "Invalid unlock type '") with (str "Invalid unlock type " ++ str "'").
  rewrite <- !app_assoc. reflexivity.
Qed.

Lemma validate_rejects_unknown_type_witness :
  validateUnlockCapabilities (Some (capsOf (Some (str "1234")) (Some (str "PIN"))))
  = inl (Error (str "Invalid unlock type 'PIN'. Only the following unlock types are supported: pin,pinWithKeyEvent,password,pattern,fingerprint")).
Proof.
  apply (validate_rejects_unknown_type (Some (str "1234")) (str "PIN")).
  - discriminate.
  - unfold UNLOCK_TYPES. simpl. intros [H|[H|[H|[H|[H|[]]]]]]; discriminate H.
Defined.

Lemma is_digit_0_9_spec (c : code_unit) : is_digit_0_9 c = true <-> (48 <= c <= 57)%N.
Proof. unfold is_digit_0_9. rewrite andb_true_iff, !N.leb_le. tauto. Qed.

Lemma is_digit_1_9_spec (c : code_unit) : is_digit_1_9 c = true <-> (49 <= c <= 57)%N.
Proof. unfold is_digit_1_9. rewrite andb_true_iff, !N.leb_le. tauto. Qed.

Lemma forallb_Forall_In (f : code_unit -> bool) (P : code_unit -> Prop) (s : jsstring) :
  (forall c, f c = true <-> P c) -> (forallb f s = true <-> Forall P s).
Proof.
  intros Hf. rewrite forallb_forall, Forall_forall. split; intros Hall c Hc.
  - apply Hf, Hall. now apply list_elem_of_In.
  - apply Hf, Hall. now apply list_elem_of_In.
Qed.

Lemma re_digits_spec (s : jsstring) :
  re_digits s = true <-> s <> [] /\ Forall (fun c => (48 <= c <= 57)%N) s.
Proof.
  unfold re_digits. destruct s as [|c s].
  - split; [discriminate | intros [Hne _]; congruence].
  - rewrite (forallb_Forall_In _ _ _ is_digit_0_9_spec). split; [|tauto].
    intros Hall. split; [discriminate | exact Hall].
Qed.

(** X5: for the types [pin], [pinWithKeyEvent] and [fingerprint] the key is
    accepted exactly when, once trimmed, it is a non-empty string of decimal
    digits; whitespace around the digits is tolerated, an absent key is not. *)
Theorem validate_digit_key (key : option jsstring) (type : jsstring) :
  In type [PIN_UNLOCK; PIN_UNLOCK_KEY_EVENT; FINGERPRINT_UNLOCK] ->
  let caps := Some (capsOf key (Some type)) in
  (validateUnlockCapabilities caps = inr caps
   <-> exists k, key = Some k /\ trim k <> []
                 /\ Forall (fun c => (48 <= c <= 57)%N) (trim k))
  /\ (validateUnlockCapabilities caps <> inr caps ->
      validateUnlockCapabilities caps
      = inl (Error (str "Unlock key value " ++ quoted key
                    ++ str " must only consist of digits"))).
Proof.
  intros Htype caps. subst caps.
  assert (Hex : existsb (str_eqb type)
                  [PIN_UNLOCK; PIN_UNLOCK_KEY_EVENT; FINGERPRINT_UNLOCK] = true)
    by now apply existsb_str_eqb.
  assert (type <> []) as Hne
    by (intros ->; simpl in Htype; destruct Htype as [H|[H|[H|[]]]]; discriminate H).
  destruct type as [|c t]; [congruence|].
  rewrite validate_typed, Hex.
  destruct (re_digits (lodash_trim key)) eqn:E; cbn [negb].
  - apply re_digits_spec in E. split; [|intros Hc; now destruct Hc]. split; [|reflexivity].
    intros _. destruct key as [k|]; [eauto | destruct E as [E _]; now destruct E].
  - split; [|reflexivity]. split; [discriminate|].
    intros (k & -> & Hk). apply re_digits_spec in Hk. cbn [lodash_trim] in E. congruence.
Qed.

Lemma validate_digit_key_witness :
  let caps := Some (capsOf (Some (str " 0042 ")) (Some PIN_UNLOCK_KEY_EVENT)) in
  validateUnlockCapabilities caps = inr caps.
Proof.
  intros caps.
  apply (proj1 (validate_digit_key (Some (str " 0042 ")) PIN_UNLOCK_KEY_EVENT
                  ltac:(right; left; reflexivity))).
  exists (str " 0042 "). split; [reflexivity|]. split; [discriminate|].
  vm_compute. repeat constructor; discriminate.
Defined.

(** *** The pattern key *)

Lemma occurs_on_line_In (c : code_unit) (s : jsstring) :
  forallb (fun d => negb (is_line_terminator d)) s = true ->
  (occurs_on_line c s = true <-> In c s).
Proof.
  induction s as [|d s IH]; cbn [forallb occurs_on_line In].
  - intros _. split; [discriminate | tauto].
  - intros Hall. apply andb_true_iff in Hall as [Hd Hs].
    apply negb_true_iff in Hd. rewrite Hd.
    destruct (d =? c)%N eqn:E.
    + apply N.eqb_eq in E. tauto.
    + apply N.eqb_neq in E. rewrite (IH Hs). tauto.
Qed.

Lemma digit_1_9_not_terminator (c : code_unit) :
  is_digit_1_9 c = true -> negb (is_line_terminator c) = true.
Proof.
  rewrite is_digit_1_9_spec. intros Hc. unfold is_line_terminator.
  rewrite negb_true_iff, !orb_false_iff, !N.eqb_neq. lia.
Qed.

(** The scan with a backreference finds a repeat exactly when the digits
    are not all different. *)
Lemma re_repeat_NoDup (s : jsstring) :
  forallb is_digit_1_9 s = true -> (re_repeat s = false <-> NoDup s).
Proof.
  induction s as [|c s IH]; cbn [forallb re_repeat].
  - intros _. split; [constructor | reflexivity].
  - intros Hall. apply andb_true_iff in Hall as [Hc Hs].
    rewrite Hc. cbn [andb]. rewrite orb_false_iff, (IH Hs), NoDup_cons.
    assert (Hline : forallb (fun d => negb (is_line_terminator d)) s = true).
    { apply forallb_forall. intros d Hd. apply digit_1_9_not_terminator.
      apply (proj1 (forallb_forall _ _) Hs d Hd). }
    rewrite list_elem_of_In, <- (occurs_on_line_In c s Hline).
    destruct (occurs_on_line c s); split; intros [H1 H2]; split;
      congruence || assumption || discriminate.
Qed.

Lemma pattern_key_accepted (key : option jsstring) :
  let caps := Some (capsOf key (Some PATTERN_UNLOCK)) in
  validateUnlockCapabilities caps = inr caps
  <-> exists k, key = Some k
                /\ (2 <= length (trim k) <= 9)%nat
                /\ Forall (fun c => (49 <= c <= 57)%N) (trim k)
                /\ NoDup (trim k).
Proof.
  intros caps. subst caps. unfold PATTERN_UNLOCK at 1 2. cbn [str].
  rewrite validate_typed.
  change (existsb _ _) with false. change (str_eqb _ PATTERN_UNLOCK) with true. cbv iota.
  unfold re_pattern.
  destruct (forallb is_digit_1_9 (lodash_trim key)) eqn:Edig; cbn [andb negb].
  - destruct ((2 <=? length (lodash_trim key))%nat) eqn:E2; cbn [andb negb].
    + destruct ((length (lodash_trim key) <=? 9)%nat) eqn:E9; cbn [andb negb].
      * apply Nat.leb_le in E2, E9.
        destruct (re_repeat (lodash_trim key)) eqn:Erep.
        -- split; [discriminate|]. intros (k & -> & _ & _ & Hnd).
           cbn [lodash_trim] in *.
           apply (re_repeat_NoDup _ Edig) in Hnd. congruence.
        -- split; [|reflexivity]. intros _.
           destruct key as [k|]; [|simpl in E2; lia]. exists k.
           cbn [lodash_trim] in *. repeat split; try assumption.
           ++ now apply (forallb_Forall_In _ _ _ is_digit_1_9_spec).
           ++ now apply re_repeat_NoDup.
      * split; [discriminate|]. intros (k & -> & [_ Hlen] & _).
        apply Nat.leb_gt in E9. cbn [lodash_trim] in E9. lia.
    + split; [discriminate|]. intros (k & -> & [Hlen _] & _).
      apply Nat.leb_gt in E2. cbn [lodash_trim] in E2. lia.
  - split; [discriminate|]. intros (k & -> & _ & Hdig & _).
    apply (forallb_Forall_In _ _ _ is_digit_1_9_spec) in Hdig.
    cbn [lodash_trim] in Edig. congruence.
Qed.

(** X6: a pattern key is accepted exactly when, once trimmed, it has from
    two to nine characters, all digits 1 to 9, and no digit twice. *)
Theorem validate_pattern_key (key : option jsstring) :
  let caps := Some (capsOf key (Some PATTERN_UNLOCK)) in
  validateUnlockCapabilities caps = inr caps
  <-> exists k, key = Some k
                /\ (2 <= length (trim k) <= 9)%nat
                /\ Forall (fun c => (49 <= c <= 57)%N) (trim k)
                /\ NoDup (trim k).
Proof. exact (pattern_key_accepted key). Qed.

(** ** [encodePassword] *)

Lemma replace_each_whitespace_free (s : jsstring) :
  forallb non_whitespace (replace_each is_whitespace (str "%s") s) = true.
Proof.
  induction s as [|c s IH]; [reflexivity|]. cbn [replace_each].
  destruct (is_whitespace c) eqn:E.
  - exact IH.
  - cbn [app forallb]. unfold non_whitespace at 1. now rewrite E, IH.
Qed.

Lemma replace_each_length (s : jsstring) :
  length (replace_each is_whitespace (str "%s") s) = (length s + whitespaceCount s)%nat.
Proof.
  induction s as [|c s IH]; [reflexivity|]. cbn [replace_each whitespaceCount].
  rewrite length_app, IH. destruct (is_whitespace c); simpl; lia.
Qed.

(** X7: the encoded password has no whitespace left, and is longer than the
    key by one character for each whitespace character of the key. *)
Theorem encodePassword_no_whitespace (key : jsstring) :
  forallb non_whitespace (encodePassword (Some key)) = true
  /\ length (encodePassword (Some key)) = (length key + whitespaceCount key)%nat.
Proof.
  split; [apply replace_each_whitespace_free | apply replace_each_length].
Qed.

(** X8: the encoding does not tell a whitespace character from the two
    characters [%s] written in the key: both keys give the same text.  So all
    kinds of whitespace are sent alike, and a key with a literal [%s] is sent
    like the key with a blank there. *)
Theorem encodePassword_confuses_percent_s (pre post : jsstring) (c : code_unit) :
  is_whitespace c = true ->
  encodePassword (Some (pre ++ [c] ++ post))
  = encodePassword (Some (pre ++ str "%s" ++ post)).
Proof.
  intros Hc. unfold encodePassword. cbn [String_of].
  rewrite !replace_each_app. cbn [replace_each]. rewrite Hc. reflexivity.
Qed.

Lemma encodePassword_confuses_percent_s_witness :
  encodePassword (Some (str "pass word")) = encodePassword (Some (str "pass%sword")).
Proof.
  exact (encodePassword_confuses_percent_s (str "pass") (str "word") 32%N eq_refl).
Defined.

(** ** From an accepted pattern key to its gesture *)

Lemma parseInt_digit (c : code_unit) :
  is_digit_0_9 c = true ->
  parseInt [c] 0 = Some (digit_of c) /\ parseInt [c] 10 = Some (digit_of c).
Proof.
  rewrite is_digit_0_9_spec. intros Hc.
  assert (E : (c = 48 \/ c = 49 \/ c = 50 \/ c = 51 \/ c = 52 \/ c = 53 \/ c = 54
               \/ c = 55 \/ c = 56 \/ c = 57)%N) by lia.
  repeat (destruct E as [E | E]; [subst c; split; reflexivity|]).
  subst c. split; reflexivity.
Qed.

Lemma parseInt_number_digit (c : code_unit) :
  is_digit_0_9 c = true -> parseInt_number [c] 0 = num_of_Z (digit_of c).
Proof.
  rewrite is_digit_0_9_spec. intros Hc.
  assert (E : (c = 48 \/ c = 49 \/ c = 50 \/ c = 51 \/ c = 52 \/ c = 53 \/ c = 54
               \/ c = 55 \/ c = 56 \/ c = 57)%N) by lia.
  repeat (destruct E as [E | E]; [subst c; vm_compute; reflexivity|]).
  subst c. vm_compute. reflexivity.
Qed.

Lemma digit_1_9_is_digit (c : code_unit) : is_digit_1_9 c = true -> is_digit_0_9 c = true.
Proof. rewrite is_digit_1_9_spec, is_digit_0_9_spec. lia. Qed.

Lemma digit_not_whitespace (c : code_unit) : is_digit_0_9 c = true -> non_whitespace c = true.
Proof.
  rewrite is_digit_0_9_spec. intros Hc. unfold non_whitespace, is_whitespace.
  rewrite negb_true_iff, !orb_false_iff, !andb_false_iff, !N.eqb_neq, !N.leb_gt. lia.
Qed.

(** A key whose trimmed form is made of digits splits into these digits. *)
Lemma stringKeyToArr_digits (key : jsstring) :
  forallb is_digit_0_9 (trim key) = true ->
  stringKeyToArr (Some key) = map unit_string (trim key).
Proof.
  intros Hdig. rewrite stringKeyToArr_Some, <- filter_trim. f_equal.
  apply filter_all, forallb_forall. intros c Hc.
  apply digit_not_whitespace, (proj1 (forallb_forall _ _) Hdig c Hc).
Qed.

Lemma coerce_digit_strings (s : jsstring) :
  forallb is_digit_0_9 s = true ->
  map coerceKey (map KStr (map unit_string s)) = map num_of_Z (map digit_of s).
Proof.
  induction s as [|c s IH]; [reflexivity|]. cbn [forallb map].
  intros Hall. apply andb_true_iff in Hall as [Hc Hs].
  rewrite (IH Hs). f_equal. unfold unit_string. cbn [coerceKey].
  apply (parseInt_number_digit c Hc).
Qed.

Lemma digit_of_NoDup (s : jsstring) : NoDup s -> NoDup (map digit_of s).
Proof.
  intros Hnd. apply NoDup_fmap_2; [|exact Hnd].
  intros a b Hab. unfold digit_of in Hab. lia.
Qed.

Lemma digit_of_is_digit (s : jsstring) :
  forallb is_digit_1_9 s = true -> Forall is_digit (map digit_of s).
Proof.
  intros Hall. apply Forall_forall. intros d Hd.
  apply list_elem_of_In, in_map_iff in Hd as (c & <- & Hc).
  apply (proj1 (forallb_forall _ _) Hall), is_digit_1_9_spec in Hc.
  unfold is_digit, digit_of. lia.
Qed.

(** The gesture for keys that coerce to distinct numbers. *)
Lemma distinct_digits_gesture (keys : list key) (ds : list Z) (initPos : Position)
    (piece : number) :
  map coerceKey keys = map num_of_Z ds -> NoDup ds -> (1 <= length ds)%nat ->
  exists p moves,
    getPatternActions keys initPos piece = inr (press p :: moves ++ [release])
    /\ length moves = (length ds - 1)%nat
    /\ forallb is_moveTo moves = true.
Proof.
  intros Hkeys Hnd Hlen.
  destruct ds as [|d ds]; [simpl in Hlen; lia|].
  cbn [map] in Hkeys. eexists _, _. split; [|split].
  - apply (getPatternActions_gesture _ _ _ _ _ Hkeys). apply num_seq_refl.
  - rewrite gestureTail_length, length_map. simpl. lia.
  - apply gestureTail_moves, digits_after_first, Hnd.
Qed.

Lemma accepted_pattern_gesture (key : jsstring) (initPos : Position)
    (piece : number) :
  let caps := Some (capsOf (Some key) (Some PATTERN_UNLOCK)) in
  validateUnlockCapabilities caps = inr caps ->
  exists p moves,
    getPatternActions (map KStr (stringKeyToArr (Some key))) initPos piece
    = inr (press p :: moves ++ [release])
    /\ length moves = (length (trim key) - 1)%nat
    /\ forallb is_moveTo moves = true.
Proof.
  intros caps Hok.
  apply pattern_key_accepted in Hok as (k & [= <-] & [Hlen _] & Hdig & Hnd).
  apply (forallb_Forall_In _ _ _ is_digit_1_9_spec) in Hdig.
  assert (Hdig0 : forallb is_digit_0_9 (trim key) = true).
  { apply forallb_forall. intros c Hc.
    apply digit_1_9_is_digit, (proj1 (forallb_forall _ _) Hdig c Hc). }
  rewrite (stringKeyToArr_digits key Hdig0).
  destruct (distinct_digits_gesture (map KStr (map unit_string (trim key)))
              (map digit_of (trim key)) initPos piece) as (p & moves & Hact & Hmoves & Hall).
  - apply coerce_digit_strings, Hdig0.
  - apply digit_of_NoDup, Hnd.
  - rewrite length_map. lia.
  - exists p, moves. rewrite length_map in Hmoves. auto.
Qed.


(** X9: for every pattern key the validation accepts, the keys that
    [patternUnlock] computes from it give a gesture without error, for any
    origin and cell size: a press, one move for each further digit of the
    trimmed key, and a release. *)
Theorem accepted_pattern_key_gesture (key : jsstring) (initPos : Position)
    (piece : number) :
  let caps := Some (capsOf (Some key) (Some PATTERN_UNLOCK)) in
  validateUnlockCapabilities caps = inr caps ->
  exists p moves,
    getPatternActions (map KStr (stringKeyToArr (Some key))) initPos piece
    = inr (press p :: moves ++ [release])
    /\ length moves = (length (trim key) - 1)%nat
    /\ forallb is_moveTo moves = true.
Proof. exact (accepted_pattern_gesture key initPos piece). Qed.

Lemma accepted_pattern_key_gesture_witness :
  exists p moves,
    getPatternActions (map KStr (stringKeyToArr (Some (str " 7298 "))))
                      (origin 10 20) (num_of_Z 40)
    = inr (press p :: moves ++ [release])
    /\ length moves = 3%nat
    /\ forallb is_moveTo moves = true.
Proof.
  apply (accepted_pattern_key_gesture (str " 7298 ") (origin 10 20) (num_of_Z 40)).
  reflexivity.
Defined.

(** ** More on the geometry *)




Lemma denotes_equiv_inv (a b : number) (x y : Q) :
  denotes a x -> denotes b y -> num_equiv a b -> (x == y)%Q.
Proof.
  intros [Fa Ea] [Fb Eb].
  destruct a, b; simpl in *; try contradiction; intros E; lra.
Qed.

(** The rounded centre of a cell stays in the cell when the cell is at least
    one unit wide. *)
Lemma spec_round_in_cell (o c : Z) (p : Q) :
  (1 <= p)%Q ->
  let X := spec_round (inject_Z o + inject_Z c * p - p / 2) in
  (inject_Z o + inject_Z c * p - p <= inject_Z X)%Q
  /\ (inject_Z X <= inject_Z o + inject_Z c * p)%Q.
Proof.
  intros Hp X. subst X. unfold spec_round.
  set (u := (inject_Z o + inject_Z c * p - p / 2 + (1 # 2))%Q).
  pose proof (Qfloor_le u) as Hlo. pose proof (Qlt_floor u) as Hhi.
  rewrite inject_Z_plus in Hhi. change (inject_Z 1) with 1%Q in Hhi.
  assert (Hu : (u == inject_Z o + inject_Z c * p - p * (1 # 2) + (1 # 2))%Q)
    by (unfold u; field).
  set (cp := (inject_Z c * p)%Q) in *.
  split; lra.
Qed.

(** X11: with an integer origin within [2 ^ 30] and a cell size from 1 to
    [2 ^ 29] that has at most 20 binary places, so that the arithmetic is
    exact, the point of a digit lies in the cell of the digit: between the
    left and the right edge of its column and between the upper and the
    lower edge of its row, hence inside the view of three by three cells. *)
Theorem key_position_in_cell (d ox oy : Z) (cellSize : Q) :
  is_digit d -> Z.abs ox <= 2 ^ 30 -> Z.abs oy <= 2 ^ 30 ->
  (1 <= cellSize <= inject_Z (2 ^ 29))%Q ->
  (exists m : Z, (cellSize == inject_Z m / 2 ^ 20)%Q) ->
  exists X Y : Z,
    pos_equiv (getPatternKeyPosition (num_of_Z d) (origin ox oy) (Num cellSize))
              {| x := num_of_Z X; y := num_of_Z Y |}
    /\ (inject_Z ox + inject_Z (spec_column d - 1) * cellSize <= inject_Z X
        <= inject_Z ox + inject_Z (spec_column d) * cellSize)%Q
    /\ (inject_Z oy + inject_Z (spec_row d - 1) * cellSize <= inject_Z Y
        <= inject_Z oy + inject_Z (spec_row d) * cellSize)%Q
    /\ (inject_Z ox <= inject_Z X <= inject_Z ox + 3 * cellSize)%Q
    /\ (inject_Z oy <= inject_Z Y <= inject_Z oy + 3 * cellSize)%Q.
Proof.
  intros Hd Hox Hoy [Hp Hpmax] Hm.
  destruct (getPatternKeyPosition_exact d ox oy cellSize Hd Hox Hoy) as [Dx Dy];
    [split; [lra | exact Hpmax] | exact Hm |].
  eexists _, _. split.
  { split; cbn [x y]; (eapply denotes_equiv; [eassumption | apply denotes_of_Z]). }
  destruct (spec_round_in_cell ox (spec_column d) cellSize Hp) as [Hx1 Hx2].
  destruct (spec_round_in_cell oy (spec_row d) cellSize Hp) as [Hy1 Hy2].
  pose proof (spec_column_range d) as Hc. pose proof (spec_row_range d Hd) as Hr.
  assert (Hcq : (1 <= inject_Z (spec_column d) <= 3)%Q)
    by (split; [change 1%Q with (inject_Z 1) | change 3%Q with (inject_Z 3)];
        rewrite <- Zle_Qle; lia).
  assert (Hrq : (1 <= inject_Z (spec_row d) <= 3)%Q)
    by (split; [change 1%Q with (inject_Z 1) | change 3%Q with (inject_Z 3)];
        rewrite <- Zle_Qle; lia).
  assert (Hsub : forall a : Z, (inject_Z (a - 1) == inject_Z a - 1)%Q).
  { intros a. unfold Z.sub. rewrite inject_Z_plus. reflexivity. }
  rewrite !Hsub.
  set (X := spec_round (inject_Z ox + _ - _)) in *.
  set (Y := spec_round (inject_Z oy + _ - _)) in *.
  set (c := inject_Z (spec_column d)) in *. set (r := inject_Z (spec_row d)) in *.
  assert (Hcp : (cellSize <= c * cellSize <= 3 * cellSize)%Q) by (split; nra).
  assert (Hrp : (cellSize <= r * cellSize <= 3 * cellSize)%Q) by (split; nra).
  assert (Hc1 : ((c - 1) * cellSize == c * cellSize - cellSize)%Q) by ring.
  assert (Hr1 : ((r - 1) * cellSize == r * cellSize - cellSize)%Q) by ring.
  rewrite Hc1, Hr1.
  set (cp := (c * cellSize)%Q) in *. set (rp := (r * cellSize)%Q) in *.
  repeat split; lra.
Qed.

Lemma key_position_in_cell_witness :
  exists X Y : Z,
    pos_equiv (getPatternKeyPosition (num_of_Z 6) (origin 33 323) (Num (275 # 2)))
              {| x := num_of_Z X; y := num_of_Z Y |}
    /\ (inject_Z 33 + inject_Z (spec_column 6 - 1) * (275 # 2) <= inject_Z X
        <= inject_Z 33 + inject_Z (spec_column 6) * (275 # 2))%Q
    /\ (inject_Z 323 + inject_Z (spec_row 6 - 1) * (275 # 2) <= inject_Z Y
        <= inject_Z 323 + inject_Z (spec_row 6) * (275 # 2))%Q
    /\ (inject_Z 33 <= inject_Z X <= inject_Z 33 + 3 * (275 # 2))%Q
    /\ (inject_Z 323 <= inject_Z Y <= inject_Z 323 + 3 * (275 # 2))%Q.
Proof.
  apply (key_position_in_cell 6 33 323 (275 # 2)).
  - unfold is_digit. lia.
  - vm_compute. discriminate.
  - vm_compute. discriminate.
  - split; vm_compute; discriminate.
  - exists (275 * 2 ^ 19). reflexivity.
Defined.

Lemma spec_round_strict (o c1 c2 : Z) (p : Q) :
  (1 <= p)%Q -> c1 < c2 ->
  spec_round (inject_Z o + inject_Z c1 * p - p / 2)
  < spec_round (inject_Z o + inject_Z c2 * p - p / 2).
Proof.
  intros Hp Hc. unfold spec_round.
  set (u1 := (inject_Z o + inject_Z c1 * p - p / 2 + (1 # 2))%Q).
  set (u2 := (inject_Z o + inject_Z c2 * p - p / 2 + (1 # 2))%Q).
  pose proof (Qfloor_le u1) as Hlo. pose proof (Qlt_floor u2) as Hhi.
  rewrite inject_Z_plus in Hhi. change (inject_Z 1) with 1%Q in Hhi.
  assert (Hc' : (inject_Z c1 + 1 <= inject_Z c2)%Q).
  { change 1%Q with (inject_Z 1). rewrite <- inject_Z_plus, <- Zle_Qle. lia. }
  assert (Hu : (u1 + 1 <= u2)%Q).
  { unfold u1, u2.
    assert (inject_Z c1 * p + p <= inject_Z c2 * p)%Q by nra.
    set (a := (inject_Z c1 * p)%Q) in *. set (b := (inject_Z c2 * p)%Q) in *.
    set (h := (p / 2)%Q). lra. }
  rewrite Zlt_Qlt. lra.
Qed.

Lemma digit_from_column_row (d : Z) :
  is_digit d -> d = 3 * (spec_row d - 1) + spec_column d.
Proof. intros Hd. unfold is_digit in Hd. digit_cases d Hd; reflexivity. Qed.

(** X12: with an integer origin within [2 ^ 30] and a cell size from 1 to
    [2 ^ 29] that has at most 20 binary places, so that the arithmetic is
    exact, two different digits never get the same point. *)
Theorem key_positions_distinct (d1 d2 ox oy : Z) (cellSize : Q) :
  is_digit d1 -> is_digit d2 -> d1 <> d2 ->
  Z.abs ox <= 2 ^ 30 -> Z.abs oy <= 2 ^ 30 ->
  (1 <= cellSize <= inject_Z (2 ^ 29))%Q ->
  (exists m : Z, (cellSize == inject_Z m / 2 ^ 20)%Q) ->
  ~ pos_equiv (getPatternKeyPosition (num_of_Z d1) (origin ox oy) (Num cellSize))
              (getPatternKeyPosition (num_of_Z d2) (origin ox oy) (Num cellSize)).
Proof.
  intros H1 H2 Hne Hox Hoy [Hp Hpmax] Hm [Hx Hy].
  assert (Hc : (0 < cellSize <= inject_Z (2 ^ 29))%Q) by (split; [lra | exact Hpmax]).
  destruct (getPatternKeyPosition_exact d1 ox oy cellSize H1 Hox Hoy Hc Hm) as [D1x D1y].
  destruct (getPatternKeyPosition_exact d2 ox oy cellSize H2 Hox Hoy Hc Hm) as [D2x D2y].
  pose proof (denotes_equiv_inv _ _ _ _ D1x D2x Hx) as Ex.
  pose proof (denotes_equiv_inv _ _ _ _ D1y D2y Hy) as Ey.
  apply (proj1 (inject_Z_injective _ _)) in Ex.
  apply (proj1 (inject_Z_injective _ _)) in Ey.
  assert (Hcol : spec_column d1 = spec_column d2).
  { destruct (Z.lt_trichotomy (spec_column d1) (spec_column d2)) as [Hlt | [Heq | Hgt]];
      [| exact Heq |].
    - pose proof (spec_round_strict ox _ _ cellSize Hp Hlt). lia.
    - pose proof (spec_round_strict ox _ _ cellSize Hp Hgt). lia. }
  assert (Hrow : spec_row d1 = spec_row d2).
  { destruct (Z.lt_trichotomy (spec_row d1) (spec_row d2)) as [Hlt | [Heq | Hgt]];
      [| exact Heq |].
    - pose proof (spec_round_strict oy _ _ cellSize Hp Hlt). lia.
    - pose proof (spec_round_strict oy _ _ cellSize Hp Hgt). lia. }
  apply Hne. rewrite (digit_from_column_row d1 H1), (digit_from_column_row d2 H2).
  now rewrite Hcol, Hrow.
Qed.

Lemma key_positions_distinct_witness :
  ~ pos_equiv (getPatternKeyPosition (num_of_Z 4) (origin 0 0) (Num 1))
              (getPatternKeyPosition (num_of_Z 7) (origin 0 0) (Num 1)).
Proof.
  apply (key_positions_distinct 4 7 0 0 1).
  - unfold is_digit. lia.
  - unfold is_digit. lia.
  - lia.
  - vm_compute. discriminate.
  - vm_compute. discriminate.
  - split; vm_compute; discriminate.
  - exists (2 ^ 20). reflexivity.
Defined.

(** For a cell narrower than one unit the rounding can merge two digits, and
    so can the rounding of the arithmetic far from the origin of the screen:
    at [2 ^ 54] the digits 1, 2, 4 and 5 get the same point. *)
Example key_positions_merge_small_cell :
  getPatternKeyPosition (num_of_Z 1) (origin 0 0) (Num (1 # 8))
  = getPatternKeyPosition (num_of_Z 2) (origin 0 0) (Num (1 # 8)).
Proof. vm_compute. reflexivity. Qed.

Example key_positions_merge_far_away :
  let far := origin (2 ^ 54) (2 ^ 54) in
  getPatternKeyPosition (num_of_Z 1) far (num_of_Z 1)
  = getPatternKeyPosition (num_of_Z 5) far (num_of_Z 1)
  /\ getPatternKeyPosition (num_of_Z 2) far (num_of_Z 1)
     = getPatternKeyPosition (num_of_Z 4) far (num_of_Z 1)
  /\ getPatternKeyPosition (num_of_Z 1) far (num_of_Z 1)
     = getPatternKeyPosition (num_of_Z 2) far (num_of_Z 1).
Proof. repeat split; vm_compute; reflexivity. Qed.

(** *** Integer cell sizes *)

Lemma lookup_pair_split {A} (l : list A) (i : nat) (a b : A) :
  l !! i = Some a -> l !! S i = Some b ->
  exists pre post, l = pre ++ a :: b :: post /\ length pre = i.
Proof.
  revert i. induction l as [|c l IH]; intros i Ha Hb; [destruct i; discriminate|].
  destruct i as [|i].
  - injection Ha as ->. destruct l as [|c' l]; [discriminate|]. injection Hb as ->.
    exists [], l. split; reflexivity.
  - destruct (IH i Ha Hb) as (pre & post & -> & Hlen).
    exists (c :: pre), post. split; [reflexivity | simpl; now rewrite Hlen].
Qed.

(** X13: with an integer origin within [2 ^ 30] and a positive integer cell
    size up to [2 ^ 29], the gesture for distinct digits goes through the
    points of the digits themselves: the press is at the point of the first
    digit and every move is located at the point of its digit. *)
Theorem integer_cell_moves_hit_keys (keys : list key) (ds : list Z) (ox oy n : Z) :
  map coerceKey keys = map num_of_Z ds ->
  Forall is_digit ds -> NoDup ds -> (2 <= length ds)%nat ->
  Z.abs ox <= 2 ^ 30 -> Z.abs oy <= 2 ^ 30 -> 0 < n <= 2 ^ 29 ->
  exists actions,
    getPatternActions keys (origin ox oy) (num_of_Z n) = inr actions
    /\ (forall d, ds !! 0%nat = Some d ->
          actions !! 0%nat
          = Some (press (getPatternKeyPosition (num_of_Z d) (origin ox oy) (num_of_Z n))))
    /\ (forall i d, ds !! S i = Some d ->
          exists q, actions !! S i = Some (moveTo q)
                    /\ pos_equiv q (getPatternKeyPosition (num_of_Z d) (origin ox oy)
                                                          (num_of_Z n))).
Proof.
  intros Hkeys Hdig Hnd Hlen Hox Hoy Hn.
  destruct ds as [|d0 ds']; [simpl in Hlen; lia|].
  cbn [map] in Hkeys.
  eexists. split.
  { apply (getPatternActions_gesture _ _ _ _ _ Hkeys), num_seq_refl. }
  split.
  - intros d [= <-]. reflexivity.
  - intros i d Hd.
    assert (Hprev : exists a, (d0 :: ds') !! i = Some a).
    { apply lookup_lt_is_Some. apply lookup_lt_Some in Hd. lia. }
    destruct Hprev as [a Ha].
    destruct (lookup_pair_split _ i a d Ha Hd) as (pre & post & Hsplit & Hlenpre).
    assert (Hda : is_digit a /\ is_digit d).
    { rewrite Forall_forall in Hdig. rewrite Hsplit in Hdig.
      split; apply Hdig; rewrite elem_of_app, !elem_of_cons; tauto. }
    destruct Hda as [Hda Hdd].
    pose proof (gesture_lookup_pair (num_of_Z d0) (origin ox oy) (num_of_Z n)
                  (map num_of_Z ds') (map num_of_Z pre)
                  (num_of_Z a) (num_of_Z d) (map num_of_Z post)) as Hlook.
    rewrite length_map, Hlenpre in Hlook. rewrite Hlook.
    + unfold keyAction.
      rewrite (later_digit_differs _ _ _ _ _ _ Hnd Hsplit).
      eexists. split; [reflexivity|].
      apply (move_lands_on_digit a d ox oy n Hda Hdd Hox Hoy Hn).
    + transitivity (map num_of_Z (d0 :: ds')); [reflexivity|].
      rewrite Hsplit, map_app. reflexivity.
Qed.

Lemma integer_cell_moves_hit_keys_witness :
  exists actions,
    getPatternActions [KStr (str "7"); KStr (str "2"); KStr (str "9")]
                      (origin 33 323) (num_of_Z 137) = inr actions
    /\ (forall d, [7; 2; 9] !! 0%nat = Some d ->
          actions !! 0%nat
          = Some (press (getPatternKeyPosition (num_of_Z d) (origin 33 323) (num_of_Z 137))))
    /\ (forall i d, [7; 2; 9] !! S i = Some d ->
          exists q, actions !! S i = Some (moveTo q)
                    /\ pos_equiv q (getPatternKeyPosition (num_of_Z d) (origin 33 323)
                                                          (num_of_Z 137))).
Proof.
  apply (integer_cell_moves_hit_keys
           [KStr (str "7"); KStr (str "2"); KStr (str "9")] [7; 2; 9] 33 323 137).
  - vm_compute. reflexivity.
  - repeat constructor; unfold is_digit; lia.
  - repeat constructor; rewrite ?elem_of_cons, ?elem_of_nil; lia.
  - simpl. lia.
  - vm_compute. discriminate.
  - vm_compute. discriminate.
  - lia.
Defined.

(** *** Keys outside 1..9 *)

Lemma Qtrunc_div_Z (k : Z) (p : positive) :
  Qtrunc (inject_Z k / inject_Z (Zpos p)) = Z.quot k (Zpos p).
Proof.
  unfold Qtrunc, Qdiv, Qmult, Qinv, inject_Z. cbn [Qnum Qden].
  rewrite Z.mul_1_r. reflexivity.
Qed.

(** The remainder of a key that is not negative depends on the key through
    its remainder as an integer. *)
Lemma num_rem_Z (k k' : Z) (p : positive) :
  0 <= k -> 0 <= k' -> Z.rem k (Zpos p) = Z.rem k' (Zpos p) ->
  (num_of_Z k %% num_of_Z (Zpos p))%num = (num_of_Z k' %% num_of_Z (Zpos p))%num.
Proof.
  intros Hk Hk' Hrem.
  assert (Hv : forall z : Z,
             (inject_Z z - inject_Z (Z.pos p) * inject_Z (Qtrunc (inject_Z z / inject_Z (Z.pos p)))
              == inject_Z (Z.rem z (Z.pos p)))%Q).
  { intros z. rewrite Qtrunc_div_Z, <- inject_Z_mult. unfold Qminus.
    rewrite <- inject_Z_opp, <- inject_Z_plus.
    apply (proj2 (inject_Z_injective _ _)).
    pose proof (Z.quot_rem' z (Z.pos p)). lia. }
  unfold num_of_Z, num_rem. cbn [is_zero is_negative Qnum inject_Z].
  change (Z.pos p =? 0) with false. cbv iota.
  rewrite (Qred_complete _ _ (Hv k)), (Qred_complete _ _ (Hv k')), Hrem.
  assert (Es : (k <? 0) = (k' <? 0))
    by (rewrite (proj2 (Z.ltb_ge k 0) Hk), (proj2 (Z.ltb_ge k' 0) Hk'); reflexivity).
  now rewrite Es.
Qed.

Lemma rem_wrapped (k : Z) :
  0 <= k ->
  Z.rem k 3 = Z.rem (wrapped_digit k) 3 /\ Z.rem k 9 = Z.rem (wrapped_digit k) 9
  /\ is_digit (wrapped_digit k).
Proof.
  intros Hk. unfold wrapped_digit, is_digit.
  assert (Hw : 0 <= (k - 1) mod 9 + 1) by (pose proof (Z.mod_pos_bound (k - 1) 9); lia).
  rewrite !Z.rem_mod_nonneg by lia.
  Z.to_euclidean_division_equations; lia.
Qed.

(** X14: an integer key outside 1..9 is read modulo the grid: a key
    [k >= 0] gets the point of the digit [((k - 1) mod 9) + 1]; so 0 gets the
    point of 9 and 10 the point of 1, whatever the origin and the cell size. *)
Theorem key_position_wraps (k : Z) (initPos : Position) (piece : number) :
  0 <= k ->
  is_digit (wrapped_digit k)
  /\ getPatternKeyPosition (num_of_Z k) initPos piece
     = getPatternKeyPosition (num_of_Z (wrapped_digit k)) initPos piece.
Proof.
  intros Hk. destruct (rem_wrapped k Hk) as (H3 & H9 & Hd).
  split; [exact Hd|].
  assert (Hw : 0 <= wrapped_digit k) by (unfold is_digit in Hd; lia).
  unfold getPatternKeyPosition, patternColumn, patternRow. cbv zeta.
  rewrite (num_rem_Z k (wrapped_digit k) 3 Hk Hw H3).
  rewrite (num_rem_Z k (wrapped_digit k) 9 Hk Hw H9).
  reflexivity.
Qed.

Lemma key_position_wraps_witness :
  is_digit 9
  /\ getPatternKeyPosition (num_of_Z 0) (origin 0 0) (num_of_Z 30)
     = getPatternKeyPosition (num_of_Z 9) (origin 0 0) (num_of_Z 30).
Proof. apply (key_position_wraps 0 (origin 0 0) (num_of_Z 30)). lia. Defined.

(** * Further properties of the executors *)

Section MoreRuns.
Context `{Device}.

Lemma callsOf_app (t1 t2 : Trace) : callsOf (t1 ++ t2) = callsOf t1 ++ callsOf t2.
Proof.
  induction t1 as [|ev t1 IH]; [reflexivity|].
  destruct ev; cbn [app callsOf]; rewrite IH; reflexivity.
Qed.

Lemma shellCalls_app (t1 t2 : Trace) : shellCalls (t1 ++ t2) = shellCalls t1 ++ shellCalls t2.
Proof.
  induction t1 as [|ev t1 IH]; [reflexivity|].
  destruct ev as [[] ?| | |]; cbn [app shellCalls]; rewrite IH; reflexivity.
Qed.

(** The four ways [waitForUnlock] can go. *)
Lemma waitForUnlock_cases w r w' tr :
  waitForUnlock w = (r, w', tr) ->
  (exists e, r = inl e
     /\ tr = [Invoked M_waitForUnlock; Slept UNLOCK_WAIT_TIME;
              Called IsScreenLocked (inl e)])
  \/ (r = inr tt
      /\ tr = [Invoked M_waitForUnlock; Slept UNLOCK_WAIT_TIME;
               Called IsScreenLocked (inr (VBool false))])
  \/ (exists e, r = inl e
        /\ tr = [Invoked M_waitForUnlock; Slept UNLOCK_WAIT_TIME;
                 Called IsScreenLocked (inr (VBool true));
                 Called (Keyevent KEYCODE_NUMPAD_ENTER) (inl e)])
  \/ (r = inr tt
      /\ tr = [Invoked M_waitForUnlock; Slept UNLOCK_WAIT_TIME;
               Called IsScreenLocked (inr (VBool true));
               Called (Keyevent KEYCODE_NUMPAD_ENTER) (inr VUnit);
               Slept UNLOCK_WAIT_TIME]).
Proof.
  unfold waitForUnlock, bind, call, enter, sleep, ret.
  destruct (respond IsScreenLocked w) as [[e|[|]] w1].
  - intros [= <- <- <-]. left. eauto.
  - cbn [negb]. destruct (respond (Keyevent KEYCODE_NUMPAD_ENTER) w1) as [[e|[]] w2];
      intros [= <- <- <-].
    + right. right. left. eauto.
    + right. right. right. eauto.
  - cbn [negb]. intros [= <- <- <-]. right. left. eauto.
Qed.

(** X15: [waitForUnlock] asks once whether the screen is locked.  It sends
    the Enter key code (66) exactly when the answer is yes, once, and sends
    no other key; when the answer is no it returns after the first pause
    without touching the device again. *)
Theorem waitForUnlock_single_enter w r w' tr :
  waitForUnlock w = (r, w', tr) ->
  (callsOf tr = [IsScreenLocked]
   \/ callsOf tr = [IsScreenLocked; Keyevent KEYCODE_NUMPAD_ENTER])
  /\ (In (Called IsScreenLocked (inr (VBool true))) tr
      <-> callsOf tr = [IsScreenLocked; Keyevent KEYCODE_NUMPAD_ENTER])
  /\ (In (Called IsScreenLocked (inr (VBool false))) tr ->
      r = inr tt /\ tr = [Invoked M_waitForUnlock; Slept UNLOCK_WAIT_TIME;
                          Called IsScreenLocked (inr (VBool false))]).
Proof.
  intros Hrun.
  destruct (waitForUnlock_cases _ _ _ _ Hrun)
    as [(e & -> & ->) | [(-> & ->) | [(e & -> & ->) | (-> & ->)]]];
    cbn [callsOf]; (split; [tauto|]); split;
    try (split; [intros Hin; in_cases Hin | discriminate]);
    try (split; [reflexivity | intros _; simpl; tauto]);
    try (intros Hin; in_cases Hin); tauto.
Qed.

Lemma waitForUnlock_shell w r w' tr :
  waitForUnlock w = (r, w', tr) -> shellCalls tr = [].
Proof.
  intros Hrun.
  destruct (waitForUnlock_cases _ _ _ _ Hrun)
    as [(e & -> & ->) | [(-> & ->) | [(e & -> & ->) | (-> & ->)]]]; reflexivity.
Qed.

(** The ways [fastUnlock] can go, by the calls made and their outcomes. *)
Lemma fastUnlock_cases (opts : FastUnlockOptions) w r w' tr :
  fastUnlock opts w = (r, w', tr) ->
  let clear := ClearLockCredential opts.(credential) in
  let restore := SetLockCredential opts.(credentialType) opts.(credential) in
  exists msg t,
    tr = Invoked M_fastUnlock :: Logged msg :: t
    /\ ((exists e, r = inl e /\ t = [Called IsLockEnabled (inl e)])
        \/ (exists e, r = inl e
              /\ t = [Called IsLockEnabled (inr (VBool true)); Called clear (inl e)])
        \/ (exists e, r = inl e
              /\ t = [Called IsLockEnabled (inr (VBool true)); Called clear (inr VUnit);
                      Called CycleWakeUp (inl e)])
        \/ (exists rd rs : result unit,
              t = [Called IsLockEnabled (inr (VBool true)); Called clear (inr VUnit);
                   Called CycleWakeUp (inr VUnit);
                   Called DismissKeyguard (unitOutcome rd);
                   Called restore (unitOutcome rs)]
              /\ r = match rs with
                     | inl e => inl e
                     | inr _ => match rd with inl e => inl e | inr _ => inr tt end
                     end)
        \/ (exists (rd : result unit) msg',
              t = [Called IsLockEnabled (inr (VBool false)); Logged msg';
                   Called DismissKeyguard (unitOutcome rd)]
              /\ r = match rd with inl e => inl e | inr _ => inr tt end)).
Proof.
  intros Hrun clear restore. subst clear restore.
  unfold fastUnlock, bind, try_finally, call, enter, logger_info, ret in Hrun.
  destruct (respond IsLockEnabled w) as [[e|[|]] w1].
  - injection Hrun as <- <- <-. eexists _, _. split; [reflexivity|]. left. eauto.
  - destruct (respond (ClearLockCredential (credential opts)) w1) as [[e|[]] w2].
    { injection Hrun as <- <- <-. eexists _, _. split; [reflexivity|].
      right. left. eauto. }
    destruct (respond CycleWakeUp w2) as [[e|[]] w3].
    { injection Hrun as <- <- <-. eexists _, _. split; [reflexivity|].
      right. right. left. eauto. }
    destruct (respond DismissKeyguard w3) as [[e|[]] w4];
      destruct (respond (SetLockCredential (credentialType opts) (credential opts)) w4)
        as [[e'|[]] w5];
      injection Hrun as <- <- <-; eexists _, _; (split; [reflexivity|]);
      right; right; right; left;
      [ exists (inl e), (inl e') | exists (inl e), (inr tt)
      | exists (inr tt), (inl e') | exists (inr tt), (inr tt) ];
      split; reflexivity.
  - destruct (respond DismissKeyguard w1) as [[e|[]] w2];
      injection Hrun as <- <- <-; eexists _, _; (split; [reflexivity|]);
      right; right; right; right;
      [ exists (inl e) | exists (inr tt) ]; eexists; split; reflexivity.
Qed.
End MoreRuns.

Section FastUnlockMore.
Context `{Device}.

(** X16: the error [fastUnlock] ends with.  When the restoration of the
    credential raises, its error is the one the caller gets, also when the
    dismissal had raised before: that error is lost.  The run returns
    normally exactly when the dismissal has returned and no restoration has
    raised. *)
Theorem fastUnlock_restoration_error_wins (opts : FastUnlockOptions) w r w' tr :
  fastUnlock opts w = (r, w', tr) ->
  (forall ty cred e, In (Called (SetLockCredential ty cred) (inl e)) tr -> r = inl e)
  /\ (r = inr tt
      <-> In (Called DismissKeyguard (inr VUnit)) tr
          /\ forall ty cred e, ~ In (Called (SetLockCredential ty cred) (inl e)) tr).
Proof.
  intros Hrun.
  destruct (fastUnlock_cases _ _ _ _ _ Hrun) as (msg & t & -> & Hcases).
  destruct Hcases as [(e & -> & ->) | [(e & -> & ->) | [(e & -> & ->)
                     | [(rd & rs & -> & ->) | (rd & msg' & -> & ->)]]]].
  1-3: split; [intros ty cred e0 Hin; in_cases Hin|];
       split; [discriminate | intros [Hin _]; in_cases Hin].
  - split.
    + intros ty cred e0 Hin. in_cases Hin.
      destruct rs as [e|[]]; cbn [unitOutcome] in Hin; [|discriminate Hin].
      congruence.
    + destruct rs as [e|[]], rd as [e'|[]]; cbn [unitOutcome]; split.
      * discriminate.
      * intros [_ Hno]. exfalso. eapply Hno. do 6 right. left. reflexivity.
      * discriminate.
      * intros [_ Hno]. exfalso. eapply Hno. do 6 right. left. reflexivity.
      * discriminate.
      * intros [Hin _]. in_cases Hin.
      * intros _. split; [do 5 right; now left|].
        intros ty cred e0 Hin. in_cases Hin.
      * reflexivity.
  - split; [intros ty cred e0 Hin; in_cases Hin|].
    destruct rd as [e|[]]; cbn [unitOutcome]; split.
    + discriminate.
    + intros [Hin _]. in_cases Hin.
    + intros _. split; [do 4 right; now left|].
      intros ty cred e0 Hin. in_cases Hin.
    + reflexivity.
Qed.

(** X17: a run of [fastUnlock] that returns normally has made these calls
    in this order.  With a lock: the query, the clearing of the credential,
    the wake-up cycle, the dismissal, and the restoration of the same
    credential with its type.  Without a lock: the query and the dismissal. *)
Theorem fastUnlock_success_calls (opts : FastUnlockOptions) w w' tr :
  fastUnlock opts w = (inr tt, w', tr) ->
  (In (Called IsLockEnabled (inr (VBool true))) tr
   /\ callsOf tr = [IsLockEnabled; ClearLockCredential opts.(credential); CycleWakeUp;
                    DismissKeyguard;
                    SetLockCredential opts.(credentialType) opts.(credential)])
  \/ (In (Called IsLockEnabled (inr (VBool false))) tr
      /\ callsOf tr = [IsLockEnabled; DismissKeyguard]).
Proof.
  intros Hrun.
  destruct (fastUnlock_cases _ _ _ _ _ Hrun) as (msg & t & -> & Hcases).
  destruct Hcases as [(e & [=] & _) | [(e & [=] & _) | [(e & [=] & _)
                     | [(rd & rs & -> & _) | (rd & msg' & -> & _)]]]].
  - left. split; [do 2 right; now left | reflexivity].
  - right. split; [do 2 right; now left | reflexivity].
Qed.
End FastUnlockMore.

Lemma fastUnlock_restoration_error_wins_witness :
  let run := @fastUnlock twoErrors pinOpts tt in
  In (Called DismissKeyguard (inl dismissError)) (traceOf run)
  /\ outcomeOf run = inl restoreError.
Proof.
  intros run. split; [vm_compute; tauto|].
  apply (proj1 (@fastUnlock_restoration_error_wins twoErrors pinOpts tt _ _ _ (run_eta run))
           (str "pin") (str "1234") restoreError).
  vm_compute. tauto.
Defined.

Lemma fastUnlock_success_calls_witness :
  let run := @fastUnlock (scripted keypad12) pinOpts tt in
  (In (Called IsLockEnabled (inr (VBool true))) (traceOf run)
   /\ callsOf (traceOf run)
      = [IsLockEnabled; ClearLockCredential (str "1234"); CycleWakeUp; DismissKeyguard;
         SetLockCredential (str "pin") (str "1234")])
  \/ (In (Called IsLockEnabled (inr (VBool false))) (traceOf run)
      /\ callsOf (traceOf run) = [IsLockEnabled; DismissKeyguard]).
Proof.
  intros run.
  apply (@fastUnlock_success_calls (scripted keypad12) pinOpts tt (snd (fst run)) (traceOf run)).
  reflexivity.
Defined.

(** ** The key events of [pinUnlockWithKeyEvent] *)

Section KeyEvents.
Context `{Device}.

Lemma sendKeyEvents_shell keys w r w' tr :
  sendKeyEvents keys w = (r, w', tr) ->
  (exists rest, map keyeventCommand keys = shellCalls tr ++ rest)
  /\ (r = inr tt -> shellCalls tr = map keyeventCommand keys).
Proof.
  revert w tr. induction keys as [|pin keys IH]; intros w tr; cbn [sendKeyEvents].
  - intros [= <- <- <-]. split; [exists []; reflexivity | reflexivity].
  - intros Hrun.
    apply call_bind_inv in Hrun as [(e & -> & ->) | ([] & w1 & t & -> & Hrun)].
    + split; [|discriminate]. exists (map keyeventCommand keys). reflexivity.
    + destruct (IH _ _ Hrun) as [(rest & Hrest) Hall]. cbn [shellCalls map]. split.
      * exists rest. cbn [app]. f_equal. exact Hrest.
      * intros Hr. f_equal. apply (Hall Hr).
Qed.

Lemma pinUnlockWithKeyEvent_shell capabilities w r w' tr :
  pinUnlockWithKeyEvent capabilities w = (r, w', tr) ->
  let commands := map keyeventCommand (stringKeyToArr capabilities.(unlockKey)) in
  (exists rest, commands = shellCalls tr ++ rest)
  /\ (r = inr tt -> shellCalls tr = commands).
Proof.
  intros Hrun commands. subst commands. unfold pinUnlockWithKeyEvent in Hrun.
  apply enter_bind_inv in Hrun as (t0 & -> & Hrun).
  apply logger_bind_inv in Hrun as (t1 & -> & Hrun).
  apply call_bind_inv in Hrun as [(e & -> & ->) | ([] & w1 & t2 & -> & Hrun)].
  { split; [|discriminate]. eexists. reflexivity. }
  apply bind_inv in Hrun as [(e & Hsend & ->) | ([] & w2 & t3 & t4 & Hsend & Hwait & ->)].
  - destruct (sendKeyEvents_shell _ _ _ _ _ Hsend) as [Hprefix _].
    split; [exact Hprefix | discriminate].
  - destruct (sendKeyEvents_shell _ _ _ _ _ Hsend) as [_ Hall].
    cbn [shellCalls]. rewrite shellCalls_app, (waitForUnlock_shell _ _ _ _ Hwait), app_nil_r.
    rewrite (Hall eq_refl). split; [exists []; now rewrite app_nil_r | reflexivity].
Qed.

Lemma keyeventCommand_digit (c : code_unit) :
  is_digit_0_9 c = true ->
  keyeventCommand (unit_string c) = keycodeCommand (digit_of c + NUMBER_ZERO_KEYCODE).
Proof.
  intros Hc. unfold keyeventCommand, unit_string.
  now rewrite (proj2 (parseInt_digit c Hc)).
Qed.

Lemma keyeventCommand_digits (s : jsstring) :
  forallb is_digit_0_9 s = true ->
  map keyeventCommand (map unit_string s)
  = map keycodeCommand (map (fun c => digit_of c + NUMBER_ZERO_KEYCODE) s).
Proof.
  induction s as [|c s IH]; [reflexivity|]. cbn [forallb map].
  intros Hall. apply andb_true_iff in Hall as [Hc Hs].
  now rewrite (keyeventCommand_digit c Hc), (IH Hs).
Qed.

(** X18: for a key that is made of digits once trimmed (what the validation
    accepts for a PIN), [pinUnlockWithKeyEvent] sends through the shell one
    [input keyevent] command for each digit, in the order of the key, with
    the key code of the digit, which is the digit plus 7 and so between 7 and
    16.  Whatever the run, what has gone through the shell is a first part
    of these commands; a run that returns has sent them all. *)
Theorem pinUnlockWithKeyEvent_key_codes (key : jsstring) (type : option jsstring)
    w r w' tr :
  forallb is_digit_0_9 (trim key) = true ->
  pinUnlockWithKeyEvent (capsOf (Some key) type) w = (r, w', tr) ->
  let codes := map (fun c => digit_of c + NUMBER_ZERO_KEYCODE) (trim key) in
  Forall (fun code => 7 <= code <= 16) codes
  /\ (exists rest, map keycodeCommand codes = shellCalls tr ++ rest)
  /\ (r = inr tt -> shellCalls tr = map keycodeCommand codes).
Proof.
  intros Hdig Hrun codes. subst codes. split.
  - apply Forall_forall. intros code Hcode.
    apply list_elem_of_In, in_map_iff in Hcode as (c & <- & Hc).
    apply (proj1 (forallb_forall _ _) Hdig), is_digit_0_9_spec in Hc.
    unfold digit_of, NUMBER_ZERO_KEYCODE. lia.
  - rewrite <- (keyeventCommand_digits _ Hdig), <- (stringKeyToArr_digits key Hdig).
    apply (pinUnlockWithKeyEvent_shell _ _ _ _ _ Hrun).
Qed.

(** What a character that is no digit becomes: the text [NaN]. *)
Example keyeventCommand_letter :
  keyeventCommand (str "a") = [str "input"; str "keyevent"; str "NaN"].
Proof. reflexivity. Qed.

Lemma clickKeys_shell capabilities keys w r w' tr :
  clickKeys capabilities keys w = (r, w', tr) ->
  (forall v, r = inr (Some v) ->
     shellCalls tr = map keyeventCommand (stringKeyToArr capabilities.(unlockKey)))
  /\ (r = inr None -> ~ fellBack tr).
Proof.
  revert w tr. induction keys as [|pin keys IH]; intros w tr; cbn [clickKeys].
  { intros [= <- <- <-]. split; [discriminate | intros _ []]. }
  intros Hrun.
  apply call_bind_inv in Hrun as [(e0 & -> & ->) | (v & w1 & t & -> & Hrun)];
    [split; discriminate|].
  destruct v as [el0|]; cbn [reify] in *.
  - apply call_bind_inv in Hrun as [(e0 & -> & ->) | ([] & w2 & t2 & -> & Hrun)];
      [split; discriminate|].
    destruct (IH _ _ Hrun) as [Hsome Hnone]. split.
    + intros v Hv. cbn [shellCalls]. apply (Hsome v Hv).
    + intros Hr Hfb. in_cases Hfb. apply (Hnone Hr Hfb).
  - apply bind_inv in Hrun
      as [(e0 & Hkey & ->) | (v & w2 & t1 & t2 & Hkey & [= <- <- <-] & ->)];
      [split; discriminate|].
    split; [|discriminate]. intros v' _. cbn [shellCalls]. rewrite app_nil_r.
    destruct v. apply (pinUnlockWithKeyEvent_shell _ _ _ _ _ Hkey). reflexivity.
Qed.

(** X19: when [pinUnlock] has fallen back and returns normally, the key
    events of the whole key have been sent through the shell, in order,
    whatever had been clicked before the fallback: below API level 21 the
    digits clicked before the missing element are entered a second time. *)
Theorem pinUnlock_fallback_sends_whole_key (capabilities : Capabilities) w w' tr :
  pinUnlock capabilities w = (inr tt, w', tr) ->
  fellBack tr ->
  shellCalls tr = map keyeventCommand (stringKeyToArr capabilities.(unlockKey)).
Proof.
  intros Hrun Hfb.
  destruct (pinUnlock_cases _ _ _ _ _ Hrun) as (msg & t & -> & Hcases).
  destruct Hcases as [(e & [=] & _) | [(e & [=] & _) | (n & t' & -> & Hpaths)]].
  destruct Hpaths as [(Hn & e & [=] & _) | [(Hn & w1 & t'' & -> & Hkey)
                    | [(Hn & els & w1 & t'' & Hels & -> & Hpath) | (Hn & w1 & Hpath)]]].
  - cbn [shellCalls]. apply (pinUnlockWithKeyEvent_shell _ _ _ _ _ Hkey). reflexivity.
  - exfalso. destruct (elementPath_trace _ _ _ _ _ _ Hpath) as [Hsteps _].
    destruct (clickStep_entries _ Hsteps) as [_ Hnofb]. in_cases Hfb.
  - cbn [shellCalls]. unfold legacyPath in Hpath.
    apply bind_inv in Hpath as [(e0 & _ & [=]) | (v & w2 & t1 & t2 & Hkeys & Hrest & ->)].
    destruct (clickKeys_shell _ _ _ _ _ _ Hkeys) as [Hsome Hnone].
    destruct v as [[]|].
    + injection Hrest as <- <-. rewrite app_nil_r. apply (Hsome tt eq_refl).
    + exfalso. in_cases Hfb. apply in_app_or in Hfb as [Hfb|Hfb].
      * apply (Hnone eq_refl Hfb).
      * apply (In_Forall_absurd keyEventStep _ _
                 (waitForUnlock_keyEventStep _ _ _ _ Hrest) Hfb). intros [].
Qed.
End KeyEvents.

Lemma pinUnlockWithKeyEvent_key_codes_witness :
  let run := @pinUnlockWithKeyEvent (scripted keypad12) (capsOf (Some (str " 109 ")) None) tt in
  Forall (fun code => 7 <= code <= 16) [8; 7; 16]
  /\ (exists rest, map keycodeCommand [8; 7; 16] = shellCalls (traceOf run) ++ rest)
  /\ (outcomeOf run = inr tt -> shellCalls (traceOf run) = map keycodeCommand [8; 7; 16]).
Proof.
  intros run.
  apply (@pinUnlockWithKeyEvent_key_codes (scripted keypad12) (str " 109 ") None tt
           _ _ _ eq_refl (run_eta run)).
Defined.

Lemma pinUnlock_fallback_sends_whole_key_witness :
  let run := @pinUnlock (scripted oldPhoneKey1) (pinCaps "12") tt in
  In (Called (Click (Some 1%nat)) (inr VUnit)) (traceOf run)
  /\ shellCalls (traceOf run) = [keycodeCommand 8; keycodeCommand 9].
Proof.
  intros run. split; [vm_compute; tauto|].
  apply (@pinUnlock_fallback_sends_whole_key (scripted oldPhoneKey1) (pinCaps "12") tt
           (snd (fst run)) (traceOf run)).
  - reflexivity.
  - vm_compute. tauto.
Defined.

(** ** [passwordUnlock] *)

Section PasswordUnlockRuns.
Context `{Device}.

(** X20: [passwordUnlock] types the encoded key, which has no whitespace,
    with one [input text] command and then sends Enter with one
    [input keyevent 66] command, in this order and nothing else through the
    shell; a run that returns has sent both.  When the dismissal of the
    keyguard raises, nothing is typed.  When the screen is still locked
    afterwards, Enter is sent a second time, as a key event. *)
Theorem passwordUnlock_commands (key : jsstring) (type : option jsstring) w r w' tr :
  passwordUnlock (capsOf (Some key) type) w = (r, w', tr) ->
  let text := [str "input"; str "text"; encodePassword (Some key)] in
  let enter := [str "input"; str "keyevent"; str "66"] in
  forallb non_whitespace (encodePassword (Some key)) = true
  /\ (exists rest, [text; enter] = shellCalls tr ++ rest)
  /\ (r = inr tt -> shellCalls tr = [text; enter])
  /\ (forall e, In (Called DismissKeyguard (inl e)) tr -> r = inl e /\ shellCalls tr = [])
  /\ (In (Called IsScreenLocked (inr (VBool true))) tr ->
      shellCalls tr = [text; enter]
      /\ exists res, In (Called (Keyevent KEYCODE_NUMPAD_ENTER) res) tr).
Proof.
  intros Hrun text enter. subst text enter.
  split; [apply replace_each_whitespace_free|].
  unfold passwordUnlock in Hrun. cbn [unlockKey capsOf] in Hrun.
  apply logger_bind_inv in Hrun as (t0 & -> & Hrun).
  apply call_bind_inv in Hrun as [(e & -> & ->) | ([] & w1 & t1 & -> & Hrun)].
  { split; [eexists; reflexivity|]. split; [discriminate|]. split.
    - intros e0 Hin. in_cases Hin. split; [congruence | reflexivity].
    - intros Hin. in_cases Hin. }
  apply call_bind_inv in Hrun as [(e & -> & ->) | ([] & w2 & t2 & -> & Hrun)].
  { split; [eexists; reflexivity|]. split; [discriminate|]. split.
    - intros e0 Hin. in_cases Hin.
    - intros Hin. in_cases Hin. }
  unfold bind at 1, sleep at 1 in Hrun.
  destruct (bind _ _ w2) as [[r3 w3] t3] eqn:Hrest. injection Hrun as <- <- <-.
  apply call_bind_inv in Hrest as [(e & -> & ->) | ([] & w4 & t4 & -> & Hwait)].
  { split; [eexists; reflexivity|]. split; [discriminate|]. split.
    - intros e0 Hin. in_cases Hin.
    - intros Hin. in_cases Hin. }
  pose proof (waitForUnlock_shell _ _ _ _ Hwait) as Hshell.
  cbn [app shellCalls]. rewrite Hshell.
  split; [exists []; reflexivity|]. split; [reflexivity|]. split.
  - intros e0 Hin. in_cases Hin. exfalso.
    destruct (waitForUnlock_cases _ _ _ _ Hwait)
      as [(e & _ & ->) | [(_ & ->) | [(e & _ & ->) | (_ & ->)]]]; in_cases Hin.
  - intros Hin. split; [reflexivity|]. in_cases Hin.
    destruct (waitForUnlock_cases _ _ _ _ Hwait)
      as [(e & _ & ->) | [(_ & ->) | [(e & _ & ->) | (_ & ->)]]]; in_cases Hin.
    + eexists. do 8 right. left. reflexivity.
    + eexists. do 8 right. left. reflexivity.
Qed.
End PasswordUnlockRuns.

Lemma passwordUnlock_commands_witness :
  let run := @passwordUnlock (scripted patternPhone) (capsOf (Some (str "my secret")) None) tt in
  shellCalls (traceOf run)
  = [[str "input"; str "text"; str "my%ssecret"]; [str "input"; str "keyevent"; str "66"]]
  /\ exists res, In (Called (Keyevent KEYCODE_NUMPAD_ENTER) res) (traceOf run).
Proof.
  intros run.
  apply (proj2 (proj2 (proj2 (proj2
           (@passwordUnlock_commands (scripted patternPhone) (str "my secret") None tt
              _ _ _ (run_eta run)))))).
  vm_compute. tauto.
Defined.

(** ** [fingerprintUnlock] and [patternUnlock] *)

Section ExtRuns.
Context `{FullDevice}.

(** X21: [fingerprintUnlock] asks for the API level first.  Below 23 it
    raises its own error and nothing is sent to the device; from 23 on it
    sends the key as the fingerprint, once, and returns normally exactly when
    that call has returned. *)
Theorem fingerprintUnlock_needs_api_23 (capabilities : Capabilities) w r w' tr :
  fingerprintUnlock capabilities w = (r, w', tr) ->
  forall n, In (Base (Called GetApiLevel (inr (VInt n)))) tr ->
  (n < 23 ->
   r = inl (Error (str "Fingerprint unlock only works for Android 6+ emulators"))
   /\ tr = [Base (Called GetApiLevel (inr (VInt n)))])
  /\ (23 <= n ->
      exists res,
        In (CalledExt (Fingerprint (String_of capabilities.(unlockKey))) res) tr
        /\ (forall c res', In (CalledExt c res') tr ->
              c = Fingerprint (String_of capabilities.(unlockKey)) /\ res' = res)
        /\ (r = inr tt <-> res = inr XUnit)
        /\ (forall e, res = inl e -> r = inl e)).
Proof.
  unfold fingerprintUnlock, xbind, lift, call, xcall, xthrow, sleep.
  destruct (respond GetApiLevel w) as [[e|n0] w1]; cbn [map reify].
  { intros [= <- <- <-] n Hin. in_cases Hin. }
  destruct (n0 <? 23) eqn:En.
  - apply Z.ltb_lt in En. intros [= <- <- <-] n Hin. in_cases Hin.
    injection Hin as <-. split; [tauto | lia].
  - apply Z.ltb_ge in En.
    destruct (respondExt (Fingerprint (String_of (unlockKey capabilities))) w1)
      as [[e|[]] w2]; cbn [map app reifyExt];
      intros [= <- <- <-] n Hin; in_cases Hin; injection Hin as <-;
      (split; [lia|]); intros _.
    + exists (inl e). split; [right; left; reflexivity|].
      split; [intros c res' Hc; in_cases Hc; injection Hc as <- <-; tauto|].
      split; [split; discriminate|]. intros e0 [= <-]. reflexivity.
    + exists (inr XUnit). split; [right; left; reflexivity|].
      split; [intros c res' Hc; in_cases Hc; injection Hc as <- <-; tauto|].
      split; [tauto | discriminate].
Qed.

(** Every run of [patternUnlock] is one of those listed. *)
Lemma patternUnlock_runs (capabilities : Capabilities) w r w' tr :
  patternUnlock capabilities w = (r, w', tr) -> patternUnlockRun capabilities r tr.
Proof.
  unfold patternUnlock, xbind, lift, call, xcall, xthrow, logger_info, sleep.
  cbn [map].
  destruct (respond DismissKeyguard w) as [[e|[]] w1]; cbn [map app reify];
    [intros [= <- <- <-]; apply run_dismiss_raises|].
  destruct (respond GetApiLevel w1) as [[e|n] w2]; cbn [map app reify];
    [intros [= <- <- <-]; apply run_level_raises|].
  destruct (respond (FindElOrEls (str "id") (lockPatternViewId n) false) w2)
    as [[e|el] w3]; cbn [map app reify];
    [intros [= <- <- <-]; apply run_lookup_raises|].
  destruct (respondExt (GetLocation (unwrapFound el)) w3) as [[e|loc] w4];
    cbn [map app reifyExt];
    [intros [= <- <- <-]; apply (run_location_raises capabilities n el e)|].
  destruct (respondExt (GetSize (unwrapFound el)) w4) as [[e|size] w5];
    cbn [map app reifyExt];
    [intros [= <- <- <-]; apply (run_size_raises capabilities n el loc e)|].
  destruct (getPatternActions (map KStr (stringKeyToArr (unlockKey capabilities))) loc
              (width size / num_of_Z 3)%num) as [e|actions] eqn:Egesture.
  { intros [= <- <- <-]. apply (run_gesture_fails capabilities n el loc size e Egesture). }
  destruct (respondExt (PerformTouch actions) w5) as [[e|[]] w6]; cbn [map app reifyExt];
    intros [= <- <- <-].
  - apply (run_touch_raises capabilities n el loc size actions e Egesture).
  - apply (run_touch_done capabilities n el loc size actions Egesture).
Qed.
End ExtRuns.

Section PatternUnlockRuns.
Context `{FullDevice}.

Lemma lockPatternViewId_cases (n : Z) :
  lockPatternViewId n
  = if 21 <=? n then str "com.android.systemui:id/lockPatternView"
    else str "com.android.keyguard:id/lockPatternView".
Proof. unfold lockPatternViewId. destruct (21 <=? n); reflexivity. Qed.

Ltac pattern_run Hrun :=
  apply patternUnlock_runs in Hrun; inversion Hrun; subst; clear Hrun;
  unfold measuredView, foundView, patternLog in *; cbn [app] in *.

(** X22: the calls [patternUnlock] makes besides those on the view.  It
    dismisses the keyguard, asks for the API level and looks the pattern view
    up under the identifier of that level ([systemui] from 21 on, [keyguard]
    below); it never asks whether the screen is locked and sends no key.
    What the lookup answers is not checked: on [null] the location is asked
    for [util.unwrapElement(null)]. *)
Theorem patternUnlock_lookup (capabilities : Capabilities) w r w' tr :
  patternUnlock capabilities w = (r, w', tr) ->
  (forall c res, In (Base (Called c res)) tr ->
     c = DismissKeyguard \/ c = GetApiLevel
     \/ exists n,
          In (Base (Called GetApiLevel (inr (VInt n)))) tr
          /\ c = FindElOrEls (str "id")
                   (if 21 <=? n then str "com.android.systemui:id/lockPatternView"
                    else str "com.android.keyguard:id/lockPatternView") false)
  /\ (forall st sel,
        In (Base (Called (FindElOrEls st sel false) (inr (VElement None)))) tr ->
        exists res, In (CalledExt (GetLocation unwrapNull) res) tr).
Proof.
  intros Hrun. pattern_run Hrun; split.
  all: try (intros c res Hin; in_cases Hin; injection Hin as <- _;
            first [ left; reflexivity
                  | right; left; reflexivity
                  | right; right; exists n; split;
                    [simpl; tauto | now rewrite lockPatternViewId_cases] ]).
  all: intros st sel Hin; in_cases Hin; injection Hin as _ _ Hel; subst;
    eexists; cbn [unwrapFound]; simpl; tauto.
Qed.

(** X23: the gesture [patternUnlock] performs.  Once the location and the
    size of the view are read, the gesture is computed from the characters of
    the key, the location as origin and a third of the width as cell size.
    When that fails (a first character that is no number) the run ends with
    the type error and nothing is performed; otherwise the actions are given
    to [performTouch], once, and the run returns normally exactly when that
    call has returned. *)
Theorem patternUnlock_gesture (capabilities : Capabilities) w r w' tr :
  patternUnlock capabilities w = (r, w', tr) ->
  forall el loc el' size,
    In (CalledExt (GetLocation el) (inr (XPosition loc))) tr ->
    In (CalledExt (GetSize el') (inr (XSize size))) tr ->
    match getPatternActions (map KStr (stringKeyToArr capabilities.(unlockKey))) loc
            (size.(width) / num_of_Z 3)%num with
    | inl e =>
        r = inl e /\ forall a res, ~ In (CalledExt (PerformTouch a) res) tr
    | inr actions =>
        exists res,
          In (CalledExt (PerformTouch actions) res) tr
          /\ (forall a res', In (CalledExt (PerformTouch a) res') tr ->
                a = actions /\ res' = res)
          /\ (r = inr tt <-> res = inr XUnit)
    end.
Proof.
  intros Hrun el loc el' size Hloc Hsize.
  pattern_run Hrun; in_cases Hloc; in_cases Hsize;
    injection Hloc as _ <-; injection Hsize as _ <-;
    unfold patternKeys in *;
    match goal with Hg : getPatternActions _ _ _ = _ |- _ => rewrite Hg end.
  - split; [reflexivity|]. intros a res Hin. in_cases Hin.
  - exists (inl e). split; [simpl; tauto|]. split.
    + intros a res' Hin. in_cases Hin. injection Hin as <- <-. tauto.
    + split; discriminate.
  - exists (inr XUnit). split; [simpl; tauto|]. split.
    + intros a res' Hin. in_cases Hin. injection Hin as <- <-. tauto.
    + tauto.
Qed.

(** X24: with a pattern key the validation accepts, [patternUnlock] cannot
    fail on its own: every error it ends with has been raised by one of its
    calls.  Once the location and the size of the view are read, it performs
    a gesture of a press, one move for each further digit of the key, and
    a release. *)
Theorem patternUnlock_accepted_key (key : jsstring) w r w' tr :
  let capabilities := capsOf (Some key) (Some PATTERN_UNLOCK) in
  validateUnlockCapabilities (Some capabilities) = inr (Some capabilities) ->
  patternUnlock capabilities w = (r, w', tr) ->
  (forall e, r = inl e ->
     (exists c, In (Base (Called c (inl e))) tr)
     \/ (exists c, In (CalledExt c (inl e)) tr))
  /\ (forall el loc el' size,
        In (CalledExt (GetLocation el) (inr (XPosition loc))) tr ->
        In (CalledExt (GetSize el') (inr (XSize size))) tr ->
        exists p moves res,
          In (CalledExt (PerformTouch (press p :: moves ++ [release])) res) tr
          /\ length moves = (length (trim key) - 1)%nat
          /\ forallb is_moveTo moves = true).
Proof.
  intros capabilities Hok Hrun.
  assert (Hgesture : forall loc piece, exists p moves,
             getPatternActions (patternKeys capabilities) loc piece
             = inr (press p :: moves ++ [release])
             /\ length moves = (length (trim key) - 1)%nat
             /\ forallb is_moveTo moves = true)
    by (intros loc piece; apply (accepted_pattern_gesture key loc piece Hok)).
  pattern_run Hrun; split.
  all: try (intros e0 [= <-]; first [ left; eexists; simpl; tauto
                                    | right; eexists; simpl; tauto ]).
  all: try (intros e0 Hr; discriminate Hr).
  all: try (intros el0 loc0 el0' size0 Hloc Hsize; in_cases Hloc; in_cases Hsize; fail).
  all: try match goal with
         | Hg : getPatternActions _ ?loc ?piece = inl _ |- _ =>
             destruct (Hgesture loc piece) as (p & moves & Hact & _); congruence
         end.
  all: intros el0 loc0 el0' size0 Hloc Hsize;
    match goal with
    | Hg : getPatternActions _ ?loc ?piece = inr _ |- _ =>
        destruct (Hgesture loc piece) as (p & moves & Hact & Hlen & Hmoves);
        rewrite Hact in Hg; injection Hg as <-
    end;
    exists p, moves; eexists; split; [simpl; tauto | tauto].
Qed.
End PatternUnlockRuns.

Lemma fingerprintUnlock_needs_api_23_witness :
  let old := @fingerprintUnlock oldDevice (capsOf (Some (str "1")) (Some FINGERPRINT_UNLOCK)) tt in
  fst (fst old) = inl (Error (str "Fingerprint unlock only works for Android 6+ emulators"))
  /\ snd old = [Base (Called GetApiLevel (inr (VInt 19)))].
Proof.
  intros old.
  destruct old as [[r w'] tr] eqn:Eold.
  apply (proj1 (@fingerprintUnlock_needs_api_23 oldDevice
                  (capsOf (Some (str "1")) (Some FINGERPRINT_UNLOCK)) tt r w' tr Eold 19
                  ltac:(injection Eold as _ _ <-; vm_compute; tauto))).
  lia.
Defined.

(** A run of an executor over the four further calls, as the triple of its
    parts. *)
Lemma triple_eta {A B C} (t : A * B * C) : t = (fst (fst t), snd (fst t), snd t).
Proof. destruct t as [[a b] c]. reflexivity. Qed.

Lemma waitForUnlock_single_enter_witness :
  let run := @waitForUnlock (scripted noKeypad) tt in
  callsOf (traceOf run) = [IsScreenLocked; Keyevent KEYCODE_NUMPAD_ENTER].
Proof.
  intros run.
  apply (proj1 (proj1 (proj2 (@waitForUnlock_single_enter (scripted noKeypad) tt
                                _ _ _ (run_eta run))))).
  vm_compute. tauto.
Defined.

Lemma patternUnlock_lookup_witness :
  let run := @patternUnlock noViewDevice (patternCaps "1235") tt in
  exists res, In (CalledExt (GetLocation None) res) (snd run).
Proof.
  intros run.
  apply (proj2 (@patternUnlock_lookup noViewDevice (patternCaps "1235") tt
                  _ _ _ (triple_eta run))
           (str "id") (str "com.android.systemui:id/lockPatternView")).
  vm_compute. tauto.
Defined.

Lemma patternUnlock_gesture_witness :
  let run := @patternUnlock patternDevice (patternCaps "1235") tt in
  match getPatternActions (map KStr (stringKeyToArr (Some (str "1235")))) viewLocation
          (viewSize.(width) / num_of_Z 3)%num with
  | inl e => fst (fst run) = inl e
             /\ forall a res, ~ In (CalledExt (PerformTouch a) res) (snd run)
  | inr actions =>
      exists res,
        In (CalledExt (PerformTouch actions) res) (snd run)
        /\ (forall a res', In (CalledExt (PerformTouch a) res') (snd run) ->
              a = actions /\ res' = res)
        /\ (fst (fst run) = inr tt <-> res = inr XUnit)
  end.
Proof.
  intros run.
  apply (@patternUnlock_gesture patternDevice (patternCaps "1235") tt
           _ _ _ (triple_eta run) (Some 7%nat) viewLocation (Some 7%nat) viewSize).
  - vm_compute. tauto.
  - vm_compute. tauto.
Defined.

Lemma patternUnlock_accepted_key_witness :
  let run := @patternUnlock patternDevice (patternCaps "1235") tt in
  exists p moves res,
    In (CalledExt (PerformTouch (press p :: moves ++ [release])) res) (snd run)
    /\ length moves = 3%nat
    /\ forallb is_moveTo moves = true.
Proof.
  intros run.
  apply (proj2 (@patternUnlock_accepted_key patternDevice (str "1235") tt
                  _ _ _ ltac:(vm_compute; reflexivity) (triple_eta run))
           (Some 7%nat) viewLocation (Some 7%nat) viewSize).
  - vm_compute. tauto.
  - vm_compute. tauto.
Defined.
